(** * Verification of the Nepali transliteration engine

    Shallow embedding of [src/lib/nepali-mapping.ts] (the symbol tables)
    and [src/lib/nepali-converter.ts] (the engine), followed by the
    properties of the engine.

    Strings are JavaScript strings: sequences of UTF-16 code units.  Every
    glyph of the tables lies in the Devanagari block, so it is one code
    unit, and [length] below is the [.length] of the source. *)

From Stdlib Require Import String Ascii List NArith ZArith Bool Arith Lia.
Import ListNotations.

(** ** Host strings *)

Module JS.

(** A string is the list of its UTF-16 code units. *)
Definition str := list N.

Definition code (a : ascii) : N := N_of_ascii a.

Fixpoint bytes (s : string) : list N :=
  match s with
  | EmptyString => []
  | String a r => code a :: bytes r
  end.

(** Literals of this file are written in UTF-8, as the source is; [decode]
    turns the bytes of a literal into code units (one-, two- and three-byte
    sequences: the literals stay within the Basic Multilingual Plane). *)
Fixpoint decode (bs : list N) : str :=
  match bs with
  | [] => []
  | b :: r =>
      if (b <? 0x80)%N then b :: decode r
      else if (b <? 0xE0)%N then
        match r with
        | b2 :: r' => ((b - 0xC0) * 64 + (b2 - 0x80))%N :: decode r'
        | [] => []
        end
      else
        match r with
        | b2 :: b3 :: r' =>
            ((b - 0xE0) * 4096 + (b2 - 0x80) * 64 + (b3 - 0x80))%N :: decode r'
        | _ => []
        end
  end.

Definition utf16 (s : string) : str := decode (bytes s).
Arguments utf16 s%_string.

Fixpoint eqb (a b : str) : bool :=
  match a, b with
  | [], [] => true
  | x :: a', y :: b' => (x =? y)%N && eqb a' b'
  | _, _ => false
  end.

(** [s.length === 0] *)
Definition empty (s : str) : bool :=
  match s with [] => true | _ :: _ => false end.

(** [s.substring(a, b)] for non-negative integers: both ends are clamped to
    the length and swapped when out of order. *)
Definition substring (s : str) (a b : nat) : str :=
  let a' := Nat.min a (length s) in
  let b' := Nat.min b (length s) in
  let lo := Nat.min a' b' in
  let hi := Nat.max a' b' in
  firstn (hi - lo) (skipn lo s).

(** [s[i]] as a one-unit string; every use in the engine has [i] within
    the string. *)
Definition index (s : str) (i : nat) : str := firstn 1 (skipn i s).

Definition range (lo hi : ascii) (c : N) : bool :=
  ((code lo <=? c) && (c <=? code hi))%N.
Arguments range (lo hi)%_char c%_N.
Arguments code a%_char.

Definition oneOf (set : str) (c : N) : bool := existsb (N.eqb c) set.

(** White space and line terminators: what [trim] strips and what [\s]
    matches. *)
Definition isWhiteSpace (c : N) : bool :=
  oneOf [0x9; 0xA; 0xB; 0xC; 0xD; 0x20; 0xA0; 0x1680; 0x2028; 0x2029;
         0x202F; 0x205F; 0x3000; 0xFEFF]%N c
  || ((0x2000 <=? c) && (c <=? 0x200A))%N.

Fixpoint trimStart (s : str) : str :=
  match s with
  | c :: r => if isWhiteSpace c then trimStart r else s
  | [] => []
  end.

Definition trimEnd (s : str) : str := rev (trimStart (rev s)).

Definition trim (s : str) : str := trimEnd (trimStart s).

(** *** Code points

    [toLowerCase] works on the code points of the string: a high
    surrogate followed by a low surrogate is one code point, every other
    code unit is one on its own. *)
Definition isHigh (u : N) : bool := ((0xD800 <=? u) && (u <=? 0xDBFF))%N.

Definition isLow (u : N) : bool := ((0xDC00 <=? u) && (u <=? 0xDFFF))%N.

Inductive point :=
| Unit (u : N)
| Pair (h l : N).

Fixpoint points (s : str) : list point :=
  match s with
  | [] => []
  | u :: r =>
      match r with
      | l :: r' =>
          if isHigh u && isLow l then Pair u l :: points r'
          else Unit u :: points r
      | [] => [Unit u]
      end
  end.

Definition units (p : point) : str :=
  match p with
  | Unit u => [u]
  | Pair h l => [h; l]
  end.

Definition fromPoints (ps : list point) : str := flat_map units ps.

Definition scalar (p : point) : N :=
  match p with
  | Unit u => u
  | Pair h l => (0x10000 + (h - 0xD800) * 0x400 + (l - 0xDC00))%N
  end.

Definition ofScalar (c : N) : point :=
  if (c <? 0x10000)%N then Unit c
  else Pair (0xD800 + (c - 0x10000) / 0x400)%N
            (0xDC00 + (c - 0x10000) mod 0x400)%N.

(** *** Case data of the Unicode Character Database (version 14.0)

    [lowerRuns]: the lower-case mappings that give one code point, in
    ascending order.  An entry [(lo, hi, step, target)] maps [lo] to
    [target], [lo + step] to [target + step], and so on up to [hi].
    [casedRanges]: the code points with the property Cased and without
    the property Case_Ignorable.  [caseIgnorableRanges]: the code points
    with the property Case_Ignorable.  Both in ascending order. *)
Definition lowerRuns : list (N * N * N * N) := [
    (0x41, 0x5A, 1, 0x61); (0xC0, 0xD6, 1, 0xE0); (0xD8, 0xDE, 1, 0xF8);
    (0x100, 0x12E, 2, 0x101); (0x132, 0x136, 2, 0x133); (0x139, 0x147, 2, 0x13A);
    (0x14A, 0x176, 2, 0x14B); (0x178, 0x178, 1, 0xFF); (0x179, 0x17D, 2, 0x17A);
    (0x181, 0x181, 1, 0x253); (0x182, 0x184, 2, 0x183); (0x186, 0x186, 1, 0x254);
    (0x187, 0x187, 1, 0x188); (0x189, 0x18A, 1, 0x256); (0x18B, 0x18B, 1, 0x18C);
    (0x18E, 0x18E, 1, 0x1DD); (0x18F, 0x18F, 1, 0x259); (0x190, 0x190, 1, 0x25B);
    (0x191, 0x191, 1, 0x192); (0x193, 0x193, 1, 0x260); (0x194, 0x194, 1, 0x263);
    (0x196, 0x196, 1, 0x269); (0x197, 0x197, 1, 0x268); (0x198, 0x198, 1, 0x199);
    (0x19C, 0x19C, 1, 0x26F); (0x19D, 0x19D, 1, 0x272); (0x19F, 0x19F, 1, 0x275);
    (0x1A0, 0x1A4, 2, 0x1A1); (0x1A6, 0x1A6, 1, 0x280); (0x1A7, 0x1A7, 1, 0x1A8);
    (0x1A9, 0x1A9, 1, 0x283); (0x1AC, 0x1AC, 1, 0x1AD); (0x1AE, 0x1AE, 1, 0x288);
    (0x1AF, 0x1AF, 1, 0x1B0); (0x1B1, 0x1B2, 1, 0x28A); (0x1B3, 0x1B5, 2, 0x1B4);
    (0x1B7, 0x1B7, 1, 0x292); (0x1B8, 0x1B8, 1, 0x1B9); (0x1BC, 0x1BC, 1, 0x1BD);
    (0x1C4, 0x1C4, 1, 0x1C6); (0x1C5, 0x1C5, 1, 0x1C6); (0x1C7, 0x1C7, 1, 0x1C9);
    (0x1C8, 0x1C8, 1, 0x1C9); (0x1CA, 0x1CA, 1, 0x1CC); (0x1CB, 0x1DB, 2, 0x1CC);
    (0x1DE, 0x1EE, 2, 0x1DF); (0x1F1, 0x1F1, 1, 0x1F3); (0x1F2, 0x1F4, 2, 0x1F3);
    (0x1F6, 0x1F6, 1, 0x195); (0x1F7, 0x1F7, 1, 0x1BF); (0x1F8, 0x21E, 2, 0x1F9);
    (0x220, 0x220, 1, 0x19E); (0x222, 0x232, 2, 0x223); (0x23A, 0x23A, 1, 0x2C65);
    (0x23B, 0x23B, 1, 0x23C); (0x23D, 0x23D, 1, 0x19A); (0x23E, 0x23E, 1, 0x2C66);
    (0x241, 0x241, 1, 0x242); (0x243, 0x243, 1, 0x180); (0x244, 0x244, 1, 0x289);
    (0x245, 0x245, 1, 0x28C); (0x246, 0x24E, 2, 0x247); (0x370, 0x372, 2, 0x371);
    (0x376, 0x376, 1, 0x377); (0x37F, 0x37F, 1, 0x3F3); (0x386, 0x386, 1, 0x3AC);
    (0x388, 0x38A, 1, 0x3AD); (0x38C, 0x38C, 1, 0x3CC); (0x38E, 0x38F, 1, 0x3CD);
    (0x391, 0x3A1, 1, 0x3B1); (0x3A3, 0x3AB, 1, 0x3C3); (0x3CF, 0x3CF, 1, 0x3D7);
    (0x3D8, 0x3EE, 2, 0x3D9); (0x3F4, 0x3F4, 1, 0x3B8); (0x3F7, 0x3F7, 1, 0x3F8);
    (0x3F9, 0x3F9, 1, 0x3F2); (0x3FA, 0x3FA, 1, 0x3FB); (0x3FD, 0x3FF, 1, 0x37B);
    (0x400, 0x40F, 1, 0x450); (0x410, 0x42F, 1, 0x430); (0x460, 0x480, 2, 0x461);
    (0x48A, 0x4BE, 2, 0x48B); (0x4C0, 0x4C0, 1, 0x4CF); (0x4C1, 0x4CD, 2, 0x4C2);
    (0x4D0, 0x52E, 2, 0x4D1); (0x531, 0x556, 1, 0x561); (0x10A0, 0x10C5, 1, 0x2D00);
    (0x10C7, 0x10C7, 1, 0x2D27); (0x10CD, 0x10CD, 1, 0x2D2D); (0x13A0, 0x13EF, 1, 0xAB70);
    (0x13F0, 0x13F5, 1, 0x13F8); (0x1C90, 0x1CBA, 1, 0x10D0); (0x1CBD, 0x1CBF, 1, 0x10FD);
    (0x1E00, 0x1E94, 2, 0x1E01); (0x1E9E, 0x1E9E, 1, 0xDF); (0x1EA0, 0x1EFE, 2, 0x1EA1);
    (0x1F08, 0x1F0F, 1, 0x1F00); (0x1F18, 0x1F1D, 1, 0x1F10); (0x1F28, 0x1F2F, 1, 0x1F20);
    (0x1F38, 0x1F3F, 1, 0x1F30); (0x1F48, 0x1F4D, 1, 0x1F40); (0x1F59, 0x1F5F, 2, 0x1F51);
    (0x1F68, 0x1F6F, 1, 0x1F60); (0x1F88, 0x1F8F, 1, 0x1F80); (0x1F98, 0x1F9F, 1, 0x1F90);
    (0x1FA8, 0x1FAF, 1, 0x1FA0); (0x1FB8, 0x1FB9, 1, 0x1FB0); (0x1FBA, 0x1FBB, 1, 0x1F70);
    (0x1FBC, 0x1FBC, 1, 0x1FB3); (0x1FC8, 0x1FCB, 1, 0x1F72); (0x1FCC, 0x1FCC, 1, 0x1FC3);
    (0x1FD8, 0x1FD9, 1, 0x1FD0); (0x1FDA, 0x1FDB, 1, 0x1F76); (0x1FE8, 0x1FE9, 1, 0x1FE0);
    (0x1FEA, 0x1FEB, 1, 0x1F7A); (0x1FEC, 0x1FEC, 1, 0x1FE5); (0x1FF8, 0x1FF9, 1, 0x1F78);
    (0x1FFA, 0x1FFB, 1, 0x1F7C); (0x1FFC, 0x1FFC, 1, 0x1FF3); (0x2126, 0x2126, 1, 0x3C9);
    (0x212A, 0x212A, 1, 0x6B); (0x212B, 0x212B, 1, 0xE5); (0x2132, 0x2132, 1, 0x214E);
    (0x2160, 0x216F, 1, 0x2170); (0x2183, 0x2183, 1, 0x2184); (0x24B6, 0x24CF, 1, 0x24D0);
    (0x2C00, 0x2C2F, 1, 0x2C30); (0x2C60, 0x2C60, 1, 0x2C61); (0x2C62, 0x2C62, 1, 0x26B);
    (0x2C63, 0x2C63, 1, 0x1D7D); (0x2C64, 0x2C64, 1, 0x27D); (0x2C67, 0x2C6B, 2, 0x2C68);
    (0x2C6D, 0x2C6D, 1, 0x251); (0x2C6E, 0x2C6E, 1, 0x271); (0x2C6F, 0x2C6F, 1, 0x250);
    (0x2C70, 0x2C70, 1, 0x252); (0x2C72, 0x2C72, 1, 0x2C73); (0x2C75, 0x2C75, 1, 0x2C76);
    (0x2C7E, 0x2C7F, 1, 0x23F); (0x2C80, 0x2CE2, 2, 0x2C81); (0x2CEB, 0x2CED, 2, 0x2CEC);
    (0x2CF2, 0x2CF2, 1, 0x2CF3); (0xA640, 0xA66C, 2, 0xA641); (0xA680, 0xA69A, 2, 0xA681);
    (0xA722, 0xA72E, 2, 0xA723); (0xA732, 0xA76E, 2, 0xA733); (0xA779, 0xA77B, 2, 0xA77A);
    (0xA77D, 0xA77D, 1, 0x1D79); (0xA77E, 0xA786, 2, 0xA77F); (0xA78B, 0xA78B, 1, 0xA78C);
    (0xA78D, 0xA78D, 1, 0x265); (0xA790, 0xA792, 2, 0xA791); (0xA796, 0xA7A8, 2, 0xA797);
    (0xA7AA, 0xA7AA, 1, 0x266); (0xA7AB, 0xA7AB, 1, 0x25C); (0xA7AC, 0xA7AC, 1, 0x261);
    (0xA7AD, 0xA7AD, 1, 0x26C); (0xA7AE, 0xA7AE, 1, 0x26A); (0xA7B0, 0xA7B0, 1, 0x29E);
    (0xA7B1, 0xA7B1, 1, 0x287); (0xA7B2, 0xA7B2, 1, 0x29D); (0xA7B3, 0xA7B3, 1, 0xAB53);
    (0xA7B4, 0xA7C2, 2, 0xA7B5); (0xA7C4, 0xA7C4, 1, 0xA794); (0xA7C5, 0xA7C5, 1, 0x282);
    (0xA7C6, 0xA7C6, 1, 0x1D8E); (0xA7C7, 0xA7C9, 2, 0xA7C8); (0xA7D0, 0xA7D0, 1, 0xA7D1);
    (0xA7D6, 0xA7D8, 2, 0xA7D7); (0xA7F5, 0xA7F5, 1, 0xA7F6); (0xFF21, 0xFF3A, 1, 0xFF41);
    (0x10400, 0x10427, 1, 0x10428); (0x104B0, 0x104D3, 1, 0x104D8); (0x10570, 0x1057A, 1, 0x10597);
    (0x1057C, 0x1058A, 1, 0x105A3); (0x1058C, 0x10592, 1, 0x105B3); (0x10594, 0x10595, 1, 0x105BB);
    (0x10C80, 0x10CB2, 1, 0x10CC0); (0x118A0, 0x118BF, 1, 0x118C0); (0x16E40, 0x16E5F, 1, 0x16E60);
    (0x1E900, 0x1E921, 1, 0x1E922)
  ]%N.

Definition casedRanges : list (N * N) := [
    (0x41, 0x5A); (0x61, 0x7A); (0xAA, 0xAA); (0xB5, 0xB5);
    (0xBA, 0xBA); (0xC0, 0xD6); (0xD8, 0xF6); (0xF8, 0x1BA);
    (0x1BC, 0x1BF); (0x1C4, 0x293); (0x295, 0x2AF); (0x370, 0x373);
    (0x376, 0x377); (0x37B, 0x37D); (0x37F, 0x37F); (0x386, 0x386);
    (0x388, 0x38A); (0x38C, 0x38C); (0x38E, 0x3A1); (0x3A3, 0x3F5);
    (0x3F7, 0x481); (0x48A, 0x52F); (0x531, 0x556); (0x560, 0x588);
    (0x10A0, 0x10C5); (0x10C7, 0x10C7); (0x10CD, 0x10CD); (0x10D0, 0x10FA);
    (0x10FD, 0x10FF); (0x13A0, 0x13F5); (0x13F8, 0x13FD); (0x1C80, 0x1C88);
    (0x1C90, 0x1CBA); (0x1CBD, 0x1CBF); (0x1D00, 0x1D2B); (0x1D6B, 0x1D77);
    (0x1D79, 0x1D9A); (0x1E00, 0x1F15); (0x1F18, 0x1F1D); (0x1F20, 0x1F45);
    (0x1F48, 0x1F4D); (0x1F50, 0x1F57); (0x1F59, 0x1F59); (0x1F5B, 0x1F5B);
    (0x1F5D, 0x1F5D); (0x1F5F, 0x1F7D); (0x1F80, 0x1FB4); (0x1FB6, 0x1FBC);
    (0x1FBE, 0x1FBE); (0x1FC2, 0x1FC4); (0x1FC6, 0x1FCC); (0x1FD0, 0x1FD3);
    (0x1FD6, 0x1FDB); (0x1FE0, 0x1FEC); (0x1FF2, 0x1FF4); (0x1FF6, 0x1FFC);
    (0x2102, 0x2102); (0x2107, 0x2107); (0x210A, 0x2113); (0x2115, 0x2115);
    (0x2119, 0x211D); (0x2124, 0x2124); (0x2126, 0x2126); (0x2128, 0x2128);
    (0x212A, 0x212D); (0x212F, 0x2134); (0x2139, 0x2139); (0x213C, 0x213F);
    (0x2145, 0x2149); (0x214E, 0x214E); (0x2160, 0x217F); (0x2183, 0x2184);
    (0x24B6, 0x24E9); (0x2C00, 0x2C7B); (0x2C7E, 0x2CE4); (0x2CEB, 0x2CEE);
    (0x2CF2, 0x2CF3); (0x2D00, 0x2D25); (0x2D27, 0x2D27); (0x2D2D, 0x2D2D);
    (0xA640, 0xA66D); (0xA680, 0xA69B); (0xA722, 0xA76F); (0xA771, 0xA787);
    (0xA78B, 0xA78E); (0xA790, 0xA7CA); (0xA7D0, 0xA7D1); (0xA7D3, 0xA7D3);
    (0xA7D5, 0xA7D9); (0xA7F5, 0xA7F6); (0xA7FA, 0xA7FA); (0xAB30, 0xAB5A);
    (0xAB60, 0xAB68); (0xAB70, 0xABBF); (0xFB00, 0xFB06); (0xFB13, 0xFB17);
    (0xFF21, 0xFF3A); (0xFF41, 0xFF5A); (0x10400, 0x1044F); (0x104B0, 0x104D3);
    (0x104D8, 0x104FB); (0x10570, 0x1057A); (0x1057C, 0x1058A); (0x1058C, 0x10592);
    (0x10594, 0x10595); (0x10597, 0x105A1); (0x105A3, 0x105B1); (0x105B3, 0x105B9);
    (0x105BB, 0x105BC); (0x10C80, 0x10CB2); (0x10CC0, 0x10CF2); (0x118A0, 0x118DF);
    (0x16E40, 0x16E7F); (0x1D400, 0x1D454); (0x1D456, 0x1D49C); (0x1D49E, 0x1D49F);
    (0x1D4A2, 0x1D4A2); (0x1D4A5, 0x1D4A6); (0x1D4A9, 0x1D4AC); (0x1D4AE, 0x1D4B9);
    (0x1D4BB, 0x1D4BB); (0x1D4BD, 0x1D4C3); (0x1D4C5, 0x1D505); (0x1D507, 0x1D50A);
    (0x1D50D, 0x1D514); (0x1D516, 0x1D51C); (0x1D51E, 0x1D539); (0x1D53B, 0x1D53E);
    (0x1D540, 0x1D544); (0x1D546, 0x1D546); (0x1D54A, 0x1D550); (0x1D552, 0x1D6A5);
    (0x1D6A8, 0x1D6C0); (0x1D6C2, 0x1D6DA); (0x1D6DC, 0x1D6FA); (0x1D6FC, 0x1D714);
    (0x1D716, 0x1D734); (0x1D736, 0x1D74E); (0x1D750, 0x1D76E); (0x1D770, 0x1D788);
    (0x1D78A, 0x1D7A8); (0x1D7AA, 0x1D7C2); (0x1D7C4, 0x1D7CB); (0x1DF00, 0x1DF09);
    (0x1DF0B, 0x1DF1E); (0x1E900, 0x1E943); (0x1F130, 0x1F149); (0x1F150, 0x1F169);
    (0x1F170, 0x1F189)
  ]%N.

Definition caseIgnorableRanges : list (N * N) := [
    (0x27, 0x27); (0x2E, 0x2E); (0x3A, 0x3A); (0x5E, 0x5E);
    (0x60, 0x60); (0xA8, 0xA8); (0xAD, 0xAD); (0xAF, 0xAF);
    (0xB4, 0xB4); (0xB7, 0xB8); (0x2B0, 0x36F); (0x374, 0x375);
    (0x37A, 0x37A); (0x384, 0x385); (0x387, 0x387); (0x483, 0x489);
    (0x559, 0x559); (0x55F, 0x55F); (0x591, 0x5BD); (0x5BF, 0x5BF);
    (0x5C1, 0x5C2); (0x5C4, 0x5C5); (0x5C7, 0x5C7); (0x5F4, 0x5F4);
    (0x600, 0x605); (0x610, 0x61A); (0x61C, 0x61C); (0x640, 0x640);
    (0x64B, 0x65F); (0x670, 0x670); (0x6D6, 0x6DD); (0x6DF, 0x6E8);
    (0x6EA, 0x6ED); (0x70F, 0x70F); (0x711, 0x711); (0x730, 0x74A);
    (0x7A6, 0x7B0); (0x7EB, 0x7F5); (0x7FA, 0x7FA); (0x7FD, 0x7FD);
    (0x816, 0x82D); (0x859, 0x85B); (0x888, 0x888); (0x890, 0x891);
    (0x898, 0x89F); (0x8C9, 0x902); (0x93A, 0x93A); (0x93C, 0x93C);
    (0x941, 0x948); (0x94D, 0x94D); (0x951, 0x957); (0x962, 0x963);
    (0x971, 0x971); (0x981, 0x981); (0x9BC, 0x9BC); (0x9C1, 0x9C4);
    (0x9CD, 0x9CD); (0x9E2, 0x9E3); (0x9FE, 0x9FE); (0xA01, 0xA02);
    (0xA3C, 0xA3C); (0xA41, 0xA42); (0xA47, 0xA48); (0xA4B, 0xA4D);
    (0xA51, 0xA51); (0xA70, 0xA71); (0xA75, 0xA75); (0xA81, 0xA82);
    (0xABC, 0xABC); (0xAC1, 0xAC5); (0xAC7, 0xAC8); (0xACD, 0xACD);
    (0xAE2, 0xAE3); (0xAFA, 0xAFF); (0xB01, 0xB01); (0xB3C, 0xB3C);
    (0xB3F, 0xB3F); (0xB41, 0xB44); (0xB4D, 0xB4D); (0xB55, 0xB56);
    (0xB62, 0xB63); (0xB82, 0xB82); (0xBC0, 0xBC0); (0xBCD, 0xBCD);
    (0xC00, 0xC00); (0xC04, 0xC04); (0xC3C, 0xC3C); (0xC3E, 0xC40);
    (0xC46, 0xC48); (0xC4A, 0xC4D); (0xC55, 0xC56); (0xC62, 0xC63);
    (0xC81, 0xC81); (0xCBC, 0xCBC); (0xCBF, 0xCBF); (0xCC6, 0xCC6);
    (0xCCC, 0xCCD); (0xCE2, 0xCE3); (0xD00, 0xD01); (0xD3B, 0xD3C);
    (0xD41, 0xD44); (0xD4D, 0xD4D); (0xD62, 0xD63); (0xD81, 0xD81);
    (0xDCA, 0xDCA); (0xDD2, 0xDD4); (0xDD6, 0xDD6); (0xE31, 0xE31);
    (0xE34, 0xE3A); (0xE46, 0xE4E); (0xEB1, 0xEB1); (0xEB4, 0xEBC);
    (0xEC6, 0xEC6); (0xEC8, 0xECD); (0xF18, 0xF19); (0xF35, 0xF35);
    (0xF37, 0xF37); (0xF39, 0xF39); (0xF71, 0xF7E); (0xF80, 0xF84);
    (0xF86, 0xF87); (0xF8D, 0xF97); (0xF99, 0xFBC); (0xFC6, 0xFC6);
    (0x102D, 0x1030); (0x1032, 0x1037); (0x1039, 0x103A); (0x103D, 0x103E);
    (0x1058, 0x1059); (0x105E, 0x1060); (0x1071, 0x1074); (0x1082, 0x1082);
    (0x1085, 0x1086); (0x108D, 0x108D); (0x109D, 0x109D); (0x10FC, 0x10FC);
    (0x135D, 0x135F); (0x1712, 0x1714); (0x1732, 0x1733); (0x1752, 0x1753);
    (0x1772, 0x1773); (0x17B4, 0x17B5); (0x17B7, 0x17BD); (0x17C6, 0x17C6);
    (0x17C9, 0x17D3); (0x17D7, 0x17D7); (0x17DD, 0x17DD); (0x180B, 0x180F);
    (0x1843, 0x1843); (0x1885, 0x1886); (0x18A9, 0x18A9); (0x1920, 0x1922);
    (0x1927, 0x1928); (0x1932, 0x1932); (0x1939, 0x193B); (0x1A17, 0x1A18);
    (0x1A1B, 0x1A1B); (0x1A56, 0x1A56); (0x1A58, 0x1A5E); (0x1A60, 0x1A60);
    (0x1A62, 0x1A62); (0x1A65, 0x1A6C); (0x1A73, 0x1A7C); (0x1A7F, 0x1A7F);
    (0x1AA7, 0x1AA7); (0x1AB0, 0x1ACE); (0x1B00, 0x1B03); (0x1B34, 0x1B34);
    (0x1B36, 0x1B3A); (0x1B3C, 0x1B3C); (0x1B42, 0x1B42); (0x1B6B, 0x1B73);
    (0x1B80, 0x1B81); (0x1BA2, 0x1BA5); (0x1BA8, 0x1BA9); (0x1BAB, 0x1BAD);
    (0x1BE6, 0x1BE6); (0x1BE8, 0x1BE9); (0x1BED, 0x1BED); (0x1BEF, 0x1BF1);
    (0x1C2C, 0x1C33); (0x1C36, 0x1C37); (0x1C78, 0x1C7D); (0x1CD0, 0x1CD2);
    (0x1CD4, 0x1CE0); (0x1CE2, 0x1CE8); (0x1CED, 0x1CED); (0x1CF4, 0x1CF4);
    (0x1CF8, 0x1CF9); (0x1D2C, 0x1D6A); (0x1D78, 0x1D78); (0x1D9B, 0x1DFF);
    (0x1FBD, 0x1FBD); (0x1FBF, 0x1FC1); (0x1FCD, 0x1FCF); (0x1FDD, 0x1FDF);
    (0x1FED, 0x1FEF); (0x1FFD, 0x1FFE); (0x200B, 0x200F); (0x2018, 0x2019);
    (0x2024, 0x2024); (0x2027, 0x2027); (0x202A, 0x202E); (0x2060, 0x2064);
    (0x2066, 0x206F); (0x2071, 0x2071); (0x207F, 0x207F); (0x2090, 0x209C);
    (0x20D0, 0x20F0); (0x2C7C, 0x2C7D); (0x2CEF, 0x2CF1); (0x2D6F, 0x2D6F);
    (0x2D7F, 0x2D7F); (0x2DE0, 0x2DFF); (0x2E2F, 0x2E2F); (0x3005, 0x3005);
    (0x302A, 0x302D); (0x3031, 0x3035); (0x303B, 0x303B); (0x3099, 0x309E);
    (0x30FC, 0x30FE); (0xA015, 0xA015); (0xA4F8, 0xA4FD); (0xA60C, 0xA60C);
    (0xA66F, 0xA672); (0xA674, 0xA67D); (0xA67F, 0xA67F); (0xA69C, 0xA69F);
    (0xA6F0, 0xA6F1); (0xA700, 0xA721); (0xA770, 0xA770); (0xA788, 0xA78A);
    (0xA7F2, 0xA7F4); (0xA7F8, 0xA7F9); (0xA802, 0xA802); (0xA806, 0xA806);
    (0xA80B, 0xA80B); (0xA825, 0xA826); (0xA82C, 0xA82C); (0xA8C4, 0xA8C5);
    (0xA8E0, 0xA8F1); (0xA8FF, 0xA8FF); (0xA926, 0xA92D); (0xA947, 0xA951);
    (0xA980, 0xA982); (0xA9B3, 0xA9B3); (0xA9B6, 0xA9B9); (0xA9BC, 0xA9BD);
    (0xA9CF, 0xA9CF); (0xA9E5, 0xA9E6); (0xAA29, 0xAA2E); (0xAA31, 0xAA32);
    (0xAA35, 0xAA36); (0xAA43, 0xAA43); (0xAA4C, 0xAA4C); (0xAA70, 0xAA70);
    (0xAA7C, 0xAA7C); (0xAAB0, 0xAAB0); (0xAAB2, 0xAAB4); (0xAAB7, 0xAAB8);
    (0xAABE, 0xAABF); (0xAAC1, 0xAAC1); (0xAADD, 0xAADD); (0xAAEC, 0xAAED);
    (0xAAF3, 0xAAF4); (0xAAF6, 0xAAF6); (0xAB5B, 0xAB5F); (0xAB69, 0xAB6B);
    (0xABE5, 0xABE5); (0xABE8, 0xABE8); (0xABED, 0xABED); (0xFB1E, 0xFB1E);
    (0xFBB2, 0xFBC2); (0xFE00, 0xFE0F); (0xFE13, 0xFE13); (0xFE20, 0xFE2F);
    (0xFE52, 0xFE52); (0xFE55, 0xFE55); (0xFEFF, 0xFEFF); (0xFF07, 0xFF07);
    (0xFF0E, 0xFF0E); (0xFF1A, 0xFF1A); (0xFF3E, 0xFF3E); (0xFF40, 0xFF40);
    (0xFF70, 0xFF70); (0xFF9E, 0xFF9F); (0xFFE3, 0xFFE3); (0xFFF9, 0xFFFB);
    (0x101FD, 0x101FD); (0x102E0, 0x102E0); (0x10376, 0x1037A); (0x10780, 0x10785);
    (0x10787, 0x107B0); (0x107B2, 0x107BA); (0x10A01, 0x10A03); (0x10A05, 0x10A06);
    (0x10A0C, 0x10A0F); (0x10A38, 0x10A3A); (0x10A3F, 0x10A3F); (0x10AE5, 0x10AE6);
    (0x10D24, 0x10D27); (0x10EAB, 0x10EAC); (0x10F46, 0x10F50); (0x10F82, 0x10F85);
    (0x11001, 0x11001); (0x11038, 0x11046); (0x11070, 0x11070); (0x11073, 0x11074);
    (0x1107F, 0x11081); (0x110B3, 0x110B6); (0x110B9, 0x110BA); (0x110BD, 0x110BD);
    (0x110C2, 0x110C2); (0x110CD, 0x110CD); (0x11100, 0x11102); (0x11127, 0x1112B);
    (0x1112D, 0x11134); (0x11173, 0x11173); (0x11180, 0x11181); (0x111B6, 0x111BE);
    (0x111C9, 0x111CC); (0x111CF, 0x111CF); (0x1122F, 0x11231); (0x11234, 0x11234);
    (0x11236, 0x11237); (0x1123E, 0x1123E); (0x112DF, 0x112DF); (0x112E3, 0x112EA);
    (0x11300, 0x11301); (0x1133B, 0x1133C); (0x11340, 0x11340); (0x11366, 0x1136C);
    (0x11370, 0x11374); (0x11438, 0x1143F); (0x11442, 0x11444); (0x11446, 0x11446);
    (0x1145E, 0x1145E); (0x114B3, 0x114B8); (0x114BA, 0x114BA); (0x114BF, 0x114C0);
    (0x114C2, 0x114C3); (0x115B2, 0x115B5); (0x115BC, 0x115BD); (0x115BF, 0x115C0);
    (0x115DC, 0x115DD); (0x11633, 0x1163A); (0x1163D, 0x1163D); (0x1163F, 0x11640);
    (0x116AB, 0x116AB); (0x116AD, 0x116AD); (0x116B0, 0x116B5); (0x116B7, 0x116B7);
    (0x1171D, 0x1171F); (0x11722, 0x11725); (0x11727, 0x1172B); (0x1182F, 0x11837);
    (0x11839, 0x1183A); (0x1193B, 0x1193C); (0x1193E, 0x1193E); (0x11943, 0x11943);
    (0x119D4, 0x119D7); (0x119DA, 0x119DB); (0x119E0, 0x119E0); (0x11A01, 0x11A0A);
    (0x11A33, 0x11A38); (0x11A3B, 0x11A3E); (0x11A47, 0x11A47); (0x11A51, 0x11A56);
    (0x11A59, 0x11A5B); (0x11A8A, 0x11A96); (0x11A98, 0x11A99); (0x11C30, 0x11C36);
    (0x11C38, 0x11C3D); (0x11C3F, 0x11C3F); (0x11C92, 0x11CA7); (0x11CAA, 0x11CB0);
    (0x11CB2, 0x11CB3); (0x11CB5, 0x11CB6); (0x11D31, 0x11D36); (0x11D3A, 0x11D3A);
    (0x11D3C, 0x11D3D); (0x11D3F, 0x11D45); (0x11D47, 0x11D47); (0x11D90, 0x11D91);
    (0x11D95, 0x11D95); (0x11D97, 0x11D97); (0x11EF3, 0x11EF4); (0x13430, 0x13438);
    (0x16AF0, 0x16AF4); (0x16B30, 0x16B36); (0x16B40, 0x16B43); (0x16F4F, 0x16F4F);
    (0x16F8F, 0x16F9F); (0x16FE0, 0x16FE1); (0x16FE3, 0x16FE4); (0x1AFF0, 0x1AFF3);
    (0x1AFF5, 0x1AFFB); (0x1AFFD, 0x1AFFE); (0x1BC9D, 0x1BC9E); (0x1BCA0, 0x1BCA3);
    (0x1CF00, 0x1CF2D); (0x1CF30, 0x1CF46); (0x1D167, 0x1D169); (0x1D173, 0x1D182);
    (0x1D185, 0x1D18B); (0x1D1AA, 0x1D1AD); (0x1D242, 0x1D244); (0x1DA00, 0x1DA36);
    (0x1DA3B, 0x1DA6C); (0x1DA75, 0x1DA75); (0x1DA84, 0x1DA84); (0x1DA9B, 0x1DA9F);
    (0x1DAA1, 0x1DAAF); (0x1E000, 0x1E006); (0x1E008, 0x1E018); (0x1E01B, 0x1E021);
    (0x1E023, 0x1E024); (0x1E026, 0x1E02A); (0x1E130, 0x1E13D); (0x1E2AE, 0x1E2AE);
    (0x1E2EC, 0x1E2EF); (0x1E8D0, 0x1E8D6); (0x1E944, 0x1E94B); (0x1F3FB, 0x1F3FF);
    (0xE0001, 0xE0001); (0xE0020, 0xE007F); (0xE0100, 0xE01EF)
  ]%N.

Fixpoint lowerIn (runs : list (N * N * N * N)) (c : N) : option N :=
  match runs with
  | [] => None
  | (lo, hi, step, target) :: r =>
      if (c <? lo)%N then None
      else if ((c <=? hi) && ((c - lo) mod step =? 0))%N
           then Some (target + (c - lo))%N
           else lowerIn r c
  end.

Fixpoint inRanges (ranges : list (N * N)) (c : N) : bool :=
  match ranges with
  | [] => false
  | (lo, hi) :: r =>
      if (c <? lo)%N then false
      else if (c <=? hi)%N then true
      else inRanges r c
  end.

Arguments lowerIn : simpl never.
Arguments inRanges : simpl never.

Definition cased (p : point) : bool := inRanges casedRanges (scalar p).

Definition caseIgnorable (p : point) : bool :=
  inRanges caseIgnorableRanges (scalar p).

(** The lower-case form of one code point, whatever surrounds it:
    U+0130 is the one code point whose form has two code points. *)
Definition lowerPoint (p : point) : list point :=
  if (scalar p =? 0x130)%N then [Unit 0x69%N; Unit 0x307%N]
  else match lowerIn lowerRuns (scalar p) with
       | Some c => [ofScalar c]
       | None => [p]
       end.

(** Whether a cased letter follows, case-ignorable code points apart. *)
Fixpoint followedByCased (ps : list point) : bool :=
  match ps with
  | [] => false
  | p :: r => if caseIgnorable p then followedByCased r else cased p
  end.

(** The conversion from left to right.  [afterCased] tells whether a
    cased letter precedes, case-ignorable code points apart.  The capital
    sigma U+03A3 becomes the final sigma U+03C2 after a cased letter when
    none follows, and the small sigma U+03C3 elsewhere. *)
Fixpoint lowerPoints (afterCased : bool) (ps : list point) : list point :=
  match ps with
  | [] => []
  | p :: r =>
      (if (scalar p =? 0x3A3)%N
       then [Unit (if afterCased && negb (followedByCased r)
                   then 0x3C2 else 0x3C3)%N]
       else lowerPoint p)
      ++ lowerPoints (if caseIgnorable p then afterCased else cased p) r
  end.

(** [s.toLowerCase()]: the default case conversion of Unicode, without
    locale. *)
Definition toLowerCase (s : str) : str :=
  fromPoints (lowerPoints false (points s)).

(** [\w] of a regular expression without flags. *)
Definition isWordChar (c : N) : bool :=
  range "a" "z" c || range "A" "Z" c || range "0" "9" c || (c =? code "_")%N.

(** [/[a-zA-Z]/.test(s)] *)
Definition hasLetter (s : str) : bool :=
  existsb (fun c => range "a" "z" c || range "A" "Z" c) s.

Fixpoint startsWith (s w : str) {struct w} : bool :=
  match w with
  | [] => true
  | y :: w' =>
      match s with
      | x :: s' => (x =? y)%N && startsWith s' w'
      | [] => false
      end
  end.

(** [s.lastIndexOf(w)]: the greatest position at which [w] occurs in [s],
    [-1] when there is none.  [from] scans downwards from position [i]. *)
Fixpoint lastIndexOfFrom (s w : str) (i : nat) : Z :=
  if startsWith (skipn i s) w then Z.of_nat i
  else match i with
       | O => (-1)%Z
       | S j => lastIndexOfFrom s w j
       end.

Definition lastIndexOf (s w : str) : Z :=
  if length w <=? length s then lastIndexOfFrom s w (length s - length w)
  else (-1)%Z.

(** The names every object inherits from [Object.prototype].  Reading one
    of them off a table object yields a function or an object, not text. *)
Definition objectPrototypeNames : list str :=
  map utf16
    ["constructor"; "__proto__"; "hasOwnProperty"; "isPrototypeOf";
     "propertyIsEnumerable"; "toString"; "toLocaleString"; "valueOf";
     "__defineGetter__"; "__defineSetter__"; "__lookupGetter__";
     "__lookupSetter__"]%string.

Definition inherited (k : str) : bool := existsb (eqb k) objectPrototypeNames.

(** A record used as a map: the entries of an object literal, in source
    order. *)
Definition table := list (str * str).

Definition entries (l : list (string * string)) : table :=
  map (fun e => (utf16 (fst e), utf16 (snd e))) l.

(** [t[k]] among the table's own entries; a later entry for the same key
    replaces an earlier one, as in an object literal or a spread. *)
Fixpoint get (t : table) (k : str) : option str :=
  match t with
  | [] => None
  | (k', v) :: r =>
      match get r k with
      | Some v' => Some v'
      | None => if eqb k' k then Some v else None
      end
  end.

(** The value of [t[k]] when it is truthy: present and not the empty
    string. *)
Definition truthy (v : option str) : option str :=
  match v with
  | Some (c :: s) => Some (c :: s)
  | _ => None
  end.

(** [a || b] on two reads. *)
Definition orElse (a b : option str) : option str :=
  match truthy a with
  | Some v => Some v
  | None => truthy b
  end.

(** A number: an integer or [NaN]. *)
Inductive number :=
| Int (z : Z)
| NaN.

(** [a + b] on numbers. *)
Definition add (a b : number) : number :=
  match a, b with
  | Int x, Int y => Int (x + y)
  | _, _ => NaN
  end.

(** [String(m)] for the member [m] of [Object.prototype] of the given
    name: [__proto__] reads the prototype itself, the other names read
    built-in functions, printed as V8 prints them; the function read by
    [constructor] is named [Object]. *)
Definition memberText (name : str) : str :=
  if eqb name (utf16 "__proto__") then utf16 "[object Object]"
  else utf16 "function "
       ++ (if eqb name (utf16 "constructor") then utf16 "Object" else name)
       ++ utf16 "() { [native code] }".

(** The [length] of these functions: their number of parameters. *)
Definition memberArity : list (string * Z) :=
  [("constructor", 1); ("hasOwnProperty", 1); ("isPrototypeOf", 1);
   ("propertyIsEnumerable", 1); ("toString", 0); ("toLocaleString", 0);
   ("valueOf", 0); ("__defineGetter__", 2); ("__defineSetter__", 2);
   ("__lookupGetter__", 1); ("__lookupSetter__", 1)]%string%Z.

(** [m.length] for the member of the given name; the prototype object
    has no such property, and [undefined] in a sum gives [NaN]. *)
Definition memberLength (name : str) : number :=
  match find (fun e => eqb name (utf16 (fst e))) memberArity with
  | Some e => Int (snd e)
  | None => NaN
  end.

(** What a property read yields: nothing, text, or a member inherited
    from [Object.prototype] (a function or an object). *)
Inductive value :=
| Undefined
| Text (s : str)
| Member (name : str).

(** [t[k]], through the prototype chain. *)
Definition read (t : table) (k : str) : value :=
  match get t k with
  | Some v => Text v
  | None => if inherited k then Member k else Undefined
  end.

(** [k in t], through the prototype chain. *)
Definition has (t : table) (k : str) : bool :=
  match get t k with
  | Some _ => true
  | None => inherited k
  end.

(** [v || null]: [None] is [null]. *)
Definition orNull (v : value) : option value :=
  match v with
  | Text (c :: s) => Some (Text (c :: s))
  | Member name => Some (Member name)
  | _ => None
  end.

End JS.

Import JS.

(** ** Symbol tables ([nepali-mapping.ts]) *)

Module NepaliMapping.

Definition HALANT : str := Eval vm_compute in utf16 "्".

Definition vowels : table := Eval vm_compute in entries [
    ("a", "अ"); ("aa", "आ"); ("i", "इ"); ("ee", "ई"); ("ii", "ई");
    ("u", "उ"); ("uu", "ऊ"); ("e", "ए"); ("ai", "ऐ"); ("o", "ओ"); ("au", "औ");
    ("A", "आ"); ("I", "ई"); ("E", "ए"); ("O", "ओ"); ("U", "ऊ")
  ]%string.

Definition baseConsonants : table := Eval vm_compute in entries [
    ("k", "क"); ("kh", "ख"); ("g", "ग"); ("gh", "घ"); ("ng", "ङ");
    ("ch", "च"); ("chh", "छ"); ("j", "ज"); ("jh", "झ"); ("yn", "ञ");
    ("t", "त"); ("th", "थ"); ("d", "द"); ("dh", "ध"); ("n", "न");
    ("T", "ट"); ("Th", "ठ"); ("D", "ड"); ("Dh", "ढ"); ("N", "ण");
    ("p", "प"); ("ph", "फ"); ("b", "ब"); ("bh", "भ"); ("m", "म");
    ("y", "य"); ("r", "र"); ("l", "ल"); ("w", "व"); ("v", "व");
    ("sh", "श"); ("Sh", "ष"); ("s", "स"); ("h", "ह")
  ]%string.

Definition halfConsonants : table := Eval vm_compute in entries [
    ("k", "क्"); ("kh", "ख्"); ("g", "ग्"); ("gh", "घ्"); ("ng", "ङ्");
    ("ch", "च्"); ("chh", "छ्"); ("j", "ज्"); ("jh", "झ्"); ("yn", "ञ्");
    ("t", "त्"); ("th", "थ्"); ("d", "द्"); ("dh", "ध्"); ("n", "न्");
    ("T", "ट्"); ("Th", "ठ्"); ("D", "ड्"); ("Dh", "ढ्"); ("N", "ण्");
    ("p", "प्"); ("ph", "फ्"); ("b", "ब्"); ("bh", "भ्"); ("m", "म्");
    ("y", "य्"); ("r", "र्"); ("l", "ल्"); ("w", "व्"); ("v", "व्");
    ("sh", "श्"); ("Sh", "ष्"); ("s", "स्"); ("h", "ह्")
  ]%string.

Definition matras : table := Eval vm_compute in entries [
    ("aa", "ा"); ("i", "ि"); ("ee", "ी"); ("ii", "ी");
    ("u", "ु"); ("uu", "ू"); ("e", "े"); ("ai", "ै");
    ("o", "ो"); ("au", "ौ")
  ]%string.

Definition consonantClusters : table := Eval vm_compute in entries [
    ("ksh", "क्ष"); ("ksha", "क्ष"); ("kshi", "क्षि"); ("kshu", "क्षु"); ("kshe", "क्षे"); ("ksho", "क्षो");
    ("tr", "त्र"); ("tra", "त्र"); ("tri", "त्रि"); ("tru", "त्रु"); ("tre", "त्रे"); ("tro", "त्रो");
    ("jny", "ज्ञ"); ("jnya", "ज्ञ"); ("jnyi", "ज्ञि"); ("jnyu", "ज्ञु"); ("jnye", "ज्ञे"); ("jnyo", "ज्ञो");
    ("kt", "क्त"); ("kta", "क्त"); ("kti", "क्ति"); ("ktu", "क्तु"); ("kte", "क्ते"); ("kto", "क्तो");
    ("st", "स्त"); ("sta", "स्त"); ("sti", "स्ति"); ("stu", "स्तु"); ("ste", "स्ते"); ("sto", "स्तो");
    ("str", "स्त्र"); ("stra", "स्त्र"); ("stri", "स्त्रि"); ("stru", "स्त्रु"); ("stre", "स्त्रे"); ("stro", "स्त्रो");
    ("nt", "न्त"); ("nta", "न्त"); ("nti", "न्ति"); ("ntu", "न्तु"); ("nte", "न्ते"); ("nto", "न्तो");
    ("nd", "न्द"); ("nda", "न्द"); ("ndi", "न्दि"); ("ndu", "न्दु"); ("nde", "न्दे"); ("ndo", "न्दो");
    ("mp", "म्प"); ("mpa", "म्प"); ("mpi", "म्पि"); ("mpu", "म्पु"); ("mpe", "म्पे"); ("mpo", "म्पो");
    ("mb", "म्ब"); ("mba", "म्ब"); ("mbi", "म्बि"); ("mbu", "म्बु"); ("mbe", "म्बे"); ("mbo", "म्बो");
    ("ng", "ङ्ग"); ("nga", "ङ्ग"); ("ngi", "ङ्गि"); ("ngu", "ङ्गु"); ("nge", "ङ्गे"); ("ngo", "ङ्गो");
    ("chh", "छ"); ("chha", "छ"); ("chhi", "छि"); ("chhu", "छु"); ("chhe", "छे"); ("chho", "छो");
    ("shch", "श्च"); ("shcha", "श्च"); ("shchi", "श्चि"); ("shchu", "श्चु"); ("shche", "श्चे"); ("shcho", "श्चो");
    ("shth", "स्थ"); ("shtha", "स्थ"); ("shthi", "स्थि"); ("shthu", "स्थु"); ("shthe", "स्थे"); ("shtho", "स्थो");
    ("shm", "श्म"); ("shma", "श्म"); ("shmi", "श्मि"); ("shmu", "श्मु"); ("shme", "श्मे"); ("shmo", "श्मो");
    ("shn", "श्न"); ("shna", "श्न"); ("shni", "श्नि"); ("shnu", "श्नु"); ("shne", "श्ने"); ("shno", "श्नो");
    ("shl", "श्ल"); ("shla", "श्ल"); ("shli", "श्लि"); ("shlu", "श्लु"); ("shle", "श्ले"); ("shlo", "श्लो");
    ("shv", "श्व"); ("shva", "श्व"); ("shvi", "श्वि"); ("shvu", "श्वु"); ("shve", "श्वे"); ("shvo", "श्वो");
    ("rth", "र्थ"); ("rtha", "र्थ"); ("rthi", "र्थि"); ("rthu", "र्थु"); ("rthe", "र्थे"); ("rtho", "र्थो");
    ("rdh", "र्ध"); ("rdha", "र्ध"); ("rdhi", "र्धि"); ("rdhu", "र्धु"); ("rdhe", "र्धे"); ("rdho", "र्धो");
    ("rsh", "र्श"); ("rsha", "र्श"); ("rshi", "र्शि"); ("rshu", "र्शु"); ("rshe", "र्शे"); ("rsho", "र्शो");
    ("rch", "र्च"); ("rcha", "र्च"); ("rchi", "र्चि"); ("rchu", "र्चु"); ("rche", "र्चे"); ("rcho", "र्चो");
    ("rgh", "र्घ"); ("rgha", "र्घ"); ("rghi", "र्घि"); ("rghu", "र्घु"); ("rghe", "र्घे"); ("rgho", "र्घो");
    ("rkh", "र्ख"); ("rkha", "र्ख"); ("rkhi", "र्खि"); ("rkhu", "र्खु"); ("rkhe", "र्खे"); ("rkho", "र्खो");
    ("rph", "र्फ"); ("rpha", "र्फ"); ("rphi", "र्फि"); ("rphu", "र्फु"); ("rphe", "र्फे"); ("rpho", "र्फो");
    ("rbh", "र्भ"); ("rbha", "र्भ"); ("rbhi", "र्भि"); ("rbhu", "र्भु"); ("rbhe", "र्भे"); ("rbho", "र्भो");
    ("rd", "र्द"); ("rda", "र्द"); ("rdi", "र्दि"); ("rdu", "र्दु"); ("rde", "र्दे"); ("rdo", "र्दो");
    ("rt", "र्त"); ("rta", "र्त"); ("rti", "र्ति"); ("rtu", "र्तु"); ("rte", "र्ते"); ("rto", "र्तो");
    ("rn", "र्न"); ("rna", "र्न"); ("rni", "र्नि"); ("rnu", "र्नु"); ("rne", "र्ने"); ("rno", "र्नो");
    ("rm", "र्म"); ("rma", "र्म"); ("rmi", "र्मि"); ("rmu", "र्मु"); ("rme", "र्मे"); ("rmo", "र्मो");
    ("rl", "र्ल"); ("rla", "र्ल"); ("rli", "र्लि"); ("rlu", "र्लु"); ("rle", "र्ले"); ("rlo", "र्लो");
    ("rv", "र्व"); ("rva", "र्व"); ("rvi", "र्वि"); ("rvu", "र्वु"); ("rve", "र्वे"); ("rvo", "र्वो");
    ("ry", "र्य"); ("rya", "र्य"); ("ryi", "र्यि"); ("ryu", "र्यु"); ("rye", "र्ये"); ("ryo", "र्यो");
    ("ly", "ल्य"); ("lya", "ल्य"); ("lyi", "ल्यि"); ("lyu", "ल्यु"); ("lye", "ल्ये"); ("lyo", "ल्यो");
    ("ny", "न्य"); ("nya", "न्य"); ("nyi", "न्यि"); ("nyu", "न्यु"); ("nye", "न्ये"); ("nyo", "न्यो");
    ("my", "म्य"); ("mya", "म्य"); ("myi", "म्यि"); ("myu", "म्यु"); ("mye", "म्ये"); ("myo", "म्यो");
    ("ty", "त्य"); ("tya", "त्य"); ("tyi", "त्यि"); ("tyu", "त्यु"); ("tye", "त्ये"); ("tyo", "त्यो");
    ("dy", "द्य"); ("dya", "द्य"); ("dyi", "द्यि"); ("dyu", "द्यु"); ("dye", "द्ये"); ("dyo", "द्यो");
    ("py", "प्य"); ("pya", "प्य"); ("pyi", "प्यि"); ("pyu", "प्यु"); ("pye", "प्ये"); ("pyo", "प्यो");
    ("by", "ब्य"); ("bya", "ब्य"); ("byi", "ब्यि"); ("byu", "ब्यु"); ("bye", "ब्ये"); ("byo", "ब्यो");
    ("ky", "क्य"); ("kya", "क्य"); ("kyi", "क्यि"); ("kyu", "क्यु"); ("kye", "क्ये"); ("kyo", "क्यो");
    ("gy", "ग्य"); ("gya", "ग्य"); ("gyi", "ग्यि"); ("gyu", "ग्यु"); ("gye", "ग्ये"); ("gyo", "ग्यो");
    ("hy", "ह्य"); ("hya", "ह्य"); ("hyi", "ह्यि"); ("hyu", "ह्यु"); ("hye", "ह्ये"); ("hyo", "ह्यो");
    ("sy", "स्य"); ("sya", "स्य"); ("syi", "स्यि"); ("syu", "स्यु"); ("sye", "स्ये"); ("syo", "स्यो");
    ("shy", "श्य"); ("shya", "श्य"); ("shyi", "श्यि"); ("shyu", "श्यु"); ("shye", "श्ये"); ("shyo", "श्यो")
  ]%string.

Definition commonWords : table := Eval vm_compute in entries [
    ("mero", "मेरो");
    ("naam", "नाम");
    ("ram", "राम");
    ("ho", "हो");
    ("cha", "छ");
    ("huncha", "हुन्छ");
    ("hunchha", "हुन्छ");
    ("ma", "म");
    ("timro", "तिम्रो");
    ("hamro", "हाम्रो");
    ("tapainko", "तपाईंको");
    ("kasto", "कस्तो");
    ("kati", "कति");
    ("kaha", "कहाँ");
    ("kina", "किन");
    ("kinaa", "किना");
    ("kasari", "कसरी");
    ("ke", "के");
    ("ko", "को");
    ("ka", "का");
    ("ki", "की");
    ("ra", "र");
    ("ani", "अनी");
    ("tara", "तर");
    ("tyo", "त्यो");
    ("yo", "यो");
    ("uniharu", "उनिहरू");
    ("tiniharu", "तिनिहरू");
    ("yini", "यिनी");
    ("hami", "हामी");
    ("hajur", "हजुर");
    ("namaste", "नमस्ते");
    ("dhanyabad", "धन्यवाद");
    ("sukriya", "सुक्रिया");
    ("bholi", "भोलि");
    ("aaja", "आज");
    ("hijo", "हिजो");
    ("parsi", "पर्सि");
    ("bhaneko", "भनेको");
    ("bhancha", "भन्छ");
    ("garcha", "गर्छ");
    ("garchha", "गर्छ");
    ("hudaina", "हुँदैन");
    ("hudain", "हुँदैन");
    ("thiyo", "थियो");
    ("thiyen", "थिएन");
    ("hunchu", "हुँछु");
    ("hunchau", "हुँछौ");
    ("hunchan", "हुँछन्");
    ("garchu", "गर्छु");
    ("garchau", "गर्छौ");
    ("garchan", "गर्छन्");
    ("bhanchu", "भन्छु");
    ("bhanchau", "भन्छौ");
    ("bhanchan", "भन्छन्")
  ]%string.

(** [getMapping]: the spread of the four tables into one object; on a
    shared key the later table wins. *)
Definition getMapping : table :=
  vowels ++ baseConsonants ++ consonantClusters ++ commonWords.

Definition getHalant : str := HALANT.

Definition isVowel (char : str) : bool := has vowels char.

Definition isConsonant (seq : str) : bool := has baseConsonants seq.

Definition getBaseConsonant (consonant : str) : option value :=
  orNull (read baseConsonants consonant).

Definition getHalfConsonant (consonant : str) : option value :=
  orNull (read halfConsonants consonant).

End NepaliMapping.

(** ** The engine ([nepali-converter.ts]) *)

Module NepaliConverter.

Import NepaliMapping.

Record NepaliConverterConfig := {
  autoConvertOnSpace : bool;
  caseSensitive : bool;
  preservePunctuation : bool;
  enableCommonWords : bool
}.

(** *** [NepaliConverterBuilder] *)

Definition initialConfig : NepaliConverterConfig :=
  {| autoConvertOnSpace := true;
     caseSensitive := false;
     preservePunctuation := true;
     enableCommonWords := true |}.

Definition withAutoConvertOnSpace (enabled : bool) (c : NepaliConverterConfig) :=
  {| autoConvertOnSpace := enabled;
     caseSensitive := caseSensitive c;
     preservePunctuation := preservePunctuation c;
     enableCommonWords := enableCommonWords c |}.

Definition withCaseSensitive (enabled : bool) (c : NepaliConverterConfig) :=
  {| autoConvertOnSpace := autoConvertOnSpace c;
     caseSensitive := enabled;
     preservePunctuation := preservePunctuation c;
     enableCommonWords := enableCommonWords c |}.

Definition withPreservePunctuation (enabled : bool) (c : NepaliConverterConfig) :=
  {| autoConvertOnSpace := autoConvertOnSpace c;
     caseSensitive := caseSensitive c;
     preservePunctuation := enabled;
     enableCommonWords := enableCommonWords c |}.

Definition withCommonWords (enabled : bool) (c : NepaliConverterConfig) :=
  {| autoConvertOnSpace := autoConvertOnSpace c;
     caseSensitive := caseSensitive c;
     preservePunctuation := preservePunctuation c;
     enableCommonWords := enabled |}.

(** *** The fields set by the constructor *)

Definition mapping : table := getMapping.

(** *** [convertAdvanced]

    The keys read in [convertAdvanced] are substrings of at most four code
    units, and every inherited name is longer, so these reads are reads of
    the tables' own entries. *)

(** [this.consonantClusters[k] || this.mapping[k]] *)
Definition tableMatch (k : str) : option str :=
  orElse (get consonantClusters k) (get mapping k).

(** The three branches tried on [twoChar]: cluster, mapping, and a pair
    of base consonants written as half letter and full letter. *)
Definition twoCharMatch (twoChar : str) : option str :=
  match truthy (get consonantClusters twoChar) with
  | Some v => Some v
  | None =>
      match truthy (get mapping twoChar) with
      | Some v => Some v
      | None =>
          match truthy (get baseConsonants (index twoChar 0)),
                truthy (get baseConsonants (index twoChar 1)) with
          | Some _, Some _ =>
              match truthy (get halfConsonants (index twoChar 0)),
                    truthy (get baseConsonants (index twoChar 1)) with
              | Some firstHalf, Some secondBase => Some (firstHalf ++ secondBase)
              | _, _ => None
              end
          | _, _ => None
          end
      end
  end.

(** [char in this.baseConsonants || /^[kghcjtdnpbmyrlwvsh]$/i.test(char)] *)
Definition isConsonantChar (char : str) : bool :=
  match get baseConsonants char with
  | Some _ => true
  | None =>
      match char with
      | [c] => oneOf (utf16 "kghcjtdnpbmyrlwvsh") c
               || oneOf (utf16 "KGHCJTDNPBMYRLWVSH") c
      | _ => false
      end
  end.

(** [char in this.vowels || /^[aeiou]$/i.test(char)] *)
Definition isVowelChar (char : str) : bool :=
  match get vowels char with
  | Some _ => true
  | None =>
      match char with
      | [c] => oneOf (utf16 "aeiou") c || oneOf (utf16 "AEIOU") c
      | _ => false
      end
  end.

(** [x && this.matras[x]] for [x] a string or [null]. *)
Definition matraOf (x : option str) : option str :=
  match x with
  | Some k => truthy (get matras k)
  | None => None
  end.

(** The single-character branch of one iteration at position [i]: the
    text appended to [result] and the new value of [i]. *)
Definition singleCharStep (text : str) (i : nat) : str * nat :=
  let singleChar := index text i in
  let nextChar :=
    if i + 1 <? length text then Some (index text (i + 1)) else None in
  let nextTwoChar :=
    if i + 2 <? length text then Some (substring text (i + 1) (i + 3))
    else None in
  match truthy (get vowels singleChar) with
  | Some v => (v, i + 1)
  | None =>
      match truthy (get baseConsonants singleChar) with
      | Some base =>
          if match nextChar with
             | Some n => isConsonantChar n && negb (isVowelChar n)
             | None => false
             end
          then
            match matraOf nextTwoChar with
            | Some m => (base ++ m, i + 3)
            | None =>
                match matraOf nextChar with
                | Some m => (base ++ m, i + 2)
                | None =>
                    match truthy (get halfConsonants singleChar) with
                    | Some halfConsonant => (halfConsonant, i + 1)
                    | None => (base, i + 1)
                    end
                end
            end
          else
            match matraOf nextChar with
            | Some m => (base ++ m, i + 2)
            | None =>
                match matraOf nextTwoChar with
                | Some m => (base ++ m, i + 3)
                | None => (base, i + 1)
                end
            end
      | None => (singleChar, i + 1)
      end
  end.

(** One iteration of the [while] loop at position [i]. *)
Definition iteration (text : str) (i : nat) : str * nat :=
  match (if i + 4 <=? length text
         then tableMatch (substring text i (i + 4)) else None) with
  | Some v => (v, i + 4)
  | None =>
      match (if i + 3 <=? length text
             then tableMatch (substring text i (i + 3)) else None) with
      | Some v => (v, i + 3)
      | None =>
          match (if i + 2 <=? length text
                 then twoCharMatch (substring text i (i + 2)) else None) with
          | Some v => (v, i + 2)
          | None => singleCharStep text i
          end
      end
  end.

(** [while (i < text.length) { ... }]: every iteration advances [i], so
    [length text] rounds are enough (lemma [loop_fuel]). *)
Fixpoint loop (fuel : nat) (text : str) (i : nat) (result : str) : str :=
  match fuel with
  | O => result
  | S fuel' =>
      if i <? length text then
        let (out, i') := iteration text i in
        loop fuel' text i' (result ++ out)
      else result
  end.

Definition convertAdvanced (text : str) : str :=
  if empty text then [] else loop (length text) text 0 [].

(** *** [convertWord]

    [this.commonWords[cleanWord]] is the one read whose key is a whole
    word.  When the word is not a key of the table but is a name every
    object inherits ([constructor], [__proto__]), the read is truthy and
    the value returned is not text: the result is [None] there. *)
Definition convertWord (config : NepaliConverterConfig) (word : str)
  : option str :=
  if empty word || empty (trim word) then Some word
  else
    let cleanWord := toLowerCase (trim word) in
    if enableCommonWords config then
      match get commonWords cleanWord with
      | Some (c :: v) => Some (c :: v)
      | Some [] => Some (convertAdvanced cleanWord)
      | None =>
          if inherited cleanWord then None
          else Some (convertAdvanced cleanWord)
      end
    else Some (convertAdvanced cleanWord).

(** What [convertWord] returns as [+] and [join] see it: the text, or
    the text of the inherited member, which is named by the clean
    word. *)
Definition convertedText (config : NepaliConverterConfig) (word : str)
  : str :=
  match convertWord config word with
  | Some converted => converted
  | None => memberText (toLowerCase (trim word))
  end.

(** [convertedWord.length] *)
Definition convertedLength (config : NepaliConverterConfig) (word : str)
  : number :=
  match convertWord config word with
  | Some converted => Int (Z.of_nat (length converted))
  | None => memberLength (toLowerCase (trim word))
  end.

(** *** [splitText] and [convertText] *)

(** A space, or one of the punctuation characters of the splitting
    pattern: [. , ! ? ; : ( ) [ ] { }], the apostrophe and the double quote
    (code unit 0x22). *)
Definition isSeparator (c : N) : bool :=
  (c =? code " ")%N || oneOf (utf16 ".,!?;:()[]{}'" ++ [0x22%N]) c.

Definition pushWord (words : list str) (currentWord : str) : list str :=
  if empty currentWord then words else words ++ [currentWord].

Fixpoint splitLoop (chars : str) (words : list str) (currentWord : str)
  : list str :=
  match chars with
  | [] => pushWord words currentWord
  | char :: rest =>
      if isSeparator char
      then splitLoop rest (pushWord words currentWord ++ [[char]]) []
      else splitLoop rest words (currentWord ++ [char])
  end.

Definition splitText (text : str) : list str := splitLoop text [] [].

(** The word [/[a-zA-Z]/] lets through is handed to [convertWord];
    [join] takes the text of what comes back. *)
Definition convertToken (config : NepaliConverterConfig) (word : str)
  : str :=
  if hasLetter word then convertedText config word else word.

(** [convertedWords.join('')] is the concatenation of the tokens'
    texts. *)
Definition convertText (config : NepaliConverterConfig) (text : str)
  : str :=
  if empty text || empty (trim text) then text
  else concat (map (convertToken config) (splitText text)).

(** *** [handleSpaceKey] *)

(** [\s*$] at the current position. *)
Definition spacesToEnd (s : str) : bool := forallb isWhiteSpace s.

(** The longest run of [\w] at the head of [s]. *)
Fixpoint wordRun (s : str) : nat :=
  match s with
  | c :: r => if isWordChar c then S (wordRun r) else 0
  | [] => 0
  end.

(** [(\w+)\s*$] anchored at the head of [s]: the group takes [k] word
    characters, then one fewer on each failure, down to one. *)
Fixpoint matchGroup (k : nat) (s : str) : option str :=
  match k with
  | O => None
  | S k' =>
      if spacesToEnd (skipn k s) then Some (firstn k s) else matchGroup k' s
  end.

(** [s.match(/(\w+)\s*$/)]: the match at the leftmost position that has
    one; the result is group 1. *)
Fixpoint lastWordMatch (s : str) : option str :=
  match matchGroup (wordRun s) s with
  | Some w => Some w
  | None =>
      match s with
      | [] => None
      | _ :: r => lastWordMatch r
      end
  end.

(** The cursor given is an integer; [substring] clamps a negative one
    to [0].  The cursor returned is a sum that involves the [length] of
    what [convertWord] returned. *)
Definition handleSpaceKey (config : NepaliConverterConfig) (text : str)
  (cursorPosition : Z) : str * number :=
  if negb (autoConvertOnSpace config) then (text, Int cursorPosition)
  else
    let beforeCursor := substring text 0 (Z.to_nat cursorPosition) in
    let afterCursor :=
      substring text (Z.to_nat cursorPosition) (length text) in
    match lastWordMatch beforeCursor with
    | Some lastWord =>
        let wordStart := lastIndexOf beforeCursor lastWord in
        let beforeWord := substring beforeCursor 0 (Z.to_nat wordStart) in
        let newText :=
          beforeWord ++ convertedText config lastWord ++ utf16 " "
            ++ afterCursor in
        let newCursorPos :=
          add (add (Int (Z.of_nat (length beforeWord)))
                   (convertedLength config lastWord))
              (Int 1) in
        (newText, newCursorPos)
    | None => (text ++ utf16 " ", Int (cursorPosition + 1))
    end.

End NepaliConverter.

Import NepaliMapping NepaliConverter.

(** ** Builder and converter objects

    A builder holds one configuration object and mutates it in place;
    [build] hands that same object to the converter.  The objects live
    in a store and are named by their position in it. *)

Module Instances.

Definition ref := nat.

Fixpoint assign {A : Type} (l : list A) (r : ref) (x : A) : list A :=
  match l, r with
  | [], _ => []
  | _ :: l', O => x :: l'
  | y :: l', S r' => y :: assign l' r' x
  end.

(** [converters] holds, for each converter object, its [config] field. *)
Record store := {
  configs : list NepaliConverterConfig;
  converters : list ref
}.

Definition emptyStore : store := {| configs := []; converters := [] |}.

Definition allocConfig (s : store) (c : NepaliConverterConfig) : store * ref :=
  ({| configs := configs s ++ [c]; converters := converters s |},
   length (configs s)).

Definition setConfig (s : store) (r : ref) (c : NepaliConverterConfig)
  : store :=
  {| configs := assign (configs s) r c; converters := converters s |}.

(** [Partial<NepaliConverterConfig>]: each field present or absent. *)
Record PartialConfig := {
  autoConvertOnSpace_opt : option bool;
  caseSensitive_opt : option bool;
  preservePunctuation_opt : option bool;
  enableCommonWords_opt : option bool
}.

Definition pick (patch : option bool) (current : bool) : bool :=
  match patch with
  | Some b => b
  | None => current
  end.

(** [{ ...config, ...patch }] *)
Definition spread (config : NepaliConverterConfig) (patch : PartialConfig)
  : NepaliConverterConfig :=
  {| autoConvertOnSpace :=
       pick (autoConvertOnSpace_opt patch) (autoConvertOnSpace config);
     caseSensitive := pick (caseSensitive_opt patch) (caseSensitive config);
     preservePunctuation :=
       pick (preservePunctuation_opt patch) (preservePunctuation config);
     enableCommonWords :=
       pick (enableCommonWords_opt patch) (enableCommonWords config) |}.

Module Builder.

(** A builder object: its [config] field, set once. *)
Record t := { config : ref }.

(** [new NepaliConverterBuilder()] *)
Definition new (s : store) : store * t :=
  let (s', r) := allocConfig s initialConfig in (s', {| config := r |}).

(** [this.config.field = enabled], for the field [set] writes. *)
Definition mutate
  (set : bool -> NepaliConverterConfig -> NepaliConverterConfig)
  (enabled : bool) (s : store) (b : t) : store :=
  match nth_error (configs s) (config b) with
  | Some c => setConfig s (config b) (set enabled c)
  | None => s
  end.

Definition withAutoConvertOnSpace := mutate NepaliConverter.withAutoConvertOnSpace.
Definition withCaseSensitive := mutate NepaliConverter.withCaseSensitive.
Definition withPreservePunctuation := mutate NepaliConverter.withPreservePunctuation.
Definition withCommonWords := mutate NepaliConverter.withCommonWords.

(** [new NepaliConverter(this.config)]: the converter's [config] field
    is the builder's object itself.  The result is the new converter's
    position in the store. *)
Definition build (s : store) (b : t) : store * ref :=
  ({| configs := configs s; converters := converters s ++ [config b] |},
   length (converters s)).

(** [{ ...this.config }]: a new object. *)
Definition getConfig (s : store) (b : t) : option (store * ref) :=
  match nth_error (configs s) (config b) with
  | Some c => Some (allocConfig s c)
  | None => None
  end.

End Builder.

Module Converter.

(** [this.config] of the converter at position [k]. *)
Definition config (s : store) (k : ref) : option NepaliConverterConfig :=
  match nth_error (converters s) k with
  | Some r => nth_error (configs s) r
  | None => None
  end.

(** [{ ...this.config }]: a new object. *)
Definition getConfig (s : store) (k : ref) : option (store * ref) :=
  match config s k with
  | Some c => Some (allocConfig s c)
  | None => None
  end.

(** [this.config = { ...this.config, ...patch }]: a new object, put in
    the converter's field. *)
Definition updateConfig (s : store) (k : ref) (patch : PartialConfig)
  : store :=
  match config s k with
  | Some c =>
      let (s', r) := allocConfig s (spread c patch) in
      {| configs := configs s'; converters := assign (converters s') k r |}
  | None => s
  end.

End Converter.

End Instances.

(** ** Vocabulary of the properties *)

(** The consonant and vowel alphabets: the code units that occur in a key
    of the vowel table or of the base-consonant table. *)
Definition inAlphabet (c : N) : bool :=
  existsb (fun e => oneOf (fst e) c) (vowels ++ baseConsonants).

Definition outsideAlphabets (w : str) : bool :=
  forallb (fun c => negb (inAlphabet c)) w.

Definition allTables : table :=
  mapping ++ matras ++ halfConsonants.

(** Each of the engine's tables is part of [allTables]. *)
Inductive engineTable : table -> Prop :=
| et_vowels : engineTable vowels
| et_base : engineTable baseConsonants
| et_clusters : engineTable consonantClusters
| et_common : engineTable commonWords
| et_mapping : engineTable mapping
| et_matras : engineTable matras
| et_half : engineTable halfConsonants.

(** The value the tables give a key: the entry of the consonant-cluster
    table when there is one, otherwise the entry of the general mapping
    table. *)
Definition keyValue (k : str) : option str :=
  match get consonantClusters k with
  | Some c => Some c
  | None => get mapping k
  end.

(** The longest match as the specification words it: among all the keys
    of the cluster table and of the general mapping table that occur in
    the text at position [i], the longest one. *)
Definition longestKeyAt (text : str) (i : nat) : option str :=
  fold_right
    (fun k best =>
       if startsWith (skipn i text) k then
         match best with
         | Some b => if length b <? length k then Some k else Some b
         | None => Some k
         end
       else best)
    None (map fst (consonantClusters ++ mapping)).

(** What the tables hold for keys of one character: a vowel that is not
    a consonant, or a consonant whose half form is its glyph followed by
    the halant; the cluster table has no such key. *)
Definition singleKeyOk (e : str * str) : bool :=
  if length (fst e) =? 1 then
    match get vowels (fst e) with
    | Some x =>
        eqb x (snd e)
        && match get baseConsonants (fst e) with Some _ => false | None => true end
    | None =>
        match get baseConsonants (fst e), get halfConsonants (fst e) with
        | Some b, Some h => eqb b (snd e) && eqb h (snd e ++ HALANT)
        | _, _ => false
        end
    end
  else true.

(** [/[a-zA-Z]/] on one code unit. *)
Definition letter (c : N) : bool := range "a" "z" c || range "A" "Z" c.

(** *** Letters and layout *)

(** A code point with an upper-case or a lower-case form: one that has a
    lower-case form other than itself, or occurs in the lower-case form
    of a code point (the combining dot U+0307 of the form of U+0130 and
    the two small sigmas included).  The Latin letters are among them. *)
Definition isSource (c : N) : bool :=
  (c =? 0x130)%N
  || match lowerIn lowerRuns c with Some _ => true | None => false end.

Definition isTarget (c : N) : bool :=
  oneOf [0x69; 0x307; 0x3C2; 0x3C3]%N c
  || existsb (fun run =>
                let '(lo, hi, step, target) := run in
                ((target <=? c) && (c <=? target + (hi - lo))
                 && ((c - target) mod step =? 0))%N)
             lowerRuns.

Definition hasCase (p : point) : bool :=
  isSource (scalar p) || isTarget (scalar p).

(** The letters and signs of the Devanagari block (U+0900 to U+0963; not
    its punctuation and digits). *)
Definition nepali (c : N) : bool := ((0x900 <=? c) && (c <=? 0x963))%N.

Definition alphabetic (p : point) : bool := hasCase p || nepali (scalar p).

(** The non-alphabetic content of a text: its characters, in order,
    that are not alphabetic.  White space, digits, punctuation and
    symbols of every script are part of it. *)
Definition layout (s : str) : list point :=
  filter (fun p => negb (alphabetic p)) (points s).

(** The text without the white space that [convertWord] trims: the
    white space at the two ends of each token that holds a letter. *)
Definition stripToken (w : str) : str := if hasLetter w then trim w else w.

Definition stripped (text : str) : str :=
  concat (map stripToken (splitText text)).

(** The read of the exception table for this word finds a member of
    [Object.prototype]. *)
Definition inheritedName (config : NepaliConverterConfig) (w : str) : bool :=
  enableCommonWords config && inherited (toLowerCase (trim w)).

(** *** Lower case *)

(** A code point that is its own lower-case form, whatever surrounds
    it. *)
Definition fixedPoint (p : point) : bool :=
  negb (scalar p =? 0x130)%N
  && match lowerIn lowerRuns (scalar p) with Some _ => false | None => true end.

(** A text made of such code points. *)
Definition stable (s : str) : bool := forallb fixedPoint (points s).

(** A code unit that is a code point on its own and its own lower-case
    form. *)
Definition steady (u : N) : bool :=
  negb (isHigh u) && negb (isLow u) && fixedPoint (Unit u).

(** The code points the table yields: the targets of each run. *)
Definition runTargets (run : N * N * N * N) : list N :=
  let '(lo, hi, step, target) := run in
  map (fun i => (target + N.of_nat i * step)%N)
      (seq 0 (S (N.to_nat ((hi - lo) / step)))).

Definition targets : list N := flat_map runTargets lowerRuns.

(** A code point that is no surrogate on its own. *)
Definition clean (p : point) : bool :=
  match p with
  | Unit u => negb (isHigh u) && negb (isLow u)
  | Pair h l => isHigh h && isLow l
  end.

(** What holds of every code point that lower-casing puts in place of
    another: it is its own lower-case form, it is no surrogate on its
    own, it holds no white space, and it has a case. *)
Definition good (p : point) : bool :=
  fixedPoint p && clean p
  && forallb (fun u => negb (isWhiteSpace u)) (units p)
  && hasCase p.

(** A list of code points as [points] gives them: every pair is a high
    and a low surrogate, and no high surrogate on its own is followed by
    a low surrogate on its own. *)
Definition genuine (p : point) : bool :=
  match p with
  | Unit _ => true
  | Pair h l => isHigh h && isLow l
  end.

Definition endsHigh (p : point) : bool :=
  match p with
  | Unit u => isHigh u
  | Pair _ _ => false
  end.

Definition startsLow (ps : list point) : bool :=
  match ps with
  | Unit l :: _ => isLow l
  | _ => false
  end.

Fixpoint wellPaired (ps : list point) : bool :=
  match ps with
  | [] => true
  | p :: r =>
      genuine p && negb (endsHigh p && startsLow r) && wellPaired r
  end.

(** A word token of [splitText] holds no separator. *)
Definition noSeparator (s : str) : bool :=
  forallb (fun c => negb (isSeparator c)) s.

(** The Devanagari block. *)
Definition devanagari (c : N) : bool := ((0x900 <=? c) && (c <=? 0x97F))%N.

Definition glyphs (s : str) : bool := forallb devanagari s.

(** A character that is a key on its own, of the vowel table or of the
    base-consonant table. *)
Definition singleKey (c : N) : bool :=
  match get vowels [c], get baseConsonants [c] with
  | None, None => false
  | _, _ => true
  end.

(** A text in which no character is a key on its own. *)
Definition inert (s : str) : bool := forallb (fun c => negb (singleKey c)) s.

(** [translation text out]: [out] is [text] rewritten from left to right,
    each step replacing a key of one of the tables by its entry or
    copying one character that is no key on its own. *)
Inductive translation : str -> str -> Prop :=
| tr_done : translation [] []
| tr_entry (t : table) (k v rest out : str) :
    engineTable t -> get t k = Some v -> translation rest out ->
    translation (k ++ rest) (v ++ out)
| tr_copy (c : N) (rest out : str) :
    singleKey c = false -> translation rest out ->
    translation (c :: rest) (c :: out).

(** A translation seen code point by code point: a key and its entry
    are code units that are code points on their own, and what is copied
    is a whole code point. *)
Inductive rewritten : list point -> list point -> Prop :=
| rw_done : rewritten [] []
| rw_entry (t : table) (k v : str) (rest out : list point) :
    engineTable t -> get t k = Some v -> rewritten rest out ->
    rewritten (map Unit k ++ rest) (map Unit v ++ out)
| rw_copy (p : point) (rest out : list point) :
    rewritten rest out -> rewritten (p :: rest) (p :: out).

(** The shape of a token list: every token is one separator or a
    non-empty run without separators, and no two runs are adjacent. *)
Definition isSepToken (w : str) : bool :=
  match w with
  | [c] => isSeparator c
  | _ => false
  end.

Definition isWordToken (w : str) : bool := negb (empty w) && noSeparator w.

Fixpoint wellFormed (tokens : list str) : bool :=
  match tokens with
  | [] => true
  | w :: rest =>
      (isSepToken w
       || (isWordToken w
           && match rest with
              | w' :: _ => isSepToken w'
              | [] => true
              end))
      && wellFormed rest
  end.

(** Typing at the end of the text: each word is typed, then the space
    key is pressed with the cursor at the end. *)
Fixpoint typeWords (config : NepaliConverterConfig) (text : str)
  (words : list str) : str :=
  match words with
  | [] => text
  | w :: rest =>
      typeWords config
        (fst (handleSpaceKey config (text ++ w)
                (Z.of_nat (length (text ++ w)))))
        rest
  end.

(** A character that is neither a word character nor white space. *)
Definition hard (c : N) : bool := negb (isWordChar c) && negb (isWhiteSpace c).

(** The number of word characters of a text. *)
Definition wordCount (s : str) : nat := length (filter isWordChar s).

(** A character that no key holds and that the look-ahead does not take
    for a consonant: a digit, a symbol, white space, a glyph, or one of
    the letters [f], [q], [x], [z]. *)
Definition barrier (c : N) : bool :=
  negb (inAlphabet c) && negb (isConsonantChar [c]).

(** The single-character branch as a function of what it reads: the
    character, whether a consonant follows, and the vowel signs found
    for the next character and for the next two. *)
Definition resolve (singleChar : str) (consonantNext : bool)
  (sign1 sign2 : option str) (i : nat) : str * nat :=
  match truthy (get vowels singleChar) with
  | Some v => (v, i + 1)
  | None =>
      match truthy (get baseConsonants singleChar) with
      | Some base =>
          if consonantNext then
            match sign2 with
            | Some m => (base ++ m, i + 3)
            | None =>
                match sign1 with
                | Some m => (base ++ m, i + 2)
                | None =>
                    match truthy (get halfConsonants singleChar) with
                    | Some halfConsonant => (halfConsonant, i + 1)
                    | None => (base, i + 1)
                    end
                end
            end
          else
            match sign1 with
            | Some m => (base ++ m, i + 2)
            | None =>
                match sign2 with
                | Some m => (base ++ m, i + 3)
                | None => (base, i + 1)
                end
            end
      | None => (singleChar, i + 1)
      end
  end.

(** Whether the look-ahead takes the next character for a consonant. *)
Definition consonantNext (nextChar : option str) : bool :=
  match nextChar with
  | Some n => isConsonantChar n && negb (isVowelChar n)
  | None => false
  end.

(** ** Proof automation for character classes *)

Lemma range_spec (lo hi : ascii) (c : N) :
  range lo hi c = true <-> (code lo <= c <= code hi)%N.
Proof.
  unfold range. rewrite andb_true_iff, !N.leb_le. reflexivity.
Qed.

Lemma oneOf_In (set : str) (c : N) : oneOf set c = true <-> In c set.
Proof.
  unfold oneOf. rewrite existsb_exists. split.
  - intros (x & Hx & E). apply N.eqb_eq in E. now subst.
  - intros H. exists c. split; [assumption | apply N.eqb_refl].
Qed.

Ltac bool_goal :=
  lazymatch goal with
  | |- @eq bool _ true => idtac
  | |- @eq bool _ false => idtac
  | |- @eq bool _ _ => apply eq_true_iff_eq
  | |- _ => idtac
  end.

Ltac to_prop :=
  rewrite <- ?not_true_iff_false in *;
  rewrite ?orb_true_iff, ?andb_true_iff, ?negb_true_iff, ?range_spec,
    ?oneOf_In, ?N.eqb_eq, ?N.leb_le, ?N.ltb_lt in *.

(** Decides a fact about the class of one code unit: the classes are
    unfolded to comparisons with constants and handed to [lia]. *)
Ltac chars :=
  unfold letter, isSeparator, isWordChar, isWhiteSpace, isHigh, isLow,
    nepali, devanagari in *;
  repeat match goal with
         | H : context [if ?b then _ else _] |- _ => destruct b eqn:?
         | |- context [if ?b then _ else _] => destruct b eqn:?
         end;
  bool_goal; repeat (progress to_prop); cbn in *; lia.

(** ** Host strings: basic facts *)

Lemma eqb_eq (a b : str) : eqb a b = true <-> a = b.
Proof.
  revert b; induction a as [|x a IH]; intros [|y b]; simpl; split;
    try congruence; try reflexivity.
  - intros H. apply andb_true_iff in H as [Hx Hab].
    apply N.eqb_eq in Hx. apply IH in Hab. congruence.
  - intros H. injection H as -> ->.
    rewrite N.eqb_refl. simpl. now apply IH.
Qed.

Lemma get_In (t : table) (k v : str) : get t k = Some v -> In (k, v) t.
Proof.
  induction t as [|[k' v'] t IH]; simpl; [discriminate|].
  destruct (get t k) as [w|] eqn:E.
  - intros H. injection H as <-. right. now apply IH.
  - destruct (eqb k' k) eqn:Ek; [|discriminate].
    intros H. injection H as <-. apply eqb_eq in Ek. subst. now left.
Qed.

(** Whatever holds of every entry of a table holds of every entry read. *)
Lemma get_forallb (p : str * str -> bool) (t : table) (k v : str) :
  forallb p t = true -> get t k = Some v -> p (k, v) = true.
Proof.
  intros Hall Hget. apply get_In in Hget.
  rewrite forallb_forall in Hall. now apply Hall.
Qed.

Lemma truthy_Some (o : option str) (v : str) :
  truthy o = Some v -> o = Some v /\ v <> [].
Proof.
  destruct o as [[|c s]|]; simpl; try discriminate.
  intros H. injection H as <-. split; [reflexivity | discriminate].
Qed.

Lemma orElse_Some (a b : option str) (v : str) :
  orElse a b = Some v -> a = Some v \/ b = Some v.
Proof.
  unfold orElse. destruct (truthy a) as [w|] eqn:E.
  - intros H. injection H as <-. left. now apply truthy_Some in E.
  - intros H. right. now apply truthy_Some in H.
Qed.

Lemma substring_length (s : str) (i n : nat) :
  i + n <= length s -> length (substring s i (i + n)) = n.
Proof.
  intros H. unfold substring.
  rewrite length_firstn, length_skipn. lia.
Qed.

Lemma substring_from (s : str) (i n : nat) :
  i + n <= length s -> substring s i (i + n) = firstn n (skipn i s).
Proof.
  intros H. unfold substring. f_equal. lia.
  f_equal. lia.
Qed.

Lemma substring_prefix (s : str) (n : nat) :
  substring s 0 n = firstn n s.
Proof.
  unfold substring.
  rewrite (Nat.min_0_l (length s)), Nat.min_0_l, Nat.max_0_l, Nat.sub_0_r.
  simpl skipn.
  destruct (Nat.le_gt_cases n (length s)).
  - now rewrite Nat.min_l by assumption.
  - rewrite Nat.min_r by lia.
    rewrite !firstn_all2 by lia. reflexivity.
Qed.

Lemma substring_suffix (s : str) (n : nat) :
  substring s n (length s) = skipn n s.
Proof.
  unfold substring.
  rewrite (Nat.min_l (length s)) by lia.
  destruct (Nat.le_gt_cases n (length s)).
  - rewrite (Nat.min_l n) by assumption.
    rewrite Nat.min_l, Nat.max_r by lia.
    apply firstn_all2. rewrite length_skipn. lia.
  - rewrite (Nat.min_r n) by lia.
    rewrite Nat.min_l, Nat.max_l by lia.
    rewrite Nat.sub_diag. simpl.
    symmetry. apply skipn_all2. lia.
Qed.

Lemma firstn_next (s : str) (i n : nat) :
  firstn (i + n) s = firstn i s ++ firstn n (skipn i s).
Proof.
  revert s; induction i as [|i IH]; intros s; simpl.
  - reflexivity.
  - destruct s as [|c s]; simpl.
    + now rewrite firstn_nil.
    + now rewrite IH.
Qed.

Lemma firstn_incl (s : str) (n : nat) (c : N) : In c (firstn n s) -> In c s.
Proof.
  intros H. rewrite <- (firstn_skipn n s). apply in_or_app. now left.
Qed.

Lemma skipn_incl (s : str) (n : nat) (c : N) : In c (skipn n s) -> In c s.
Proof.
  intros H. rewrite <- (firstn_skipn n s). apply in_or_app. now right.
Qed.

Lemma substring_incl (s : str) (a b : nat) (c : N) :
  In c (substring s a b) -> In c s.
Proof.
  unfold substring. intros H.
  apply firstn_incl in H. now apply skipn_incl in H.
Qed.

Lemma index_In (s : str) (i : nat) (c : N) :
  In c (index s i) -> In c s.
Proof.
  unfold index. intros H.
  apply firstn_incl in H. now apply skipn_incl in H.
Qed.

Lemma index_length (s : str) (i : nat) :
  i < length s -> length (index s i) = 1.
Proof.
  intros H. unfold index. rewrite length_firstn, length_skipn. lia.
Qed.

Lemma index_substring (s : str) (i : nat) :
  i < length s -> index s i = substring s i (i + 1).
Proof. intros H. unfold index. now rewrite substring_from by lia. Qed.

(** ** Termination of the composition loop *)

Lemma singleCharStep_bounds (text : str) (i : nat) :
  i < length text ->
  i < snd (singleCharStep text i) <= length text.
Proof.
  intros Hi. unfold singleCharStep, matraOf.
  destruct (i + 1 <? length text) eqn:H1;
    [apply Nat.ltb_lt in H1 | apply Nat.ltb_ge in H1];
  (destruct (i + 2 <? length text) eqn:H2;
    [apply Nat.ltb_lt in H2 | apply Nat.ltb_ge in H2]);
  cbv zeta;
  repeat match goal with
         | |- context [match truthy ?x with _ => _ end] =>
             destruct (truthy x)
         | |- context [if ?x then _ else _] => destruct x
         end; simpl; lia.
Qed.

Lemma iteration_bounds (text : str) (i : nat) :
  i < length text ->
  i < snd (iteration text i) <= length text.
Proof.
  intros Hi. unfold iteration.
  destruct (i + 4 <=? length text) eqn:H4;
    [apply Nat.leb_le in H4;
     destruct (tableMatch (substring text i (i + 4))); [simpl; lia|]|];
  (destruct (i + 3 <=? length text) eqn:H3;
    [apply Nat.leb_le in H3;
     destruct (tableMatch (substring text i (i + 3))); [simpl; lia|]|]);
  (destruct (i + 2 <=? length text) eqn:H2;
    [apply Nat.leb_le in H2;
     destruct (twoCharMatch (substring text i (i + 2))); [simpl; lia|]|]);
  now apply singleCharStep_bounds.
Qed.

(** An invariant of the loop that each iteration keeps holds of the
    result, at the end of the text, as soon as the fuel covers what is
    left of the text. *)
Lemma loop_invariant (P : nat -> str -> Prop) (text : str) :
  (forall i result, i < length text -> P i result ->
     P (snd (iteration text i)) (result ++ fst (iteration text i))) ->
  forall fuel i result,
    i <= length text -> length text - i <= fuel -> P i result ->
    P (length text) (loop fuel text i result).
Proof.
  intros Hstep fuel.
  induction fuel as [|fuel IH]; intros i result Hle Hfuel HP; simpl.
  - now replace (length text) with i by lia.
  - destruct (i <? length text) eqn:Hi.
    + apply Nat.ltb_lt in Hi.
      pose proof (iteration_bounds text i Hi) as Hb.
      pose proof (Hstep i result Hi HP) as HP'.
      destruct (iteration text i) as [out i']. simpl in *.
      apply IH; [lia | lia | assumption].
    + apply Nat.ltb_ge in Hi.
      now replace (length text) with i by lia.
Qed.

(** The loop stops because the position reaches the end of the text, not
    because the fuel runs out: any fuel that covers the rest of the text
    gives the same result. *)
Lemma loop_fuel (text : str) (fuel fuel' : nat) (i : nat) (result : str) :
  length text - i <= fuel -> length text - i <= fuel' ->
  loop fuel text i result = loop fuel' text i result.
Proof.
  revert fuel' i result.
  induction fuel as [|fuel IH]; intros [|fuel'] i result H H'; simpl;
    try reflexivity.
  - replace (i <? length text) with false; [reflexivity|].
    symmetry. apply Nat.ltb_ge. lia.
  - replace (i <? length text) with false; [reflexivity|].
    symmetry. apply Nat.ltb_ge. lia.
  - destruct (i <? length text) eqn:Hi; [|reflexivity].
    apply Nat.ltb_lt in Hi.
    pose proof (iteration_bounds text i Hi) as Hb.
    destruct (iteration text i) as [out i']. simpl in Hb.
    apply IH; lia.
Qed.

(** ** Code points *)

Lemma str_pairs_ind (P : str -> Prop) :
  P [] -> (forall u, P [u]) ->
  (forall u l r, P r -> P (l :: r) -> P (u :: l :: r)) ->
  forall s, P s.
Proof.
  intros H0 H1 H2 s.
  assert (A : P s /\ forall u, P (u :: s)).
  { induction s as [|l r [IH1 IH2]].
    - split; [exact H0 | exact H1].
    - split; [apply IH2 | intros u; apply H2; [exact IH1 | apply IH2]]. }
  apply A.
Qed.

Lemma points_cons2 (u l : N) (r : str) :
  points (u :: l :: r)
  = if isHigh u && isLow l then Pair u l :: points r
    else Unit u :: points (l :: r).
Proof. reflexivity. Qed.

Lemma points_unit (u : N) (r : str) :
  isHigh u = false -> points (u :: r) = Unit u :: points r.
Proof.
  intros H. destruct r as [|l r]; [reflexivity|].
  now rewrite points_cons2, H.
Qed.

Lemma points_lone (u : N) (r : str) :
  match r with l :: _ => isLow l | [] => false end = false ->
  points (u :: r) = Unit u :: points r.
Proof.
  intros H. destruct r as [|l r]; [reflexivity|].
  now rewrite points_cons2, H, andb_false_r.
Qed.

Lemma points_pair (h l : N) (r : str) :
  isHigh h = true -> isLow l = true ->
  points (h :: l :: r) = Pair h l :: points r.
Proof. intros Hh Hl. now rewrite points_cons2, Hh, Hl. Qed.

Lemma fromPoints_cons (p : point) (ps : list point) :
  fromPoints (p :: ps) = units p ++ fromPoints ps.
Proof. reflexivity. Qed.

Lemma fromPoints_app (a b : list point) :
  fromPoints (a ++ b) = fromPoints a ++ fromPoints b.
Proof. unfold fromPoints. apply flat_map_app. Qed.

Lemma fromPoints_points (s : str) : fromPoints (points s) = s.
Proof.
  induction s as [| u | u l r IHr IHl] using str_pairs_ind;
    try reflexivity.
  rewrite points_cons2. destruct (isHigh u && isLow l).
  - rewrite fromPoints_cons, IHr. reflexivity.
  - rewrite fromPoints_cons, IHl. reflexivity.
Qed.

Lemma points_plain (a b : str) :
  forallb (fun u => negb (isHigh u)) a = true ->
  points (a ++ b) = map Unit a ++ points b.
Proof.
  induction a as [|u a IH]; intros H; [reflexivity|].
  cbn [forallb] in H. apply andb_true_iff in H as [Hu Ha].
  apply negb_true_iff in Hu.
  cbn [app map]. now rewrite points_unit, IH.
Qed.

Lemma points_units (a : str) :
  forallb (fun u => negb (isHigh u)) a = true -> points a = map Unit a.
Proof.
  intros H. rewrite <- (app_nil_r a) at 1.
  rewrite points_plain by assumption. apply app_nil_r.
Qed.

Lemma points_nil (s : str) : points s = [] -> s = [].
Proof.
  intros H. rewrite <- (fromPoints_points s), H. reflexivity.
Qed.

Lemma wellPaired_points (s : str) : wellPaired (points s) = true.
Proof.
  induction s as [| u | u l r IHr IHl] using str_pairs_ind;
    [reflexivity | cbn; now rewrite andb_false_r |].
  rewrite points_cons2. destruct (isHigh u && isLow l) eqn:E.
  - cbn [wellPaired genuine endsHigh]. now rewrite E, IHr.
  - cbn [wellPaired genuine]. rewrite IHl, andb_true_r. cbn [andb].
    apply negb_true_iff.
    destruct r as [|l' r]; [cbn in *; now rewrite E|].
    rewrite points_cons2.
    destruct (isHigh l && isLow l') eqn:E'; cbn [startsLow endsHigh].
    + apply andb_false_r.
    + exact E.
Qed.

Lemma fromPoints_nil (ps : list point) : fromPoints ps = [] -> ps = [].
Proof. destruct ps as [|[u|h l] ps]; [reflexivity | discriminate ..]. Qed.

Lemma startsLow_units (ps : list point) :
  wellPaired ps = true ->
  match fromPoints ps with l :: _ => isLow l | [] => false end
  = startsLow ps.
Proof.
  destruct ps as [|[u|h l] ps]; try reflexivity.
  cbn [wellPaired genuine]. intros H.
  apply andb_true_iff in H as [H _]. apply andb_true_iff in H as [H _].
  apply andb_true_iff in H as [Hh _].
  cbn [fromPoints flat_map units app startsLow].
  destruct (isLow h) eqn:E; [|reflexivity]. exfalso. chars.
Qed.

(** Decoding undoes encoding on a list as [points] gives them. *)
Lemma points_fromPoints (ps : list point) :
  wellPaired ps = true -> points (fromPoints ps) = ps.
Proof.
  induction ps as [|p ps IH]; [reflexivity|].
  intros H. pose proof H as H'. cbn [wellPaired] in H.
  apply andb_true_iff in H as [H Hps].
  apply andb_true_iff in H as [Hg Hb]. apply negb_true_iff in Hb.
  rewrite fromPoints_cons. destruct p as [u|h l]; cbn [units app].
  - cbn [endsHigh] in Hb.
    destruct (isHigh u) eqn:Eu.
    + rewrite points_lone; [now rewrite IH|].
      now rewrite startsLow_units.
    + now rewrite points_unit, IH.
  - cbn [genuine] in Hg. apply andb_true_iff in Hg as [Hh Hl].
    now rewrite points_pair, IH.
Qed.

(** ** Lower case *)

Lemma lowerIn_cons (lo hi step target : N) (r : list (N * N * N * N)) (c : N) :
  lowerIn ((lo, hi, step, target) :: r) c
  = if (c <? lo)%N then None
    else if ((c <=? hi) && ((c - lo) mod step =? 0))%N
         then Some (target + (c - lo))%N
         else lowerIn r c.
Proof. reflexivity. Qed.

Lemma lowerIn_target (runs : list (N * N * N * N)) (c c' : N) :
  lowerIn runs c = Some c' -> In c' (flat_map runTargets runs).
Proof.
  induction runs as [|[[[lo hi] step] target] runs IH]; [discriminate|].
  rewrite lowerIn_cons. cbn [flat_map].
  destruct (c <? lo)%N eqn:Elo; [discriminate|].
  destruct ((c <=? hi) && ((c - lo) mod step =? 0))%N eqn:E.
  - intros H. injection H as <-. apply in_or_app. left.
    apply andb_true_iff in E as [Ehi Emod].
    apply N.ltb_ge in Elo. apply N.leb_le in Ehi. apply N.eqb_eq in Emod.
    apply N.Div0.div_exact in Emod.
    unfold runTargets. apply in_map_iff.
    exists (N.to_nat ((c - lo) / step)). split.
    + rewrite N2Nat.id. rewrite N.mul_comm, <- Emod. reflexivity.
    + apply in_seq. split; [apply Nat.le_0_l|].
      assert (L : ((c - lo) / step <= (hi - lo) / step)%N)
        by (apply N.Div0.div_le_mono; lia).
      set (x := ((c - lo) / step)%N) in *.
      set (y := ((hi - lo) / step)%N) in *. lia.
  - intros H. apply in_or_app. right. now apply IH.
Qed.

Lemma good_targets : forallb (fun c => good (ofScalar c)) targets = true.
Proof. vm_compute. reflexivity. Qed.

Lemma lowerIn_good (c c' : N) :
  lowerIn lowerRuns c = Some c' -> good (ofScalar c') = true.
Proof.
  intros H. apply lowerIn_target in H.
  pose proof good_targets as G. rewrite forallb_forall in G.
  now apply G.
Qed.

(** The form of a code point is the code point itself, or code points
    that lower-casing leaves alone. *)
Lemma lowerPoint_out (p : point) :
  (lowerPoint p = [p] /\ fixedPoint p = true)
  \/ (forallb good (lowerPoint p) = true /\ lowerPoint p <> []
      /\ fixedPoint p = false).
Proof.
  unfold lowerPoint, fixedPoint.
  destruct (scalar p =? 0x130)%N.
  - right. split; [|split];
      [vm_compute; reflexivity | discriminate | reflexivity].
  - destruct (lowerIn lowerRuns (scalar p)) as [c|] eqn:E.
    + right. split; [|split]; [|discriminate | reflexivity].
      cbn [forallb]. now rewrite (lowerIn_good _ _ E).
    + left. now split.
Qed.

Lemma sigma_source (p : point) :
  (scalar p =? 0x3A3)%N = true -> fixedPoint p = false.
Proof.
  intros H. apply N.eqb_eq in H. unfold fixedPoint. rewrite H.
  vm_compute. reflexivity.
Qed.

(** One step of the conversion. *)
Lemma lowerPoints_cons (b : bool) (p : point) (r : list point) :
  exists out,
    lowerPoints b (p :: r)
    = out ++ lowerPoints (if caseIgnorable p then b else cased p) r
    /\ ((out = [p] /\ fixedPoint p = true)
        \/ (forallb good out = true /\ out <> [] /\ fixedPoint p = false)).
Proof.
  cbn [lowerPoints].
  destruct (scalar p =? 0x3A3)%N eqn:S.
  - eexists. split; [reflexivity|]. right.
    split; [|split]; [|discriminate | now apply sigma_source].
    destruct (b && negb (followedByCased r)); vm_compute; reflexivity.
  - exists (lowerPoint p). split; [reflexivity|]. apply lowerPoint_out.
Qed.

Lemma lowerPoints_fixed (b : bool) (ps : list point) :
  forallb fixedPoint ps = true -> lowerPoints b ps = ps.
Proof.
  revert b. induction ps as [|p ps IH]; intros b H; [reflexivity|].
  cbn [forallb] in H. apply andb_true_iff in H as [Hp Hps].
  destruct (lowerPoints_cons b p ps) as (out & -> & [[-> _]|(_ & _ & F)]).
  - cbn [app]. now rewrite IH.
  - congruence.
Qed.

Lemma good_fixed (out : list point) :
  forallb good out = true -> forallb fixedPoint out = true.
Proof.
  intros H. rewrite forallb_forall in *. intros q Hq.
  specialize (H q Hq). unfold good in H.
  do 3 (apply andb_true_iff in H as [H _]). exact H.
Qed.

Lemma lowerPoints_stable (b : bool) (ps : list point) :
  forallb fixedPoint (lowerPoints b ps) = true.
Proof.
  revert b. induction ps as [|p ps IH]; intros b; [reflexivity|].
  destruct (lowerPoints_cons b p ps) as (out & -> & [[-> F]|(G & _ & _)]);
    rewrite forallb_app, IH, andb_true_r.
  - cbn [forallb]. now rewrite F.
  - now apply good_fixed.
Qed.

Lemma lowerPoints_nil (b : bool) (ps : list point) :
  lowerPoints b ps = [] -> ps = [].
Proof.
  destruct ps as [|p ps]; [reflexivity|].
  destruct (lowerPoints_cons b p ps) as (out & -> & [[-> _]|(_ & N & _)]);
    intros H; apply app_eq_nil in H as [H _]; [discriminate | congruence].
Qed.

Lemma good_clean (q : point) :
  good q = true -> genuine q = true /\ endsHigh q = false
                   /\ startsLow [q] = false.
Proof.
  unfold good. intros H.
  apply andb_true_iff in H as [H _]. apply andb_true_iff in H as [H _].
  apply andb_true_iff in H as [_ H].
  destruct q as [u|h l]; cbn [clean genuine endsHigh startsLow] in *.
  - apply andb_true_iff in H as [H1 H2].
    apply negb_true_iff in H1, H2. now repeat split.
  - now repeat split.
Qed.

Lemma startsLow_app (a b : list point) :
  a <> [] -> startsLow (a ++ b) = startsLow a.
Proof. destruct a as [|[u|h l] a]; [congruence | reflexivity ..]. Qed.

Lemma startsLow_good (out : list point) :
  forallb good out = true -> startsLow out = false.
Proof.
  destruct out as [|q out]; [reflexivity|]. cbn [forallb].
  intros H. apply andb_true_iff in H as [H _].
  destruct (good_clean q H) as (_ & _ & S).
  destruct q; [exact S | reflexivity].
Qed.

Lemma startsLow_lower (b : bool) (ps : list point) :
  startsLow (lowerPoints b ps) = startsLow ps.
Proof.
  destruct ps as [|p ps]; [reflexivity|].
  destruct (lowerPoints_cons b p ps) as (out & -> & [[-> _]|(G & N & F)]).
  - now destruct p.
  - rewrite startsLow_app by assumption. rewrite (startsLow_good out G).
    destruct p as [u|h l]; [|reflexivity]. cbn [startsLow].
    destruct (isLow u) eqn:E; [|reflexivity].
    (* a low surrogate on its own is its own lower-case form *)
    exfalso. revert F. unfold fixedPoint. cbn [scalar].
    assert (A : forallb (fun u => fixedPoint (Unit u))
                  (map (fun i => 0xDC00 + N.of_nat i)%N (seq 0 1024)) = true)
      by (vm_compute; reflexivity).
    rewrite forallb_forall in A.
    assert (I : In u (map (fun i => 0xDC00 + N.of_nat i)%N (seq 0 1024))).
    { apply in_map_iff. exists (N.to_nat (u - 0xDC00)). split.
      - unfold isLow in E. apply andb_true_iff in E as [E1 E2].
        apply N.leb_le in E1. lia.
      - apply in_seq. unfold isLow in E. apply andb_true_iff in E as [E1 E2].
        apply N.leb_le in E1, E2. lia. }
    specialize (A u I). unfold fixedPoint in A. cbn [scalar] in A.
    now rewrite A.
Qed.

Lemma wellPaired_good (out rest : list point) :
  forallb good out = true -> wellPaired (out ++ rest) = wellPaired rest.
Proof.
  induction out as [|q out IH]; intros H; [reflexivity|].
  cbn [forallb] in H. apply andb_true_iff in H as [Hq Hout].
  destruct (good_clean q Hq) as (G & E & _).
  cbn [app wellPaired]. now rewrite G, E, IH.
Qed.

Lemma wellPaired_lower (b : bool) (ps : list point) :
  wellPaired ps = true -> wellPaired (lowerPoints b ps) = true.
Proof.
  revert b. induction ps as [|p ps IH]; intros b H; [reflexivity|].
  cbn [wellPaired] in H. apply andb_true_iff in H as [H Hps].
  apply andb_true_iff in H as [Hg Hb].
  destruct (lowerPoints_cons b p ps) as (out & -> & [[-> _]|(G & _ & _)]).
  - cbn [app wellPaired]. rewrite Hg, startsLow_lower, Hb. cbn [andb].
    now apply IH.
  - rewrite wellPaired_good by assumption. now apply IH.
Qed.

Lemma points_lower (s : str) :
  points (toLowerCase s) = lowerPoints false (points s).
Proof.
  unfold toLowerCase. apply points_fromPoints, wellPaired_lower,
    wellPaired_points.
Qed.

(** Lower-casing gives a text that lower-casing leaves alone. *)
Lemma stable_lower (s : str) : stable (toLowerCase s) = true.
Proof. unfold stable. rewrite points_lower. apply lowerPoints_stable. Qed.

Lemma stable_fixed (s : str) : stable s = true -> toLowerCase s = s.
Proof.
  intros H. unfold toLowerCase, stable in *.
  rewrite lowerPoints_fixed by assumption. apply fromPoints_points.
Qed.

Lemma toLowerCase_idempotent (s : str) :
  toLowerCase (toLowerCase s) = toLowerCase s.
Proof. apply stable_fixed, stable_lower. Qed.

Lemma steady_stable (s : str) : forallb steady s = true -> stable s = true.
Proof.
  intros H. unfold stable. rewrite points_units.
  - rewrite forallb_forall in *. intros p Hp.
    apply in_map_iff in Hp as (u & <- & Hu).
    specialize (H u Hu). unfold steady in H.
    now apply andb_true_iff in H as [_ H].
  - rewrite forallb_forall in *. intros u Hu.
    specialize (H u Hu). unfold steady in H.
    apply andb_true_iff in H as [H _]. now apply andb_true_iff in H as [H _].
Qed.

Lemma toLowerCase_fixed (s : str) :
  forallb steady s = true -> toLowerCase s = s.
Proof. intros H. now apply stable_fixed, steady_stable. Qed.

Lemma empty_false (s : str) : empty s = false <-> s <> [].
Proof. destruct s; simpl; split; congruence. Qed.

Lemma toLowerCase_nil (s : str) : toLowerCase s = [] -> s = [].
Proof.
  unfold toLowerCase. intros H.
  apply fromPoints_nil, lowerPoints_nil in H. now apply points_nil.
Qed.

Lemma toLowerCase_empty (s : str) : empty (toLowerCase s) = empty s.
Proof.
  destruct s as [|c s]; [reflexivity|].
  cbn [empty]. apply empty_false. intros H.
  apply toLowerCase_nil in H. discriminate.
Qed.

(** *** Classes of code units that lower-casing leaves alone *)

Lemma between_forallb (P : N -> bool) (lo : N) (n : nat) :
  forallb P (map (fun i => (lo + N.of_nat i)%N) (seq 0 n)) = true ->
  forall u, (lo <= u < lo + N.of_nat n)%N -> P u = true.
Proof.
  intros H u Hu. rewrite forallb_forall in H. apply H.
  apply in_map_iff. exists (N.to_nat (u - lo)). split; [lia|].
  apply in_seq. lia.
Qed.

Lemma ascii_steady (u : N) :
  (u <? 0x80)%N = true -> range "A" "Z" u = false -> steady u = true.
Proof.
  intros H U.
  assert (A : forallb (fun u => range "A" "Z" u || steady u)
                (map (fun i => (0 + N.of_nat i)%N) (seq 0 128)) = true)
    by (vm_compute; reflexivity).
  apply N.ltb_lt in H.
  pose proof (between_forallb _ _ _ A u ltac:(lia)) as B.
  cbv beta in B. rewrite U in B. exact B.
Qed.

Lemma devanagari_steady (u : N) : devanagari u = true -> steady u = true.
Proof.
  intros H.
  assert (B : (0x900 <= u < 0x900 + N.of_nat 128)%N) by chars.
  assert (A : forallb steady
                (map (fun i => (0x900 + N.of_nat i)%N) (seq 0 128)) = true)
    by (vm_compute; reflexivity).
  exact (between_forallb _ _ _ A u B).
Qed.

(** *** The two ends of a lower-cased text *)

Lemma hd_rev (s : str) (d : N) : hd d (rev s) = last s d.
Proof.
  induction s as [|c s IH]; [reflexivity|]. simpl rev.
  destruct s as [|c' s]; [reflexivity|].
  change (last (c :: c' :: s) d) with (last (c' :: s) d). rewrite <- IH.
  simpl rev. destruct (rev s ++ [c']) eqn:E; [|reflexivity].
  apply (f_equal (@length N)) in E. rewrite length_app in E. simpl in E. lia.
Qed.

Lemma last_rev (s : str) (d : N) : last (rev s) d = hd d s.
Proof. rewrite <- (rev_involutive s) at 2. now rewrite hd_rev. Qed.

Lemma last_app_nonempty (a b : str) (d : N) :
  b <> [] -> last (a ++ b) d = last b d.
Proof.
  intros Hb. induction a as [|c a IH]; [reflexivity|].
  cbn [app]. destruct (a ++ b) as [|x l] eqn:E.
  - apply app_eq_nil in E as [_ E]. congruence.
  - change (last (c :: x :: l) d) with (last (x :: l) d). exact IH.
Qed.

Lemma last_In (s : str) (d : N) : s <> [] -> In (last s d) s.
Proof.
  induction s as [|c s IH]; [congruence|]. intros _.
  destruct s as [|c' s]; [now left|]. right. apply IH. discriminate.
Qed.

Lemma good_units (out : list point) (u : N) :
  forallb good out = true -> In u (fromPoints out) -> isWhiteSpace u = false.
Proof.
  intros G I. unfold fromPoints in I. apply in_flat_map in I as (q & Hq & Hu).
  rewrite forallb_forall in G. specialize (G q Hq). unfold good in G.
  apply andb_true_iff in G as [G _]. apply andb_true_iff in G as [_ G].
  rewrite forallb_forall in G. apply negb_true_iff. now apply G.
Qed.

Lemma fromPoints_nonempty (ps : list point) : ps <> [] -> fromPoints ps <> [].
Proof. intros H E. now apply fromPoints_nil in E. Qed.

Lemma hd_units (p : point) (a b : str) (d : N) :
  hd d (units p ++ a) = hd d (units p ++ b).
Proof. now destruct p. Qed.

Lemma lower_hd (s : str) :
  isWhiteSpace (hd 0%N (toLowerCase s)) = true ->
  isWhiteSpace (hd 0%N s) = true.
Proof.
  unfold toLowerCase. rewrite <- (fromPoints_points s) at 2.
  destruct (points s) as [|p ps]; [trivial|].
  destruct (lowerPoints_cons false p ps) as (out & -> & [[-> _]|(G & N & _)]).
  - cbn [app]. rewrite !fromPoints_cons.
    now rewrite (hd_units p _ (fromPoints ps)).
  - intros W. exfalso.
    rewrite fromPoints_app in W.
    pose proof (fromPoints_nonempty out N) as Ne.
    destruct (fromPoints out) as [|u o] eqn:E; [congruence|].
    cbn [app hd] in W.
    rewrite (good_units out u G) in W; [discriminate|].
    rewrite E. now left.
Qed.

Lemma lowerPoints_last (b : bool) (ps : list point) :
  isWhiteSpace (last (fromPoints (lowerPoints b ps)) 0%N) = true ->
  isWhiteSpace (last (fromPoints ps) 0%N) = true.
Proof.
  revert b. induction ps as [|p r IH]; intros b; [trivial|].
  destruct (lowerPoints_cons b p r) as (out & -> & H).
  rewrite fromPoints_app, fromPoints_cons.
  destruct r as [|p' r'].
  - cbn [lowerPoints fromPoints flat_map]. rewrite !app_nil_r.
    destruct H as [[-> _]|(G & N & _)].
    + cbn [fromPoints flat_map]. now rewrite app_nil_r.
    + intros W. exfalso. pose proof (fromPoints_nonempty out N) as Ne.
      rewrite (good_units out _ G) in W; [discriminate|].
      now apply last_In.
  - set (b' := if caseIgnorable p then b else cased p).
    assert (N1 : fromPoints (lowerPoints b' (p' :: r')) <> []).
    { apply fromPoints_nonempty. intros E.
      apply lowerPoints_nil in E. discriminate. }
    assert (N2 : fromPoints (p' :: r') <> [])
      by (apply fromPoints_nonempty; discriminate).
    rewrite !last_app_nonempty by assumption. apply IH.
Qed.

Lemma lower_last (s : str) :
  isWhiteSpace (last (toLowerCase s) 0%N) = true ->
  isWhiteSpace (last s 0%N) = true.
Proof.
  unfold toLowerCase. intros H. apply lowerPoints_last in H.
  now rewrite fromPoints_points in H.
Qed.

(** *** Lower case and layout *)

Lemma unfixed_source (p : point) :
  fixedPoint p = false -> alphabetic p = true.
Proof.
  unfold fixedPoint, alphabetic, hasCase, isSource. intros H.
  destruct (scalar p =? 0x130)%N; [reflexivity|].
  destruct (lowerIn lowerRuns (scalar p)); [reflexivity | discriminate].
Qed.

Lemma good_alphabetic (out : list point) :
  forallb good out = true ->
  filter (fun p => negb (alphabetic p)) out = [].
Proof.
  induction out as [|q out IH]; [reflexivity|]. cbn [forallb filter].
  intros H. apply andb_true_iff in H as [Hq Hout].
  unfold good in Hq. apply andb_true_iff in Hq as [_ Hq].
  unfold alphabetic at 1. rewrite Hq. cbn [orb negb]. now apply IH.
Qed.

Lemma lowerPoints_layout (b : bool) (ps : list point) :
  filter (fun p => negb (alphabetic p)) (lowerPoints b ps)
  = filter (fun p => negb (alphabetic p)) ps.
Proof.
  revert b. induction ps as [|p ps IH]; intros b; [reflexivity|].
  destruct (lowerPoints_cons b p ps) as (out & -> & [[-> _]|(G & _ & F)]);
    rewrite filter_app, IH.
  - cbn [filter]. now destruct (negb (alphabetic p)).
  - rewrite (good_alphabetic out G). cbn [app filter].
    now rewrite (unfixed_source p F).
Qed.

(** Lower-casing changes letters only. *)
Lemma layout_lower (s : str) : layout (toLowerCase s) = layout s.
Proof. unfold layout. rewrite points_lower. apply lowerPoints_layout. Qed.

(** ** Facts read off the tables *)

Lemma keys_in_alphabet :
  forallb (fun e => forallb inAlphabet (fst e)) allTables = true.
Proof. vm_compute. reflexivity. Qed.

Lemma values_nonempty :
  forallb (fun e => negb (empty (snd e))) allTables = true.
Proof. vm_compute. reflexivity. Qed.

Lemma keys_nonempty :
  forallb (fun e => negb (empty (fst e))) allTables = true.
Proof. vm_compute. reflexivity. Qed.

Lemma inherited_in_alphabet :
  forallb (existsb inAlphabet) objectPrototypeNames = true.
Proof. vm_compute. reflexivity. Qed.

(** The inherited names are longer than any key [convertAdvanced] reads. *)
Lemma inherited_long (k : str) : inherited k = true -> 7 <= length k.
Proof.
  unfold inherited. rewrite existsb_exists. intros (n & Hn & E).
  apply eqb_eq in E. subst n.
  assert (H : forallb (fun k => 7 <=? length k) objectPrototypeNames = true)
    by (vm_compute; reflexivity).
  rewrite forallb_forall in H. apply Nat.leb_le. now apply H.
Qed.

Lemma engineTable_incl (t : table) :
  engineTable t -> incl t allTables.
Proof.
  intros H e He. unfold allTables, mapping, getMapping.
  repeat rewrite in_app_iff.
  destruct H; unfold mapping, getMapping in He;
    repeat rewrite in_app_iff in He; tauto.
Qed.

Lemma engine_entry (p : str * str -> bool) (t : table) (k v : str) :
  forallb p allTables = true -> engineTable t -> get t k = Some v ->
  p (k, v) = true.
Proof.
  intros Hall Ht Hget. rewrite forallb_forall in Hall.
  apply Hall. apply (engineTable_incl t Ht). now apply get_In.
Qed.

Lemma get_key_alphabet (t : table) (k v : str) :
  engineTable t -> get t k = Some v -> forallb inAlphabet k = true.
Proof. intros Ht H. exact (engine_entry _ t k v keys_in_alphabet Ht H). Qed.

Lemma get_value_truthy (t : table) (k v : str) :
  engineTable t -> get t k = Some v -> truthy (Some v) = Some v.
Proof.
  intros Ht H. pose proof (engine_entry _ t k v values_nonempty Ht H) as E.
  simpl in E. now destruct v.
Qed.

Lemma get_key_nonempty (t : table) (v : str) :
  engineTable t -> get t [] = Some v -> False.
Proof.
  intros Ht H. pose proof (engine_entry _ t [] v keys_nonempty Ht H) as E.
  discriminate.
Qed.

(** ** White space *)

Lemma trimStart_blank (s : str) :
  forallb isWhiteSpace s = true -> trimStart s = [].
Proof.
  induction s as [|c s IH]; simpl; [reflexivity|].
  intros H. apply andb_true_iff in H as [Hc Hs]. rewrite Hc. now apply IH.
Qed.

Lemma trim_blank (s : str) :
  forallb isWhiteSpace s = true -> trim s = [].
Proof.
  intros H. unfold trim, trimEnd. now rewrite (trimStart_blank s H).
Qed.

(** ** Whole-word exceptions *)

(** An exception that is read is returned as it is, and the word that
    carries it is not blank. *)
Lemma convertWord_exception (config : NepaliConverterConfig) (word v : str) :
  enableCommonWords config = true ->
  get commonWords (toLowerCase (trim word)) = Some v ->
  convertWord config word = Some v.
Proof.
  intros Hen Hget. unfold convertWord.
  assert (Hne : trim word <> []).
  { intros E. rewrite E in Hget. simpl in Hget.
    exact (get_key_nonempty _ _ et_common Hget). }
  assert (Hw : word <> []) by (intros ->; now apply Hne).
  destruct word as [|c0 w0]; [congruence|].
  destruct (trim (c0 :: w0)) as [|c1 w1] eqn:Et; [congruence|].
  cbn [empty orb]. rewrite Hen, Hget.
  pose proof (get_value_truthy _ _ _ et_common Hget) as T.
  destruct v; [discriminate | reflexivity].
Qed.

Lemma short_exceptions_composed :
  forallb (fun e => if length (fst e) <=? 4
                    then eqb (convertAdvanced (fst e)) (snd e) else true)
          commonWords = true.
Proof. vm_compute. reflexivity. Qed.

(** C4: a word whose trimmed, lower-cased form is a key of the exception
    table is converted to that entry's value, as it is, whenever
    whole-word exceptions are enabled; what the composition algorithm
    would have produced plays no part. *)
Theorem C4_exception_precedence
  (config : NepaliConverterConfig) (word v : str) :
  enableCommonWords config = true ->
  get commonWords (toLowerCase (trim word)) = Some v ->
  convertWord config word = Some v.
Proof. exact (@convertWord_exception config word v). Qed.

Lemma C4_witness :
  convertWord initialConfig (utf16 " Garcha ") = Some (utf16 "गर्छ")
  /\ convertAdvanced (utf16 "garcha") <> utf16 "गर्छ".
Proof.
  split.
  - apply C4_exception_precedence; reflexivity.
  - vm_compute. discriminate.
Defined.

(** C8: the empty string and every string of white space only is
    returned unchanged by [convertWord]. *)
Theorem C8_blank_unchanged (config : NepaliConverterConfig) (word : str) :
  forallb isWhiteSpace word = true ->
  convertWord config word = Some word.
Proof.
  intros H. unfold convertWord. rewrite (trim_blank word H).
  simpl. now rewrite orb_true_r.
Qed.

Lemma C8_witness :
  convertWord initialConfig [] = Some []
  /\ convertWord initialConfig [0x20; 0x9; 0xA]%N = Some [0x20; 0x9; 0xA]%N.
Proof.
  split; apply C8_blank_unchanged; reflexivity.
Defined.

(** C9: a word whose trimmed, lower-cased form is an exception key of at
    most four code units is converted to the exception's value whatever
    the enableCommonWords flag says: with the flag off, the composition
    algorithm finds the same entry in the merged mapping table. *)
Theorem C9_short_exceptions_survive_flag
  (config : NepaliConverterConfig) (word v : str) :
  get commonWords (toLowerCase (trim word)) = Some v ->
  length (toLowerCase (trim word)) <= 4 ->
  convertWord config word = Some v.
Proof.
  intros Hget Hlen.
  destruct (enableCommonWords config) eqn:Hen.
  - now apply convertWord_exception.
  - unfold convertWord.
    assert (Hne : trim word <> []).
    { intros E. rewrite E in Hget. simpl in Hget.
      exact (get_key_nonempty _ _ et_common Hget). }
    destruct word as [|c0 w0]; [now elim Hne|].
    destruct (trim (c0 :: w0)) as [|c1 w1] eqn:Et; [congruence|].
    cbn [empty orb]. rewrite Hen. f_equal.
    pose proof (get_forallb _ _ _ _ short_exceptions_composed Hget) as E.
    cbn [fst snd] in E.
    apply Nat.leb_le in Hlen. rewrite Hlen in E. now apply eqb_eq.
Qed.

Lemma C9_witness :
  convertWord (withCommonWords false initialConfig) (utf16 "Ram")
    = Some (utf16 "राम")
  /\ convertWord (withCommonWords false initialConfig) (utf16 "mero")
    = Some (utf16 "मेरो")
  /\ convertWord (withCommonWords false initialConfig) (utf16 "cha")
    = Some (utf16 "छ").
Proof.
  split; [|split];
    (apply C9_short_exceptions_survive_flag; [reflexivity | simpl; lia]).
Defined.

(** ** Configuration flags *)

(** C10: [convertWord], [convertText] and [handleSpaceKey] give the same
    result whatever the value of the [preservePunctuation] flag: no
    operation of the engine reads it. *)
Theorem C10_preservePunctuation_ignored
  (config : NepaliConverterConfig) (b1 b2 : bool) (text : str) (cursor : Z) :
  convertWord (withPreservePunctuation b1 config) text
    = convertWord (withPreservePunctuation b2 config) text
  /\ convertText (withPreservePunctuation b1 config) text
    = convertText (withPreservePunctuation b2 config) text
  /\ handleSpaceKey (withPreservePunctuation b1 config) text cursor
    = handleSpaceKey (withPreservePunctuation b2 config) text cursor.
Proof.
  (* the three operations read [enableCommonWords] and
     [autoConvertOnSpace] only, which the update leaves alone *)
  split; [|split]; reflexivity.
Qed.

(** C3: the [caseSensitive] flag is never read.  With the flag set,
    [convertWord] still lower-cases its input: the word [T] is
    converted as [t] is, and the entry of the upper-case key [T] of the
    base-consonant table is not used. *)
Theorem C3_caseSensitive_not_consulted :
  caseSensitive (withCaseSensitive true initialConfig) = true
  /\ get baseConsonants (utf16 "T") = Some (utf16 "ट")
  /\ convertWord (withCaseSensitive true initialConfig) (utf16 "T")
     = Some (utf16 "त")
  /\ convertWord (withCaseSensitive true initialConfig) (utf16 "T")
     = convertWord (withCaseSensitive true initialConfig) (utf16 "t").
Proof. vm_compute. repeat split. Qed.

(** ** [handleSpaceKey] with the trigger disabled *)

(** C5, as stated, fails: with the trigger disabled the cursor is not
    advanced. *)
Lemma C5_counterexample :
  handleSpaceKey (withAutoConvertOnSpace false initialConfig) (utf16 "mero") 4
  <> (utf16 "mero", Int (4 + 1)).
Proof. vm_compute. discriminate. Qed.

(** C5, amended: with the trigger-on-space flag disabled,
    [handleSpaceKey] returns the text unchanged and the cursor position
    unchanged, whatever the text. *)
Theorem C5_disabled_returns_input
  (config : NepaliConverterConfig) (text : str) (cursorPosition : Z) :
  autoConvertOnSpace config = false ->
  handleSpaceKey config text cursorPosition = (text, Int cursorPosition).
Proof. intros H. unfold handleSpaceKey. now rewrite H. Qed.

Lemma C5_witness :
  handleSpaceKey (withAutoConvertOnSpace false initialConfig) (utf16 "mero") 4
  = (utf16 "mero", Int 4).
Proof. apply C5_disabled_returns_input. reflexivity. Defined.

(** ** Words outside the alphabets *)

Lemma outside_no_key (t : table) (text k : str) :
  engineTable t ->
  outsideAlphabets text = true ->
  (forall c, In c k -> In c text) ->
  k <> [] ->
  get t k = None.
Proof.
  intros Ht Hout Hsub Hne.
  destruct (get t k) as [v|] eqn:E; [|reflexivity].
  exfalso. apply (get_key_alphabet t k v Ht) in E.
  destruct k as [|c k]; [congruence|].
  simpl in E. apply andb_true_iff in E as [Hc _].
  unfold outsideAlphabets in Hout. rewrite forallb_forall in Hout.
  specialize (Hout c (Hsub c (or_introl eq_refl))).
  rewrite Hc in Hout. discriminate.
Qed.

Lemma substring_nonempty (s : str) (i n : nat) :
  i + S n <= length s -> substring s i (i + S n) <> [].
Proof.
  intros H E. apply (f_equal (@length N)) in E.
  rewrite substring_length in E by assumption. discriminate.
Qed.

Lemma index_nonempty (s : str) (i : nat) :
  i < length s -> index s i <> [].
Proof.
  intros H E. apply (f_equal (@length N)) in E.
  rewrite index_length in E by assumption. discriminate.
Qed.

Lemma outside_substring (t : table) (text : str) (i n : nat) :
  engineTable t ->
  outsideAlphabets text = true -> i + S n <= length text ->
  get t (substring text i (i + S n)) = None.
Proof.
  intros Ht Hout Hlen. apply (outside_no_key t text); try assumption.
  - intros c. apply substring_incl.
  - now apply substring_nonempty.
Qed.

Lemma outside_index (t : table) (text : str) (i : nat) :
  engineTable t ->
  outsideAlphabets text = true -> i < length text ->
  get t (index text i) = None.
Proof.
  intros Ht Hout Hlen. apply (outside_no_key t text); try assumption.
  - intros c. apply index_In.
  - now apply index_nonempty.
Qed.

Lemma outside_tableMatch (text : str) (i n : nat) :
  outsideAlphabets text = true -> i + S n <= length text ->
  tableMatch (substring text i (i + S n)) = None.
Proof.
  intros Hout Hlen. unfold tableMatch, orElse.
  rewrite (outside_substring consonantClusters text i n et_clusters Hout Hlen),
          (outside_substring mapping text i n et_mapping Hout Hlen).
  reflexivity.
Qed.

Lemma index_of_substring (text : str) (i n : nat) :
  i + S n <= length text ->
  index (substring text i (i + S n)) 0 = index text i.
Proof.
  intros H. unfold index. rewrite substring_from by assumption.
  rewrite skipn_O, firstn_firstn. reflexivity.
Qed.

Lemma outside_iteration (text : str) (i : nat) :
  outsideAlphabets text = true -> i < length text ->
  iteration text i = (index text i, i + 1).
Proof.
  intros Hout Hi. unfold iteration.
  assert (H4 : (if i + 4 <=? length text
                then tableMatch (substring text i (i + 4)) else None) = None).
  { destruct (i + 4 <=? length text) eqn:E; [|reflexivity].
    apply Nat.leb_le in E. now apply outside_tableMatch. }
  assert (H3 : (if i + 3 <=? length text
                then tableMatch (substring text i (i + 3)) else None) = None).
  { destruct (i + 3 <=? length text) eqn:E; [|reflexivity].
    apply Nat.leb_le in E. now apply outside_tableMatch. }
  pose proof (outside_index baseConsonants text i et_base Hout Hi) as Hbase.
  assert (H2 : (if i + 2 <=? length text
                then twoCharMatch (substring text i (i + 2)) else None) = None).
  { destruct (i + 2 <=? length text) eqn:E; [|reflexivity].
    apply Nat.leb_le in E. unfold twoCharMatch.
    rewrite (outside_substring consonantClusters text i 1 et_clusters Hout E),
            (outside_substring mapping text i 1 et_mapping Hout E).
    cbn [truthy].
    rewrite index_of_substring by assumption. now rewrite Hbase. }
  rewrite H4, H3, H2. unfold singleCharStep.
  rewrite Hbase.
  rewrite (outside_index vowels text i et_vowels Hout Hi).
  reflexivity.
Qed.

Lemma outside_convertAdvanced (text : str) :
  outsideAlphabets text = true -> convertAdvanced text = text.
Proof.
  intros Hout. unfold convertAdvanced.
  destruct text as [|c text]; [reflexivity|].
  cbn [empty]. set (t := c :: text) in *.
  transitivity (firstn (length t) t); [|apply firstn_all].
  apply (loop_invariant (fun i result => result = firstn i t)); try lia.
  - intros i result Hi ->.
    rewrite outside_iteration by assumption. cbn [fst snd].
    unfold index. now rewrite firstn_next.
  - reflexivity.
Qed.

Lemma inherited_not_outside (k : str) :
  inherited k = true -> outsideAlphabets k = false.
Proof.
  unfold inherited. rewrite existsb_exists. intros (n & Hn & E).
  apply eqb_eq in E. subst n.
  pose proof inherited_in_alphabet as H. rewrite forallb_forall in H.
  specialize (H k Hn). apply existsb_exists in H as (c & Hc & Ha).
  destruct (outsideAlphabets k) eqn:O; [|reflexivity].
  unfold outsideAlphabets in O. rewrite forallb_forall in O.
  specialize (O c Hc). rewrite Ha in O. discriminate.
Qed.

(** C7, as stated, fails: [Q] occurs in no key of the vowel and consonant
    tables, and [convertWord] turns it into [q]. *)
Lemma C7_counterexample :
  outsideAlphabets (utf16 "Q") = true
  /\ convertWord initialConfig (utf16 "Q") = Some (utf16 "q")
  /\ convertWord initialConfig (utf16 "Q") <> Some (utf16 "Q").
Proof. vm_compute. repeat split. discriminate. Qed.

(** C7, amended: a word made only of characters outside the consonant
    and vowel alphabets that carries no white space at either end and no
    upper-case letter of any script (trimming and lower-casing leave it
    as it is) is returned unchanged by [convertWord]. *)
Theorem C7_outside_alphabets_identity
  (config : NepaliConverterConfig) (w : str) :
  outsideAlphabets w = true ->
  trim w = w ->
  toLowerCase w = w ->
  convertWord config w = Some w.
Proof.
  intros Hout Htrim Hlow. unfold convertWord.
  rewrite Htrim, Hlow.
  destruct w as [|c w]; [reflexivity|]. cbn [empty orb].
  rewrite (outside_no_key commonWords (c :: w) (c :: w) et_common Hout
             (fun _ H => H) ltac:(discriminate)).
  destruct (inherited (c :: w)) eqn:Ei.
  - apply inherited_not_outside in Ei. congruence.
  - rewrite outside_convertAdvanced by assumption.
    now destruct (enableCommonWords config).
Qed.

Lemma C7_witness :
  convertWord initialConfig (utf16 "2024-07 #q") = Some (utf16 "2024-07 #q").
Proof. apply C7_outside_alphabets_identity; reflexivity. Defined.

(** ** Longest match *)

Lemma truthy_get (t : table) (k : str) :
  engineTable t -> truthy (get t k) = get t k.
Proof.
  intros Ht. destruct (get t k) as [v|] eqn:E; [|reflexivity].
  exact (get_value_truthy t k v Ht E).
Qed.

Lemma tableMatch_keyValue (k : str) : tableMatch k = keyValue k.
Proof.
  unfold tableMatch, keyValue, orElse.
  rewrite (truthy_get consonantClusters k et_clusters).
  rewrite (truthy_get mapping k et_mapping).
  reflexivity.
Qed.

Lemma keyValue_None (k : str) :
  keyValue k = None ->
  get consonantClusters k = None /\ get mapping k = None.
Proof.
  unfold keyValue. destruct (get consonantClusters k); [discriminate|].
  intros H. now split.
Qed.

Lemma single_keys : forallb singleKeyOk mapping = true.
Proof. vm_compute. reflexivity. Qed.

Lemma cluster_keys_long :
  forallb (fun e => 2 <=? length (fst e)) consonantClusters = true.
Proof. vm_compute. reflexivity. Qed.

Lemma ladder_rung_fails (text : str) (i m : nat) :
  (i + m <= length text -> keyValue (substring text i (i + m)) = None) ->
  (if i + m <=? length text
   then tableMatch (substring text i (i + m)) else None) = None.
Proof.
  intros H. destruct (i + m <=? length text) eqn:E; [|reflexivity].
  apply Nat.leb_le in E. rewrite tableMatch_keyValue. now apply H.
Qed.

Lemma ladder_rung_hits (text : str) (i m : nat) (v : str) :
  i + m <= length text ->
  keyValue (substring text i (i + m)) = Some v ->
  (if i + m <=? length text
   then tableMatch (substring text i (i + m)) else None) = Some v.
Proof.
  intros E H. apply Nat.leb_le in E. rewrite E.
  now rewrite tableMatch_keyValue.
Qed.

Lemma twoCharMatch_key (k v : str) :
  keyValue k = Some v -> twoCharMatch k = Some v.
Proof.
  unfold keyValue, twoCharMatch.
  rewrite (truthy_get consonantClusters k et_clusters).
  rewrite (truthy_get mapping k et_mapping).
  destruct (get consonantClusters k); [trivial|].
  intros ->. reflexivity.
Qed.

(** With no key of two to four characters at the position, a character
    that is a key on its own has its glyph put first in the output of
    the iteration. *)
Lemma single_key_first (text : str) (i : nat) (v : str) :
  i < length text ->
  keyValue (index text i) = Some v ->
  (forall m, 1 < m <= 4 -> i + m <= length text ->
     keyValue (substring text i (i + m)) = None) ->
  exists rest j, iteration text i = (v ++ rest, j) /\ i < j.
Proof.
  intros Hi Hkey Hnone.
  assert (Hmap : get mapping (index text i) = Some v).
  { unfold keyValue in Hkey.
    destruct (get consonantClusters (index text i)) as [c|] eqn:Ec;
      [|assumption].
    pose proof (get_forallb _ _ _ _ cluster_keys_long Ec) as L.
    cbn [fst] in L. rewrite index_length in L by assumption. discriminate. }
  pose proof (get_forallb _ _ _ _ single_keys Hmap) as Ok.
  unfold singleKeyOk in Ok. cbn [fst snd] in Ok.
  rewrite index_length in Ok by assumption. cbn [Nat.eqb] in Ok.
  assert (Hsingle : exists rest j,
             singleCharStep text i = (v ++ rest, j) /\ i < j).
  { pose proof (singleCharStep_bounds text i Hi) as Hb.
    assert (E : exists rest j, singleCharStep text i = (v ++ rest, j)).
    { clear Hb. unfold singleCharStep.
      rewrite (truthy_get vowels _ et_vowels).
      rewrite (truthy_get baseConsonants _ et_base).
      rewrite (truthy_get halfConsonants _ et_half).
      destruct (get vowels (index text i)) as [x|].
      - apply andb_true_iff in Ok as [Ex _]. apply eqb_eq in Ex. subst x.
        exists [], (i + 1). now rewrite app_nil_r.
      - destruct (get baseConsonants (index text i)) as [b|];
          [|discriminate].
        destruct (get halfConsonants (index text i)) as [h|];
          [|discriminate].
        apply andb_true_iff in Ok as [Eb Eh].
        apply eqb_eq in Eb. apply eqb_eq in Eh. subst b h.
        repeat match goal with
               | |- context [match matraOf ?x with _ => _ end] =>
                   destruct (matraOf x)
               | |- context [if ?x then _ else _] => destruct x
               end; eexists _, _;
          try reflexivity; now rewrite app_nil_r. }
    destruct E as (rest & j & E). rewrite E in Hb. cbn [snd] in Hb.
    exists rest, j. split; [exact E | lia]. }
  unfold iteration.
  rewrite (ladder_rung_fails text i 4) by (intros; apply Hnone; lia).
  rewrite (ladder_rung_fails text i 3) by (intros; apply Hnone; lia).
  destruct (i + 2 <=? length text) eqn:E2; [|exact Hsingle].
  apply Nat.leb_le in E2.
  assert (N2 : keyValue (substring text i (i + 2)) = None)
    by (apply Hnone; lia).
  apply keyValue_None in N2 as [Nc Nm].
  unfold twoCharMatch. rewrite Nc, Nm. cbn [truthy].
  rewrite (index_of_substring text i 1) by assumption.
  rewrite !(truthy_get baseConsonants _ et_base).
  rewrite (truthy_get halfConsonants _ et_half).
  destruct (get baseConsonants (index text i)) as [b|] eqn:Eb;
    [|exact Hsingle].
  destruct (get baseConsonants (index (substring text i (i + 2)) 1))
    as [b'|]; [|exact Hsingle].
  destruct (get vowels (index text i)) eqn:Ev.
  { rewrite andb_false_r in Ok. discriminate. }
  destruct (get halfConsonants (index text i)) as [h|] eqn:Eh;
    [|discriminate].
  apply andb_true_iff in Ok as [_ Ok]. apply eqb_eq in Ok. subst h.
  exists (HALANT ++ b'), (i + 2). split; [|lia].
  now rewrite app_assoc.
Qed.

Lemma iteration_reach (text : str) (i : nat) :
  snd (iteration text i) <= i + 4.
Proof.
  unfold iteration.
  repeat match goal with
         | |- context [match (if ?c then ?x else None) with _ => _ end] =>
             destruct (if c then x else None)
         end; cbn [snd]; try lia.
  unfold singleCharStep, matraOf. cbv zeta.
  repeat match goal with
         | |- context [match truthy ?x with _ => _ end] =>
             destruct (truthy x)
         | |- context [match ?x with Some _ => _ | None => _ end] =>
             destruct x
         | |- context [if ?x then _ else _] => destruct x
         end; cbn [snd]; lia.
Qed.

(** C1: the longest key does not always win.  The cluster table holds
    ten keys of five characters ([shcha] to [shtho]), and no iteration
    consumes more than four characters: on the word [shchi] the longest
    key at position 0 is [shchi], whose entry is the cluster with the
    vowel sign, but the iteration consumes the key [shch] and the word
    comes out as the cluster followed by the independent vowel.  The
    sibling key [kshi], of four characters, is consumed as one unit. *)
Theorem C1_five_character_keys_out_of_reach :
  longestKeyAt (utf16 "shchi") 0 = Some (utf16 "shchi")
  /\ get consonantClusters (utf16 "shchi") = Some (utf16 "श्चि")
  /\ iteration (utf16 "shchi") 0 = (utf16 "श्च", 4)
  /\ convertWord initialConfig (utf16 "shchi") = Some (utf16 "श्चइ")
  /\ iteration (utf16 "kshi") 0 = (utf16 "क्षि", 4)
  /\ forall text i, snd (iteration text i) <= i + 4.
Proof.
  split; [|split; [|split; [|split; [|split]]]];
    try (vm_compute; reflexivity).
  exact iteration_reach.
Qed.

(** ** The ladder of lengths four, three and two *)

(** X20: at every position the substrings of four, then three, then two
    characters are tried, as far as the word reaches, against the
    cluster table and then the general mapping table.  When the
    substring of [n] characters at the position is a key ([2 <= n <= 4])
    and no longer substring of at most four characters is, the iteration
    consumes exactly these [n] characters and emits the key's value:
    the cluster entry when there is one, the mapping entry otherwise.
    When only the single character is a key, its glyph comes first in
    what the iteration emits. *)
Theorem X20_longest_match_up_to_four (text : str) (i n : nat) (v : str) :
  1 <= n <= 4 ->
  i + n <= length text ->
  keyValue (substring text i (i + n)) = Some v ->
  (forall m, n < m <= 4 -> i + m <= length text ->
     keyValue (substring text i (i + m)) = None) ->
  if n =? 1
  then exists rest j, iteration text i = (v ++ rest, j) /\ i < j
  else iteration text i = (v, i + n).
Proof.
  intros Hn Hlen Hkey Hnone.
  assert (n = 1 \/ n = 2 \/ n = 3 \/ n = 4) as [->|[->|[->| ->]]] by lia;
    cbn [Nat.eqb].
  - apply single_key_first; try lia; [|assumption].
    rewrite index_substring by lia. assumption.
  - unfold iteration.
    rewrite (ladder_rung_fails text i 4) by (intros; apply Hnone; lia).
    rewrite (ladder_rung_fails text i 3) by (intros; apply Hnone; lia).
    apply Nat.leb_le in Hlen. rewrite Hlen.
    now rewrite (twoCharMatch_key _ v Hkey).
  - unfold iteration.
    rewrite (ladder_rung_fails text i 4) by (intros; apply Hnone; lia).
    now rewrite (ladder_rung_hits text i 3 v Hlen Hkey).
  - unfold iteration.
    now rewrite (ladder_rung_hits text i 4 v Hlen Hkey).
Qed.

Lemma X20_witness :
  iteration (utf16 "kshetra") 0 = (utf16 "क्षे", 4)
  /\ iteration (utf16 "ksh") 0 = (utf16 "क्ष", 3)
  /\ iteration (utf16 "tyo") 0 = (utf16 "त्यो", 3).
Proof.
  split; [|split].
  - apply (X20_longest_match_up_to_four (utf16 "kshetra") 0 4);
      [lia | simpl; lia | reflexivity | intros; lia].
  - apply (X20_longest_match_up_to_four (utf16 "ksh") 0 3);
      [lia | simpl; lia | reflexivity | simpl; intros; lia].
  - apply (X20_longest_match_up_to_four (utf16 "tyo") 0 3);
      [lia | simpl; lia | reflexivity | simpl; intros; lia].
Defined.

(** ** The word before the cursor *)

Lemma word_not_space (c : N) : isWordChar c = true -> isWhiteSpace c = false.
Proof. intros H. chars. Qed.

(** A run of word characters stops at the latest where the text before
    the last word ends. *)
Lemma wordRun_before (before run : str) :
  before <> [] -> isWordChar (last before 0%N) = false ->
  wordRun (before ++ run) < length before.
Proof.
  induction before as [|c before IH]; [congruence|].
  intros _ Hlast. simpl.
  destruct (isWordChar c) eqn:Hc; [|lia].
  destruct before as [|d before].
  - simpl in Hlast. congruence.
  - apply -> Nat.succ_lt_mono. apply IH; [discriminate | exact Hlast].
Qed.

Lemma startsWith_refl (w rest : str) : startsWith (w ++ rest) w = true.
Proof.
  induction w as [|c w IH]; simpl; [reflexivity|].
  now rewrite N.eqb_refl, IH.
Qed.

(** C6: a word before the cursor that is a name every object inherits
    breaks the reconstruction.  With whole-word exceptions enabled, the
    read of the exception table for [constructor] finds the function
    [Object], which [convertWord] returns: its text is spliced into the
    result and its [length], the number of its parameters, is taken for
    the length of the converted run, so the cursor comes out at 2 and
    not behind the new space.  For [__proto__] the read finds the
    prototype object, which has no [length], and the cursor is [NaN].
    With the exceptions disabled the same word is converted as any
    other, as [mero] is with the exceptions enabled. *)
Theorem C6_inherited_name_before_cursor :
  handleSpaceKey initialConfig (utf16 "mero") 4 = (utf16 "मेरो ", Int 5)
  /\ convertWord initialConfig (utf16 "constructor") = None
  /\ handleSpaceKey initialConfig (utf16 "constructor") 11
     = (utf16 "function Object() { [native code] } ", Int 2)
  /\ handleSpaceKey initialConfig (utf16 "__proto__") 9
     = (utf16 "[object Object] ", NaN)
  /\ handleSpaceKey (withCommonWords false initialConfig)
       (utf16 "constructor") 11
     = (utf16 "cओन्सत्रुcतोर ", Int 14).
Proof. vm_compute. repeat split. Qed.
(** ** What an iteration consumes *)

Lemma two_units (k : str) :
  length k = 2 -> k = index k 0 ++ index k 1.
Proof.
  destruct k as [|a [|b [|c k]]]; try discriminate. reflexivity.
Qed.

Lemma consumed1 (text : str) (i : nat) :
  firstn (i + 1 - i) (skipn i text) = index text i.
Proof. unfold index. f_equal. lia. Qed.

Lemma consumed_next (text : str) (i n : nat) :
  firstn (i + S n - i) (skipn i text)
  = index text i ++ firstn n (skipn (i + 1) text).
Proof.
  replace (i + S n - i) with (1 + n) by lia.
  rewrite firstn_next. unfold index.
  rewrite skipn_skipn. do 3 f_equal. lia.
Qed.

Lemma consumed2 (text : str) (i : nat) :
  firstn (i + 2 - i) (skipn i text) = index text i ++ index text (i + 1).
Proof. apply consumed_next. Qed.

Lemma consumed3 (text : str) (i : nat) :
  i + 2 < length text ->
  firstn (i + 3 - i) (skipn i text)
  = index text i ++ substring text (i + 1) (i + 3).
Proof.
  intros H. rewrite consumed_next.
  replace (i + 3) with (i + 1 + 2) by lia.
  rewrite substring_from by lia. reflexivity.
Qed.

(** ** Trimming and splitting *)

Lemma trimStart_split (s : str) :
  exists l, s = l ++ trimStart s /\ forallb isWhiteSpace l = true.
Proof.
  induction s as [|c s (l & E & W)].
  - now exists [].
  - simpl. destruct (isWhiteSpace c) eqn:Hc.
    + exists (c :: l). simpl. rewrite Hc, W. split; [congruence|reflexivity].
    + now exists [].
Qed.

Lemma trimEnd_split (s : str) :
  exists r, s = trimEnd s ++ r /\ forallb isWhiteSpace r = true.
Proof.
  unfold trimEnd. destruct (trimStart_split (rev s)) as (l & E & W).
  exists (rev l). split.
  - rewrite <- rev_app_distr, <- E. now rewrite rev_involutive.
  - rewrite forallb_forall in *. intros c Hc. apply W. now apply in_rev.
Qed.

Lemma trim_split (s : str) :
  exists l r, s = l ++ trim s ++ r
              /\ forallb isWhiteSpace l = true
              /\ forallb isWhiteSpace r = true.
Proof.
  destruct (trimStart_split s) as (l & El & Wl).
  destruct (trimEnd_split (trimStart s)) as (r & Er & Wr).
  exists l, r. unfold trim. repeat split; try assumption.
  now rewrite <- Er.
Qed.

Lemma trim_empty_blank (s : str) :
  trim s = [] -> forallb isWhiteSpace s = true.
Proof.
  intros H. destruct (trim_split s) as (l & r & E & Wl & Wr).
  rewrite H in E. rewrite E. cbn [app]. rewrite forallb_app.
  now rewrite Wl, Wr.
Qed.

Lemma pushWord_concat (words : list str) (currentWord : str) :
  concat (pushWord words currentWord) = concat words ++ currentWord.
Proof.
  unfold pushWord. destruct currentWord as [|c w]; cbn [empty].
  - now rewrite app_nil_r.
  - rewrite concat_app. cbn [concat]. now rewrite app_nil_r.
Qed.

(** [splitText] loses nothing: the tokens, put back together, are the text. *)
Lemma splitLoop_concat (chars : str) (words : list str) (currentWord : str) :
  concat (splitLoop chars words currentWord)
  = concat words ++ currentWord ++ chars.
Proof.
  revert words currentWord.
  induction chars as [|c chars IH]; intros words currentWord; simpl.
  - now rewrite pushWord_concat, app_nil_r.
  - destruct (isSeparator c).
    + rewrite IH, concat_app, pushWord_concat. cbn [concat app].
      now rewrite <- !app_assoc.
    + rewrite IH. now rewrite <- !app_assoc.
Qed.

Lemma splitText_concat (text : str) : concat (splitText text) = text.
Proof. unfold splitText. now rewrite splitLoop_concat. Qed.

Lemma separator_not_letter (c : N) : isSeparator c = true -> letter c = false.
Proof. intros H. chars. Qed.

Lemma space_not_letter (c : N) : isWhiteSpace c = true -> letter c = false.
Proof. intros H. chars. Qed.

Lemma blank_no_letter (text w : str) :
  forallb isWhiteSpace text = true -> In w (splitText text) ->
  hasLetter w = false.
Proof.
  intros W Hw. apply not_true_iff_false. intros L.
  apply existsb_exists in L as (c & Hc & Lc).
  assert (Hin : In c text).
  { rewrite <- (splitText_concat text). apply in_concat. now exists w. }
  rewrite forallb_forall in W.
  pose proof (space_not_letter c (W c Hin)) as N. unfold letter in N.
  congruence.
Qed.

Lemma concat_unchanged (f : str -> str) (tokens : list str) :
  (forall w, In w tokens -> f w = w) ->
  concat (map f tokens) = concat tokens.
Proof.
  induction tokens as [|w tokens IH]; intros H; [reflexivity|].
  cbn [map concat]. rewrite (H w (or_introl eq_refl)).
  rewrite IH; [reflexivity|]. intros x Hx. apply H. now right.
Qed.

(** [convertText] is the conversion of the tokens of [splitText], joined;
    the early return on a blank text agrees with it. *)
Lemma convertText_tokens (config : NepaliConverterConfig) (text : str) :
  convertText config text
  = concat (map (convertToken config) (splitText text)).
Proof.
  unfold convertText.
  destruct (empty text || empty (trim text)) eqn:B; [|reflexivity].
  assert (W : forallb isWhiteSpace text = true).
  { apply trim_empty_blank. apply orb_true_iff in B as [B|B].
    - destruct text; [reflexivity | discriminate].
    - destruct (trim text); [reflexivity | discriminate]. }
  rewrite concat_unchanged; [now rewrite splitText_concat|].
  intros w Hw. unfold convertToken.
  now rewrite (blank_no_letter text w W Hw).
Qed.

(** ** The composition as a translation by the tables *)

Lemma translation_app (a x b y : str) :
  translation a x -> translation b y -> translation (a ++ b) (x ++ y).
Proof.
  intros Ha Hb. induction Ha as [|t k v rest out Ht Hg _ IH|c rest out Hc _ IH].
  - exact Hb.
  - rewrite <- !app_assoc. now apply (tr_entry t).
  - cbn [app]. now apply tr_copy.
Qed.

Lemma translation_entry (t : table) (k v : str) :
  engineTable t -> get t k = Some v -> translation k v.
Proof.
  intros Ht Hg. rewrite <- (app_nil_r k), <- (app_nil_r v).
  apply (tr_entry t); [assumption | assumption | constructor].
Qed.

Lemma translation_truthy (t : table) (k v : str) :
  engineTable t -> truthy (get t k) = Some v -> translation k v.
Proof.
  intros Ht H. apply truthy_Some in H as [H _].
  now apply (translation_entry t).
Qed.

Lemma tableMatch_translation (k v : str) :
  tableMatch k = Some v -> translation k v.
Proof.
  intros H. apply orElse_Some in H as [H|H].
  - exact (translation_entry _ k v et_clusters H).
  - exact (translation_entry _ k v et_mapping H).
Qed.

Lemma twoCharMatch_translation (k v : str) :
  length k = 2 -> twoCharMatch k = Some v -> translation k v.
Proof.
  intros Hlen. unfold twoCharMatch.
  destruct (truthy (get consonantClusters k)) as [c|] eqn:Ec.
  { intros H. injection H as <-.
    exact (translation_truthy _ k c et_clusters Ec). }
  destruct (truthy (get mapping k)) as [m|] eqn:Em.
  { intros H. injection H as <-.
    exact (translation_truthy _ k m et_mapping Em). }
  destruct (truthy (get baseConsonants (index k 0))) as [b0|] eqn:E0;
    [|discriminate].
  destruct (truthy (get baseConsonants (index k 1))) as [b1|] eqn:E1;
    [|discriminate].
  destruct (truthy (get halfConsonants (index k 0))) as [h|] eqn:Eh;
    [|discriminate].
  intros H. injection H as <-.
  rewrite (two_units k Hlen) at 1.
  apply translation_app.
  - exact (translation_truthy _ _ _ et_half Eh).
  - exact (translation_truthy _ _ _ et_base E1).
Qed.

Lemma index_unit (text : str) (i : nat) :
  i < length text -> exists c, index text i = [c].
Proof.
  intros H. unfold index.
  destruct (skipn i text) as [|c r] eqn:E.
  - apply (f_equal (@length N)) in E. rewrite length_skipn in E.
    simpl in E. lia.
  - now exists c.
Qed.

Lemma matraOf_translation (x : option str) (m : str) :
  matraOf x = Some m -> exists k, x = Some k /\ translation k m.
Proof.
  destruct x as [k|]; [|discriminate]. cbn [matraOf]. intros H.
  exists k. split; [reflexivity|].
  exact (translation_truthy _ k m et_matras H).
Qed.

Lemma singleCharStep_translation (text : str) (i : nat) :
  i < length text ->
  translation (firstn (snd (singleCharStep text i) - i) (skipn i text))
              (fst (singleCharStep text i)).
Proof.
  intros Hi. unfold singleCharStep.
  set (nextChar := if i + 1 <? length text then Some (index text (i + 1))
                   else None).
  set (nextTwoChar := if i + 2 <? length text
                      then Some (substring text (i + 1) (i + 3)) else None).
  assert (M1 : forall m, matraOf nextChar = Some m ->
               translation (index text (i + 1)) m).
  { intros m H. apply matraOf_translation in H as (k & E & T).
    unfold nextChar in E. destruct (i + 1 <? length text); [|discriminate].
    now injection E as <-. }
  assert (M2 : forall m, matraOf nextTwoChar = Some m ->
               i + 2 < length text
               /\ translation (substring text (i + 1) (i + 3)) m).
  { intros m H. apply matraOf_translation in H as (k & E & T).
    unfold nextTwoChar in E.
    destruct (i + 2 <? length text) eqn:L; [|discriminate].
    apply Nat.ltb_lt in L. injection E as <-. now split. }
  destruct (truthy (get vowels (index text i))) as [v|] eqn:Ev.
  { cbn [fst snd]. rewrite consumed1.
    exact (translation_truthy _ _ _ et_vowels Ev). }
  destruct (truthy (get baseConsonants (index text i))) as [b|] eqn:Eb.
  2:{ cbn [fst snd]. rewrite consumed1.
      rewrite (truthy_get vowels _ et_vowels) in Ev.
      rewrite (truthy_get baseConsonants _ et_base) in Eb.
      destruct (index_unit text i Hi) as (c & E). rewrite E in *.
      apply tr_copy; [|constructor]. unfold singleKey. now rewrite Ev, Eb. }
  pose proof (translation_truthy _ _ _ et_base Eb) as B.
  assert (Three : forall m, matraOf nextTwoChar = Some m ->
            translation (firstn (i + 3 - i) (skipn i text)) (b ++ m)).
  { intros m H. destruct (M2 m H) as (L & T).
    rewrite consumed3 by assumption. now apply translation_app. }
  assert (Two : forall m, matraOf nextChar = Some m ->
            translation (firstn (i + 2 - i) (skipn i text)) (b ++ m)).
  { intros m H. rewrite consumed2. apply translation_app; [assumption|].
    now apply M1. }
  assert (One : translation (firstn (i + 1 - i) (skipn i text)) b)
    by (now rewrite consumed1).
  destruct (match nextChar with
            | Some n => isConsonantChar n && negb (isVowelChar n)
            | None => false
            end).
  - destruct (matraOf nextTwoChar) as [m|] eqn:E2; [now apply Three|].
    destruct (matraOf nextChar) as [m|] eqn:E1; [now apply Two|].
    destruct (truthy (get halfConsonants (index text i))) as [h|] eqn:Eh;
      [|exact One].
    cbn [fst snd]. rewrite consumed1.
    exact (translation_truthy _ _ _ et_half Eh).
  - destruct (matraOf nextChar) as [m|] eqn:E1; [now apply Two|].
    destruct (matraOf nextTwoChar) as [m|] eqn:E2; [now apply Three|].
    exact One.
Qed.

Lemma iteration_translation (text : str) (i : nat) :
  i < length text ->
  translation (firstn (snd (iteration text i) - i) (skipn i text))
              (fst (iteration text i)).
Proof.
  intros Hi. unfold iteration.
  assert (Rung : forall n v, i + n <= length text ->
            tableMatch (substring text i (i + n)) = Some v ->
            translation (firstn (i + n - i) (skipn i text)) v).
  { intros n v L T. apply tableMatch_translation in T.
    rewrite substring_from in T by assumption.
    now replace (i + n - i) with n by lia. }
  assert (Pair : forall v, i + 2 <= length text ->
            twoCharMatch (substring text i (i + 2)) = Some v ->
            translation (firstn (i + 2 - i) (skipn i text)) v).
  { intros v L T. apply twoCharMatch_translation in T;
      [|now apply (substring_length text i 2)].
    rewrite substring_from in T by assumption.
    now replace (i + 2 - i) with 2 by lia. }
  destruct (i + 4 <=? length text) eqn:L4;
    [apply Nat.leb_le in L4;
     destruct (tableMatch (substring text i (i + 4))) as [v|] eqn:T4;
     [now apply Rung|]|];
  (destruct (i + 3 <=? length text) eqn:L3;
    [apply Nat.leb_le in L3;
     destruct (tableMatch (substring text i (i + 3))) as [v|] eqn:T3;
     [now apply Rung|]|]);
  (destruct (i + 2 <=? length text) eqn:L2;
    [apply Nat.leb_le in L2;
     destruct (twoCharMatch (substring text i (i + 2))) as [v|] eqn:T2;
     [now apply Pair|]|]);
  now apply singleCharStep_translation.
Qed.

Lemma convertAdvanced_translates (text : str) :
  translation text (convertAdvanced text).
Proof.
  unfold convertAdvanced. destruct (empty text) eqn:E.
  - destruct text; [constructor | discriminate].
  - rewrite <- (firstn_all text) at 1.
    apply (loop_invariant (fun i result => translation (firstn i text) result));
      try lia; [|constructor].
    intros i result Hi HP.
    pose proof (iteration_bounds text i Hi) as Hb.
    replace (snd (iteration text i))
      with (i + (snd (iteration text i) - i)) at 1 by lia.
    rewrite firstn_next. apply translation_app; [assumption|].
    now apply iteration_translation.
Qed.

(** X1: what [convertAdvanced] returns is a translation of its input by
    the tables: the input is cut, from left to right, into keys of the
    tables and single characters that are no key on their own; each key
    is replaced by its entry and each such character is copied. *)
Theorem X1_convertAdvanced_translation (text : str) :
  translation text (convertAdvanced text).
Proof. exact (convertAdvanced_translates text). Qed.

(** ** What a translation keeps *)

Lemma entry_sizes :
  forallb (fun e => (1 <=? length (snd e))
                    && (length (snd e) <=? 2 * length (fst e))
                    && (length (fst e) <=? 4 * length (snd e)))
          allTables = true.
Proof. vm_compute. reflexivity. Qed.

Lemma entry_glyphs : forallb (fun e => glyphs (snd e)) allTables = true.
Proof. vm_compute. reflexivity. Qed.

Lemma key_has_single : forallb (fun e => existsb singleKey (fst e)) allTables = true.
Proof. vm_compute. reflexivity. Qed.

Lemma inherited_has_single :
  forallb (existsb singleKey) objectPrototypeNames = true.
Proof. vm_compute. reflexivity. Qed.

Lemma alphabet_ascii :
  forallb (fun e => forallb (fun c => (c <? 0x80)%N) (fst e))
          (vowels ++ baseConsonants) = true.
Proof. vm_compute. reflexivity. Qed.

Lemma inAlphabet_ascii (c : N) : inAlphabet c = true -> (c < 0x80)%N.
Proof.
  unfold inAlphabet. rewrite existsb_exists. intros (e & He & Hc).
  apply oneOf_In in Hc.
  pose proof alphabet_ascii as A. rewrite forallb_forall in A.
  specialize (A e He). rewrite forallb_forall in A.
  apply N.ltb_lt. now apply A.
Qed.

Lemma singleKey_alphabet (c : N) : singleKey c = true -> inAlphabet c = true.
Proof.
  unfold singleKey. intros H.
  destruct (get vowels [c]) as [v|] eqn:Ev.
  - pose proof (get_key_alphabet _ _ _ et_vowels Ev) as A.
    cbn in A. now rewrite andb_true_r in A.
  - destruct (get baseConsonants [c]) as [v|] eqn:Eb; [|discriminate].
    pose proof (get_key_alphabet _ _ _ et_base Eb) as A.
    cbn in A. now rewrite andb_true_r in A.
Qed.

Lemma devanagari_not_key (c : N) : devanagari c = true -> singleKey c = false.
Proof.
  intros D. destruct (singleKey c) eqn:S; [|reflexivity].
  apply singleKey_alphabet, inAlphabet_ascii in S.
  unfold devanagari in D. apply andb_true_iff in D as [D _].
  apply N.leb_le in D. lia.
Qed.

Lemma glyphs_inert (s : str) : glyphs s = true -> inert s = true.
Proof.
  unfold glyphs, inert. rewrite !forallb_forall. intros H c Hc.
  apply negb_true_iff, devanagari_not_key. now apply H.
Qed.

Lemma entry_facts (t : table) (k v : str) :
  engineTable t -> get t k = Some v ->
  (1 <= length v /\ length v <= 2 * length k /\ length k <= 4 * length v)
  /\ glyphs v = true
  /\ existsb singleKey k = true.
Proof.
  intros Ht Hg.
  pose proof (engine_entry _ t k v entry_sizes Ht Hg) as S.
  pose proof (engine_entry _ t k v entry_glyphs Ht Hg) as G.
  pose proof (engine_entry _ t k v key_has_single Ht Hg) as K.
  cbn [fst snd] in *.
  apply andb_true_iff in S as [S S3]. apply andb_true_iff in S as [S1 S2].
  apply Nat.leb_le in S1, S2, S3. repeat split; assumption.
Qed.

Lemma translation_length (a b : str) :
  translation a b ->
  length b <= 2 * length a /\ length a <= 4 * length b.
Proof.
  induction 1 as [|t k v rest out Ht Hg _ IH|c rest out Hc _ IH].
  - simpl. lia.
  - destruct (entry_facts t k v Ht Hg) as ((S1 & S2 & S3) & _).
    rewrite !length_app. lia.
  - simpl. lia.
Qed.

Lemma translation_inert (a b : str) : translation a b -> inert b = true.
Proof.
  induction 1 as [|t k v rest out Ht Hg _ IH|c rest out Hc _ IH].
  - reflexivity.
  - destruct (entry_facts t k v Ht Hg) as (_ & G & _).
    unfold inert in *. rewrite forallb_app, IH.
    apply glyphs_inert in G. unfold inert in G. now rewrite G.
  - unfold inert in *. cbn [forallb]. now rewrite Hc, IH.
Qed.

(** ** Texts without keys *)

Lemma inert_no_key (t : table) (text k : str) :
  engineTable t -> inert text = true ->
  (forall c, In c k -> In c text) -> k <> [] -> get t k = None.
Proof.
  intros Ht Hin Hsub Hne.
  destruct (get t k) as [v|] eqn:E; [|reflexivity]. exfalso.
  destruct (entry_facts t k v Ht E) as (_ & _ & K).
  apply existsb_exists in K as (c & Hc & S).
  unfold inert in Hin. rewrite forallb_forall in Hin.
  specialize (Hin c (Hsub c Hc)). rewrite S in Hin. discriminate.
Qed.

(** Where no part of the text is a key, an iteration copies one
    character. *)
Lemma keyless_iteration (text : str) (i : nat) :
  (forall t k, engineTable t -> (forall c, In c k -> In c text) ->
               k <> [] -> get t k = None) ->
  i < length text ->
  iteration text i = (index text i, i + 1).
Proof.
  intros Hno Hi.
  assert (Sub : forall t n, engineTable t -> i + S n <= length text ->
                  get t (substring text i (i + S n)) = None).
  { intros t n Ht L. apply Hno; [assumption | |now apply substring_nonempty].
    intros c. apply substring_incl. }
  assert (Idx : forall t, engineTable t -> get t (index text i) = None).
  { intros t Ht. apply Hno; [assumption | |now apply index_nonempty].
    intros c. apply index_In. }
  unfold iteration.
  assert (H4 : (if i + 4 <=? length text
                then tableMatch (substring text i (i + 4)) else None) = None).
  { destruct (i + 4 <=? length text) eqn:E; [|reflexivity].
    apply Nat.leb_le in E. unfold tableMatch, orElse.
    now rewrite (Sub consonantClusters 3 et_clusters E),
                (Sub mapping 3 et_mapping E). }
  assert (H3 : (if i + 3 <=? length text
                then tableMatch (substring text i (i + 3)) else None) = None).
  { destruct (i + 3 <=? length text) eqn:E; [|reflexivity].
    apply Nat.leb_le in E. unfold tableMatch, orElse.
    now rewrite (Sub consonantClusters 2 et_clusters E),
                (Sub mapping 2 et_mapping E). }
  assert (H2 : (if i + 2 <=? length text
                then twoCharMatch (substring text i (i + 2)) else None) = None).
  { destruct (i + 2 <=? length text) eqn:E; [|reflexivity].
    apply Nat.leb_le in E. unfold twoCharMatch.
    rewrite (Sub consonantClusters 1 et_clusters E),
            (Sub mapping 1 et_mapping E).
    cbn [truthy]. rewrite index_of_substring by assumption.
    now rewrite (Idx baseConsonants et_base). }
  rewrite H4, H3, H2. unfold singleCharStep.
  now rewrite (Idx vowels et_vowels), (Idx baseConsonants et_base).
Qed.

Lemma inert_convertAdvanced (text : str) :
  inert text = true -> convertAdvanced text = text.
Proof.
  intros Hin. unfold convertAdvanced.
  destruct text as [|c text]; [reflexivity|].
  cbn [empty]. set (t := c :: text) in *.
  transitivity (firstn (length t) t); [|apply firstn_all].
  apply (loop_invariant (fun i result => result = firstn i t)); try lia.
  - intros i result Hi ->.
    rewrite keyless_iteration; [|intros; now apply (inert_no_key _ t)|assumption].
    cbn [fst snd]. unfold index. now rewrite firstn_next.
  - reflexivity.
Qed.

Lemma convertAdvanced_inert (text : str) : inert (convertAdvanced text) = true.
Proof. exact (translation_inert _ _ (convertAdvanced_translates text)). Qed.

(** X2: [convertAdvanced] leaves no character that is a key on its own
    (every letter that has a glyph of its own has been replaced), and it
    is idempotent: applied to its own output it changes nothing. *)
Theorem X2_convertAdvanced_idempotent (text : str) :
  inert (convertAdvanced text) = true
  /\ convertAdvanced (convertAdvanced text) = convertAdvanced text.
Proof.
  split; [apply convertAdvanced_inert|].
  apply inert_convertAdvanced, convertAdvanced_inert.
Qed.

(** X3: the output of [convertAdvanced] is at most twice as long as its
    input and at least a quarter as long; in particular only the empty
    text gives the empty text. *)
Theorem X3_convertAdvanced_length (text : str) :
  length (convertAdvanced text) <= 2 * length text
  /\ length text <= 4 * length (convertAdvanced text).
Proof. apply translation_length, convertAdvanced_translates. Qed.

(** ** Translations, code point by code point *)

Lemma entry_letters :
  forallb (fun e => forallb letter (fst e) && forallb nepali (snd e))
          allTables = true.
Proof. vm_compute. reflexivity. Qed.

Lemma letter_alphabetic (u : N) :
  letter u = true -> alphabetic (Unit u) = true.
Proof.
  intros H.
  assert (B : (0 <= u < 0 + N.of_nat 128)%N) by chars.
  assert (A : forallb (fun u => negb (letter u) || alphabetic (Unit u))
                (map (fun i => (0 + N.of_nat i)%N) (seq 0 128)) = true)
    by (vm_compute; reflexivity).
  pose proof (between_forallb _ _ _ A u B) as C.
  cbv beta in C. now rewrite H in C.
Qed.

Lemma nepali_alphabetic (u : N) :
  nepali u = true -> alphabetic (Unit u) = true.
Proof.
  intros H. unfold alphabetic. cbn [scalar]. rewrite H. apply orb_true_r.
Qed.

Lemma nepali_steady (u : N) : nepali u = true -> steady u = true.
Proof. intros H. apply devanagari_steady. chars. Qed.

Lemma steady_unit (u : N) :
  steady u = true ->
  isHigh u = false /\ isLow u = false /\ fixedPoint (Unit u) = true.
Proof.
  unfold steady. intros H. apply andb_true_iff in H as [H F].
  apply andb_true_iff in H as [H1 H2].
  apply negb_true_iff in H1, H2. now repeat split.
Qed.

(** What an entry that is read is made of. *)
Lemma entry_points (t : table) (k v : str) :
  engineTable t -> get t k = Some v ->
  k <> [] /\ v <> []
  /\ forallb letter k = true /\ forallb nepali v = true.
Proof.
  intros Ht Hg.
  pose proof (engine_entry _ t k v entry_letters Ht Hg) as L.
  pose proof (engine_entry _ t k v keys_nonempty Ht Hg) as K.
  pose proof (engine_entry _ t k v values_nonempty Ht Hg) as V.
  cbn [fst snd] in *. apply andb_true_iff in L as [Lk Lv].
  repeat split; try assumption.
  - intros ->. discriminate.
  - intros ->. discriminate.
Qed.

Lemma no_high (P : N -> bool) (s : str) :
  (forall u, P u = true -> isHigh u = false) ->
  forallb P s = true -> forallb (fun u => negb (isHigh u)) s = true.
Proof.
  intros HP H. rewrite forallb_forall in *. intros u Hu.
  apply negb_true_iff, HP. now apply H.
Qed.

Lemma letter_not_high (u : N) : letter u = true -> isHigh u = false.
Proof. intros H. chars. Qed.

Lemma letter_not_low (u : N) : letter u = true -> isLow u = false.
Proof. intros H. chars. Qed.

Lemma nepali_not_high (u : N) : nepali u = true -> isHigh u = false.
Proof. intros H. chars. Qed.

Lemma nepali_not_low (u : N) : nepali u = true -> isLow u = false.
Proof. intros H. chars. Qed.

Lemma points_behind (P : N -> bool) (h : N) (s rest : str) :
  (forall u, P u = true -> isLow u = false) ->
  s <> [] -> forallb P s = true ->
  points (h :: s ++ rest) = Unit h :: points (s ++ rest).
Proof.
  intros HP Hne H. apply points_lone.
  destruct s as [|c s]; [congruence|]. cbn [app].
  cbn [forallb] in H. apply andb_true_iff in H as [Hc _]. now apply HP.
Qed.

(** A translation never cuts a surrogate pair: it is a translation of
    the code points as well. *)
Lemma translation_points (t o : str) :
  translation t o -> rewritten (points t) (points o).
Proof.
  intros H.
  enough (A : rewritten (points t) (points o)
              /\ forall h, isHigh h = true ->
                           rewritten (points (h :: t)) (points (h :: o)))
    by apply A.
  induction H as [|tb k v rest out Ht Hg _ [IH1 IH2]|c rest out Hc _ [IH1 IH2]].
  - split; [constructor|]. intros h _. cbn [points]. repeat constructor.
  - destruct (entry_points tb k v Ht Hg) as (Nk & Nv & Lk & Lv).
    assert (E : rewritten (points (k ++ rest)) (points (v ++ out))).
    { rewrite (points_plain k) by exact (no_high _ _ letter_not_high Lk).
      rewrite (points_plain v) by exact (no_high _ _ nepali_not_high Lv).
      now apply (rw_entry tb). }
    split; [exact E|]. intros h _.
    rewrite (points_behind letter h k rest letter_not_low Nk Lk).
    rewrite (points_behind nepali h v out nepali_not_low Nv Lv).
    now constructor.
  - assert (E : rewritten (points (c :: rest)) (points (c :: out))).
    { destruct (isHigh c) eqn:Eh; [now apply IH2|].
      rewrite !points_unit by assumption. now constructor. }
    split; [exact E|]. intros h Hh.
    rewrite !points_cons2. destruct (isHigh h && isLow c).
    + now constructor.
    + now constructor.
Qed.

Lemma units_filter (f : point -> bool) (s : str) :
  forallb (fun u => negb (f (Unit u))) s = true ->
  filter f (map Unit s) = [].
Proof.
  induction s as [|u s IH]; [reflexivity|]. cbn [forallb map filter].
  intros H. apply andb_true_iff in H as [Hu Hs].
  apply negb_true_iff in Hu. rewrite Hu. now apply IH.
Qed.

Lemma rewritten_layout (ps qs : list point) :
  rewritten ps qs ->
  filter (fun p => negb (alphabetic p)) qs
  = filter (fun p => negb (alphabetic p)) ps.
Proof.
  induction 1 as [|t k v rest out Ht Hg _ IH|p rest out _ IH].
  - reflexivity.
  - destruct (entry_points t k v Ht Hg) as (_ & _ & Lk & Lv).
    rewrite !filter_app, IH.
    rewrite (units_filter _ k), (units_filter _ v); [reflexivity| |].
    + rewrite forallb_forall in *. intros u Hu.
      now rewrite negb_involutive, nepali_alphabetic by now apply Lv.
    + rewrite forallb_forall in *. intros u Hu.
      now rewrite negb_involutive, letter_alphabetic by now apply Lk.
  - cbn [filter]. now rewrite IH.
Qed.

Lemma rewritten_stable (ps qs : list point) :
  rewritten ps qs ->
  forallb fixedPoint ps = true -> forallb fixedPoint qs = true.
Proof.
  induction 1 as [|t k v rest out Ht Hg _ IH|p rest out _ IH].
  - trivial.
  - destruct (entry_points t k v Ht Hg) as (_ & _ & _ & Lv).
    rewrite !forallb_app. intros H. apply andb_true_iff in H as [_ H].
    rewrite (IH H), andb_true_r.
    rewrite forallb_forall in *. intros q Hq.
    apply in_map_iff in Hq as (u & <- & Hu).
    now apply steady_unit, nepali_steady, Lv.
  - cbn [forallb]. intros H. apply andb_true_iff in H as [Hp H].
    now rewrite Hp, IH.
Qed.

(** A translation keeps the non-alphabetic content: keys and entries are
    letters, the rest is copied. *)
Lemma translation_layout (t o : str) : translation t o -> layout o = layout t.
Proof. intros H. unfold layout. now apply rewritten_layout, translation_points. Qed.

(** A translation of a lower-cased text is a lower-cased text. *)
Lemma translation_stable (t o : str) :
  translation t o -> stable t = true -> stable o = true.
Proof.
  intros H. unfold stable. now apply rewritten_stable, translation_points.
Qed.

(** ** Normal form of a word *)

Lemma trimStart_head (s : str) : isWhiteSpace (hd 0%N (trimStart s)) = false.
Proof.
  induction s as [|c s IH]; [reflexivity|]. simpl.
  destruct (isWhiteSpace c) eqn:Hc; [exact IH | exact Hc].
Qed.

Lemma trimStart_fixed (s : str) :
  isWhiteSpace (hd 0%N s) = false -> trimStart s = s.
Proof. destruct s as [|c s]; [reflexivity|]. simpl. now intros ->. Qed.

Lemma trimEnd_last (s : str) : isWhiteSpace (last (trimEnd s) 0%N) = false.
Proof. unfold trimEnd. rewrite last_rev. apply trimStart_head. Qed.

Lemma trimEnd_fixed (s : str) :
  isWhiteSpace (last s 0%N) = false -> trimEnd s = s.
Proof.
  intros H. unfold trimEnd. rewrite trimStart_fixed.
  - apply rev_involutive.
  - now rewrite hd_rev.
Qed.

Lemma trimEnd_head (s : str) :
  trimEnd s <> [] -> hd 0%N (trimEnd s) = hd 0%N s.
Proof.
  intros H. destruct (trimEnd_split s) as (r & E & _).
  rewrite E at 2. destruct (trimEnd s); [congruence | reflexivity].
Qed.

Lemma trim_ends (s : str) :
  isWhiteSpace (hd 0%N (trim s)) = false
  /\ isWhiteSpace (last (trim s) 0%N) = false.
Proof.
  split; [|apply trimEnd_last]. unfold trim.
  destruct (trimEnd (trimStart s)) eqn:E; [reflexivity|]. rewrite <- E.
  rewrite trimEnd_head by (rewrite E; discriminate). apply trimStart_head.
Qed.

Lemma trim_fixed (s : str) :
  isWhiteSpace (hd 0%N s) = false -> isWhiteSpace (last s 0%N) = false ->
  trim s = s.
Proof.
  intros Hh Hl. unfold trim. rewrite (trimStart_fixed s Hh).
  now apply trimEnd_fixed.
Qed.

Lemma trim_idempotent (s : str) : trim (trim s) = trim s.
Proof. destruct (trim_ends s). now apply trim_fixed. Qed.

(** Lower-casing a trimmed text gives a trimmed text. *)
Lemma trim_lower (s : str) :
  trim s = s -> trim (toLowerCase s) = toLowerCase s.
Proof.
  intros H. destruct (trim_ends s) as [Eh El]. rewrite H in Eh, El.
  apply trim_fixed; apply not_true_iff_false; intros W.
  - apply lower_hd in W. congruence.
  - apply lower_last in W. congruence.
Qed.

(** What [convertWord] does to a word that is not blank depends on its
    trimmed, lower-cased form only. *)
Lemma convertWord_clean (config : NepaliConverterConfig) (word : str) :
  empty (trim word) = false ->
  convertWord config word
  = if enableCommonWords config then
      match get commonWords (toLowerCase (trim word)) with
      | Some v => Some v
      | None =>
          if inherited (toLowerCase (trim word)) then None
          else Some (convertAdvanced (toLowerCase (trim word)))
      end
    else Some (convertAdvanced (toLowerCase (trim word))).
Proof.
  intros Hne. unfold convertWord.
  assert (Hw : empty word = false).
  { destruct word; [|reflexivity]. discriminate. }
  rewrite Hw, Hne. cbn [orb].
  destruct (enableCommonWords config); [|reflexivity].
  destruct (get commonWords (toLowerCase (trim word))) as [v|] eqn:G;
    [|reflexivity].
  pose proof (get_value_truthy _ _ _ et_common G) as T.
  destruct v; [discriminate | reflexivity].
Qed.

Lemma convertWord_insensitive
  (config : NepaliConverterConfig) (w1 w2 : str) :
  empty (trim w1) = false ->
  toLowerCase (trim w1) = toLowerCase (trim w2) ->
  convertWord config w1 = convertWord config w2.
Proof.
  intros H1 E.
  assert (H2 : empty (trim w2) = false).
  { rewrite <- toLowerCase_empty, <- E, toLowerCase_empty. exact H1. }
  now rewrite !convertWord_clean, E by assumption.
Qed.

(** X4: [convertWord] does not see letter case nor white space around
    the word: two words that are not blank and have the same trimmed,
    lower-cased form are converted alike. *)
Theorem X4_convertWord_insensitive
  (config : NepaliConverterConfig) (w1 w2 : str) :
  empty (trim w1) = false ->
  toLowerCase (trim w1) = toLowerCase (trim w2) ->
  convertWord config w1 = convertWord config w2.
Proof. exact (convertWord_insensitive config w1 w2). Qed.

Lemma X4_witness :
  convertWord initialConfig (utf16 "  GHAR") 
  = convertWord initialConfig (utf16 "ghar" ++ [0xA]%N).
Proof. apply X4_convertWord_insensitive; reflexivity. Defined.

(** ** Converting what is converted *)

Lemma devanagari_plain (c : N) :
  devanagari c = true -> isWhiteSpace c = false /\ steady c = true.
Proof.
  intros H. split; [chars | now apply devanagari_steady].
Qed.

Lemma translation_empty (a : str) : translation a [] -> a = [].
Proof.
  intros H. apply translation_length in H as [_ H]. simpl in H.
  destruct a; [reflexivity | simpl in H; lia].
Qed.

Lemma translation_nonempty (a b : str) : translation a b -> a <> [] -> b <> [].
Proof.
  intros H Ha ->. apply Ha. now apply translation_empty.
Qed.

Lemma translation_hd (a b : str) :
  translation a b ->
  isWhiteSpace (hd 0%N b) = true -> isWhiteSpace (hd 0%N a) = true.
Proof.
  intros H. destruct H as [|t k v rest out Ht Hg _|c rest out Hc _];
    [trivial| |trivial].
  destruct (entry_facts t k v Ht Hg) as ((S1 & _) & G & _).
  destruct v as [|g v]; [simpl in S1; lia|]. cbn [app hd].
  cbn in G. apply andb_true_iff in G as [G _].
  destruct (devanagari_plain g G) as [W _]. congruence.
Qed.

Lemma translation_last (a b : str) :
  translation a b ->
  isWhiteSpace (last b 0%N) = true -> isWhiteSpace (last a 0%N) = true.
Proof.
  assert (Rest : forall rest o out, translation rest (o :: out) -> rest <> []).
  { intros rest o out H ->. apply translation_length in H as [H _].
    simpl in H. lia. }
  induction 1 as [|t k v rest out Ht Hg Hr IH|c rest out Hc Hr IH].
  - trivial.
  - destruct out as [|o out].
    + destruct (entry_facts t k v Ht Hg) as ((S1 & _) & G & _).
      rewrite app_nil_r. intros W. exfalso.
      assert (Hv : v <> []) by (destruct v; [simpl in S1; lia | discriminate]).
      pose proof (last_In v 0%N Hv) as I.
      unfold glyphs in G. rewrite forallb_forall in G.
      destruct (devanagari_plain _ (G _ I)). congruence.
    + pose proof (Rest _ _ _ Hr) as Hrest.
      rewrite !last_app_nonempty by (assumption || discriminate).
      exact IH.
  - destruct out as [|o out].
    + apply translation_empty in Hr. subst rest. trivial.
    + pose proof (Rest _ _ _ Hr) as Hrest.
      change (last (c :: o :: out) 0%N) with (last (o :: out) 0%N).
      destruct rest as [|r rest]; [congruence|].
      exact IH.
Qed.

Lemma inherited_not_inert (k : str) : inherited k = true -> inert k = false.
Proof.
  unfold inherited. rewrite existsb_exists. intros (n & Hn & E).
  apply eqb_eq in E. subst n.
  pose proof inherited_has_single as H. rewrite forallb_forall in H.
  specialize (H k Hn). apply existsb_exists in H as (c & Hc & S).
  destruct (inert k) eqn:I; [|reflexivity].
  unfold inert in I. rewrite forallb_forall in I.
  specialize (I c Hc). rewrite S in I. discriminate.
Qed.

(** A text that is not empty, holds no key, and that trimming and
    lower-casing leave alone is returned as it is. *)
Lemma convertWord_fixed (config : NepaliConverterConfig) (o : str) :
  o <> [] -> inert o = true -> trim o = o -> toLowerCase o = o ->
  convertWord config o = Some o.
Proof.
  intros Hne Hin Ht Hl.
  rewrite convertWord_clean by (rewrite Ht; now apply empty_false).
  rewrite Ht, Hl.
  rewrite (inert_no_key commonWords o o et_common Hin (fun _ H => H) Hne).
  destruct (inherited o) eqn:Ei.
  - apply inherited_not_inert in Ei. congruence.
  - rewrite (inert_convertAdvanced o Hin).
    now destruct (enableCommonWords config).
Qed.

Lemma glyphs_normal (v : str) :
  glyphs v = true ->
  inert v = true /\ trim v = v /\ toLowerCase v = v.
Proof.
  intros G. split; [now apply glyphs_inert|].
  unfold glyphs in G. rewrite forallb_forall in G.
  split.
  - destruct v as [|g v]; [reflexivity|].
    apply trim_fixed.
    + apply devanagari_plain, G. now left.
    + apply devanagari_plain, G. apply last_In. discriminate.
  - apply toLowerCase_fixed. rewrite forallb_forall. intros c Hc.
    now apply devanagari_plain, G.
Qed.

Lemma convertAdvanced_normal (clean : str) :
  clean <> [] -> trim clean = clean -> toLowerCase clean = clean ->
  convertAdvanced clean <> []
  /\ inert (convertAdvanced clean) = true
  /\ trim (convertAdvanced clean) = convertAdvanced clean
  /\ toLowerCase (convertAdvanced clean) = convertAdvanced clean.
Proof.
  intros Hne Ht Hl.
  pose proof (convertAdvanced_translates clean) as T.
  destruct (trim_ends clean) as [Eh El]. rewrite Ht in Eh, El.
  repeat split.
  - now apply (translation_nonempty clean).
  - now apply (translation_inert clean).
  - apply trim_fixed; apply not_true_iff_false; intros W.
    + apply (translation_hd _ _ T) in W. congruence.
    + apply (translation_last _ _ T) in W. congruence.
  - apply stable_fixed, (translation_stable clean); [assumption|].
    rewrite <- Hl. apply stable_lower.
Qed.

Lemma convertWord_idempotent (config : NepaliConverterConfig) (w o : str) :
  convertWord config w = Some o -> convertWord config o = Some o.
Proof.
  intros H. destruct (empty (trim w)) eqn:B.
  - unfold convertWord in H. rewrite B, orb_true_r in H.
    injection H as <-. unfold convertWord. now rewrite B, orb_true_r.
  - rewrite convertWord_clean in H by assumption.
    set (clean := toLowerCase (trim w)) in *.
    assert (Hne : clean <> []).
    { apply empty_false. unfold clean. now rewrite toLowerCase_empty. }
    assert (Ht : trim clean = clean).
    { unfold clean. apply trim_lower, trim_idempotent. }
    assert (Hl : toLowerCase clean = clean)
      by apply toLowerCase_idempotent.
    destruct (convertAdvanced_normal clean Hne Ht Hl) as (A1 & A2 & A3 & A4).
    destruct (enableCommonWords config).
    + destruct (get commonWords clean) as [v|] eqn:G.
      * injection H as <-.
        destruct (entry_facts _ _ _ et_common G) as ((S1 & _) & Gl & _).
        destruct (glyphs_normal v Gl) as (V1 & V2 & V3).
        apply convertWord_fixed; try assumption.
        destruct v; [simpl in S1; lia | discriminate].
      * destruct (inherited clean); [discriminate|].
        injection H as <-. now apply convertWord_fixed.
    + injection H as <-. now apply convertWord_fixed.
Qed.

(** X5: [convertWord] is idempotent: a converted word, converted again,
    stays as it is. *)
Theorem X5_convertWord_idempotent
  (config : NepaliConverterConfig) (w o : str) :
  convertWord config w = Some o -> convertWord config o = Some o.
Proof. exact (convertWord_idempotent config w o). Qed.

Lemma X5_witness :
  convertWord initialConfig (utf16 "kshetra-7")
  = Some (utf16 "क्षेत्र-7")
  /\ convertWord initialConfig (utf16 "क्षेत्र-7")
     = Some (utf16 "क्षेत्र-7").
Proof.
  split; [reflexivity|].
  apply (X5_convertWord_idempotent initialConfig (utf16 "kshetra-7")).
  reflexivity.
Defined.

(** ** Tokens *)

Lemma pushWord_acc (words : list str) (currentWord : str) :
  pushWord words currentWord = words ++ pushWord [] currentWord.
Proof.
  unfold pushWord. destruct (empty currentWord); [|reflexivity].
  now rewrite app_nil_r.
Qed.

Lemma splitLoop_acc (chars : str) (words : list str) (currentWord : str) :
  splitLoop chars words currentWord
  = words ++ splitLoop chars [] currentWord.
Proof.
  revert words currentWord.
  induction chars as [|c chars IH]; intros words currentWord; simpl.
  - apply pushWord_acc.
  - destruct (isSeparator c).
    + rewrite IH, (IH (pushWord [] currentWord ++ [[c]])).
      rewrite (pushWord_acc words). now rewrite <- !app_assoc.
    + apply IH.
Qed.

Lemma splitLoop_run (w rest : str) (words : list str) (currentWord : str) :
  noSeparator w = true ->
  splitLoop (w ++ rest) words currentWord
  = splitLoop rest words (currentWord ++ w).
Proof.
  revert currentWord. induction w as [|c w IH]; intros currentWord H.
  - now rewrite app_nil_r.
  - cbn in H. apply andb_true_iff in H as [Hc Hw].
    apply negb_true_iff in Hc. cbn [app splitLoop]. rewrite Hc.
    rewrite IH by assumption. now rewrite <- app_assoc.
Qed.

Lemma splitLoop_separator (a b : str) (c : N) (words : list str)
  (currentWord : str) :
  isSeparator c = true ->
  splitLoop (a ++ c :: b) words currentWord
  = splitLoop a words currentWord ++ [c] :: splitLoop b [] [].
Proof.
  intros Hc. revert words currentWord.
  induction a as [|x a IH]; intros words currentWord.
  - cbn [app splitLoop]. rewrite Hc, splitLoop_acc.
    now rewrite <- app_assoc.
  - cbn [app splitLoop]. destruct (isSeparator x); apply IH.
Qed.

Lemma splitText_separator (a b : str) (c : N) :
  isSeparator c = true ->
  splitText (a ++ c :: b) = splitText a ++ [c] :: splitText b.
Proof. intros Hc. unfold splitText. now apply splitLoop_separator. Qed.

Lemma splitLoop_wellFormed (chars currentWord : str) :
  noSeparator currentWord = true ->
  wellFormed (splitLoop chars [] currentWord) = true.
Proof.
  revert currentWord.
  induction chars as [|c chars IH]; intros currentWord Hcur.
  - cbn [splitLoop]. unfold pushWord.
    destruct (empty currentWord) eqn:E; [reflexivity|].
    cbn. unfold isWordToken. rewrite E, Hcur. cbn. now rewrite orb_true_r.
  - cbn [splitLoop]. destruct (isSeparator c) eqn:Hc.
    + rewrite splitLoop_acc.
      assert (Tail : wellFormed ([c] :: splitLoop chars [] []) = true).
      { cbn [wellFormed isSepToken]. rewrite Hc. cbn. now apply IH. }
      unfold pushWord. destruct (empty currentWord) eqn:E; [exact Tail|].
      cbn [app]. change ([currentWord] ++ [[c]] ++ splitLoop chars [] [])
        with (currentWord :: [c] :: splitLoop chars [] []).
      cbn [wellFormed] in *. cbn [isSepToken] in *. rewrite Hc in *.
      unfold isWordToken. rewrite E, Hcur. cbn [negb andb orb] in *.
      rewrite orb_true_r. exact Tail.
    + apply IH. unfold noSeparator in *. rewrite forallb_app, Hcur.
      cbn. now rewrite Hc.
Qed.

Lemma splitText_wellFormed (text : str) : wellFormed (splitText text) = true.
Proof. now apply splitLoop_wellFormed. Qed.

Lemma splitLoop_roundtrip (tokens : list str) (currentWord : str) :
  wellFormed tokens = true ->
  noSeparator currentWord = true ->
  (currentWord = []
   \/ match tokens with w :: _ => isSepToken w = true | [] => True end) ->
  splitLoop (concat tokens) [] currentWord = pushWord [] currentWord ++ tokens.
Proof.
  revert currentWord.
  induction tokens as [|w tokens IH]; intros currentWord Hwf Hcur Hadj.
  - cbn. now rewrite app_nil_r.
  - cbn [wellFormed] in Hwf. apply andb_true_iff in Hwf as [Hw Hrest].
    cbn [concat].
    destruct (isSepToken w) eqn:Sw.
    + destruct w as [|c [|d w]]; try discriminate. cbn in Sw.
      cbn [app splitLoop]. rewrite Sw, splitLoop_acc.
      rewrite (IH [] Hrest eq_refl (or_introl eq_refl)).
      cbn. now rewrite <- app_assoc.
    + destruct Hadj as [->|F]; [|congruence].
      cbn [orb] in Hw. apply andb_true_iff in Hw as [Ww Next].
      unfold isWordToken in Ww. apply andb_true_iff in Ww as [Ne Ns].
      rewrite splitLoop_run by assumption. cbn [app].
      rewrite (IH w Hrest Ns).
      * unfold pushWord. apply negb_true_iff in Ne. now rewrite Ne.
      * right. destruct tokens; [exact I | exact Next].
Qed.

Lemma splitText_roundtrip (tokens : list str) :
  wellFormed tokens = true -> splitText (concat tokens) = tokens.
Proof.
  intros H. unfold splitText.
  now rewrite (splitLoop_roundtrip tokens [] H eq_refl (or_introl eq_refl)).
Qed.

(** X6: the tokens of [splitText] are never empty; each is one separator
    (the space or a punctuation character) or a run without separators,
    and the runs are maximal: two of them are never adjacent. *)
Theorem X6_splitText_wellFormed (text : str) :
  wellFormed (splitText text) = true.
Proof. exact (splitText_wellFormed text). Qed.

(** X7: [splitText] undoes the joining of a token list of that shape:
    splitting the concatenation gives the tokens back. *)
Theorem X7_splitText_roundtrip (tokens : list str) :
  wellFormed tokens = true -> splitText (concat tokens) = tokens.
Proof. exact (splitText_roundtrip tokens). Qed.

Lemma X7_witness :
  splitText (concat (map utf16 ["mero"; " "; "naam"; ","; " "; "123"]%string))
  = map utf16 ["mero"; " "; "naam"; ","; " "; "123"]%string.
Proof. apply X7_splitText_roundtrip. reflexivity. Defined.

(** ** [convertText], piece by piece *)

Lemma hasLetter_letter (s : str) : hasLetter s = existsb letter s.
Proof. reflexivity. Qed.

Lemma convertToken_separator (config : NepaliConverterConfig) (c : N) :
  isSeparator c = true -> convertToken config [c] = [c].
Proof.
  intros Hc. unfold convertToken. rewrite hasLetter_letter. cbn.
  now rewrite (separator_not_letter c Hc).
Qed.

Lemma convertText_split (config : NepaliConverterConfig) (a b : str) (c : N) :
  isSeparator c = true ->
  convertText config (a ++ c :: b)
  = convertText config a ++ c :: convertText config b.
Proof.
  intros Hc. rewrite !convertText_tokens, splitText_separator by assumption.
  rewrite map_app, concat_app. cbn [map concat].
  now rewrite (convertToken_separator config c Hc).
Qed.

Lemma letter_not_blank (w : str) :
  hasLetter w = true -> empty (trim w) = false.
Proof.
  intros L. destruct (trim w) eqn:E; [|reflexivity]. exfalso.
  apply trim_empty_blank in E. rewrite forallb_forall in E.
  apply existsb_exists in L as (c & Hc & Lc).
  pose proof (space_not_letter c (E c Hc)) as N. unfold letter in N.
  congruence.
Qed.

Lemma convertText_word (config : NepaliConverterConfig) (w : str) :
  noSeparator w = true -> hasLetter w = true ->
  convertText config w = convertedText config w.
Proof.
  intros Ns L. rewrite convertText_tokens.
  assert (Hne : empty w = false).
  { destruct w; [discriminate | reflexivity]. }
  replace (splitText w) with [w].
  - cbn [map concat]. unfold convertToken. rewrite L. apply app_nil_r.
  - symmetry. rewrite <- (app_nil_r w) at 1.
    apply (splitText_roundtrip [w]). cbn. unfold isWordToken.
    rewrite Hne, Ns. cbn. now rewrite orb_true_r.
Qed.

Lemma convertText_no_letter (config : NepaliConverterConfig) (text : str) :
  hasLetter text = false -> convertText config text = text.
Proof.
  intros L. rewrite convertText_tokens.
  rewrite concat_unchanged; [now rewrite splitText_concat|].
  intros w Hw. unfold convertToken.
  replace (hasLetter w) with false; [reflexivity|].
  symmetry. apply not_true_iff_false. intros Lw.
  apply existsb_exists in Lw as (c & Hc & Lc).
  apply not_true_iff_false in L. apply L. apply existsb_exists.
  exists c. split; [|assumption].
  rewrite <- (splitText_concat text). apply in_concat. now exists w.
Qed.

(** X8: a text without a Latin letter (digits, punctuation, white space,
    Devanagari) is returned unchanged by [convertText]. *)
Theorem X8_convertText_no_letter
  (config : NepaliConverterConfig) (text : str) :
  hasLetter text = false -> convertText config text = text.
Proof. exact (convertText_no_letter config text). Qed.

Lemma X8_witness :
  convertText initialConfig (utf16 "राम: 2024-07 (१२)!")
  = utf16 "राम: 2024-07 (१२)!".
Proof. apply X8_convertText_no_letter. reflexivity. Defined.

(** X9: [convertText] works on the two sides of a separator (a space or
    a punctuation character) independently: the conversion of [a], the
    separator, the conversion of [b]. *)
Theorem X9_convertText_split
  (config : NepaliConverterConfig) (a b : str) (c : N) :
  isSeparator c = true ->
  convertText config (a ++ c :: b)
  = convertText config a ++ c :: convertText config b.
Proof. exact (convertText_split config a b c). Qed.

Lemma X9_witness :
  convertText initialConfig (utf16 "mero naam" ++ 0x2C%N :: utf16 " ram ho")
  = convertText initialConfig (utf16 "mero naam")
    ++ 0x2C%N :: convertText initialConfig (utf16 " ram ho").
Proof.
  apply (X9_convertText_split initialConfig (utf16 "mero naam")
           (utf16 " ram ho") 0x2C%N).
  reflexivity.
Defined.

(** X10: on a single word (no separator, at least one Latin letter)
    [convertText] gives the text of what [convertWord] returns: the
    converted word, or, where [convertWord] returns a member of
    [Object.prototype], the text of that member. *)
Theorem X10_convertText_word
  (config : NepaliConverterConfig) (w : str) :
  noSeparator w = true -> hasLetter w = true ->
  convertText config w
  = match convertWord config w with
    | Some converted => converted
    | None => memberText (toLowerCase (trim w))
    end.
Proof. exact (convertText_word config w). Qed.

Lemma X10_witness :
  convertText initialConfig (utf16 "dhanyabad") = utf16 "धन्यवाद"
  /\ convertText initialConfig (utf16 "Constructor")
     = utf16 "function Object() { [native code] }".
Proof.
  split.
  - rewrite (X10_convertText_word initialConfig (utf16 "dhanyabad"));
      reflexivity.
  - rewrite (X10_convertText_word initialConfig (utf16 "Constructor"));
      reflexivity.
Defined.

(** ** Words that convert to text *)

Lemma inherited_no_exception (k : str) :
  inherited k = true -> get commonWords k = None.
Proof.
  intros H. destruct (get commonWords k) as [v|] eqn:G; [|reflexivity].
  exfalso. unfold inherited in H. apply existsb_exists in H as (n & Hn & E).
  apply eqb_eq in E. subst n.
  assert (A : forallb (fun n => match get commonWords n with
                                | Some _ => false
                                | None => true
                                end) objectPrototypeNames = true)
    by (vm_compute; reflexivity).
  rewrite forallb_forall in A. specialize (A k Hn). now rewrite G in A.
Qed.

Lemma convertWord_not_text (config : NepaliConverterConfig) (w : str) :
  convertWord config w = None ->
  enableCommonWords config = true
  /\ inherited (toLowerCase (trim w)) = true.
Proof.
  unfold convertWord.
  destruct (empty w || empty (trim w)); [discriminate|].
  destruct (enableCommonWords config); [|discriminate].
  destruct (get commonWords (toLowerCase (trim w))) as [[|c v]|];
    try discriminate.
  destruct (inherited (toLowerCase (trim w))); [now split | discriminate].
Qed.

(** [convertWord] returns text unless the read of the exception table
    finds an inherited member. *)
Lemma convertWord_text (config : NepaliConverterConfig) (w : str) :
  inheritedName config w = false ->
  exists o, convertWord config w = Some o /\ convertedText config w = o.
Proof.
  intros H. unfold convertedText.
  destruct (convertWord config w) as [o|] eqn:E; [now exists o|].
  apply convertWord_not_text in E as [E1 E2].
  unfold inheritedName in H. rewrite E1, E2 in H. discriminate.
Qed.

Lemma convertWord_member (config : NepaliConverterConfig) (w : str) :
  inheritedName config w = true -> convertWord config w = None.
Proof.
  unfold inheritedName. intros H. apply andb_true_iff in H as [E I].
  assert (B : empty (trim w) = false).
  { destruct (trim w) eqn:T; [|reflexivity].
    exfalso. vm_compute in I. discriminate. }
  rewrite convertWord_clean, E, (inherited_no_exception _ I), I by assumption.
  reflexivity.
Qed.

Lemma lowered_names :
  forallb (fun n => negb (stable n)
                    || eqb n (utf16 "constructor")
                    || eqb n (utf16 "__proto__"))
          objectPrototypeNames = true.
Proof. vm_compute. reflexivity. Qed.

(** Of the names every object inherits, two are lower-case words. *)
Lemma inherited_lowered (w : str) :
  inherited (toLowerCase w) = true ->
  toLowerCase w = utf16 "constructor" \/ toLowerCase w = utf16 "__proto__".
Proof.
  unfold inherited. rewrite existsb_exists. intros (n & Hn & E).
  apply eqb_eq in E. subst n.
  pose proof lowered_names as A. rewrite forallb_forall in A.
  specialize (A _ Hn). rewrite stable_lower in A. cbn [negb orb] in A.
  apply orb_true_iff in A as [A|A]; apply eqb_eq in A; [now left | now right].
Qed.

Lemma convertWord_none (config : NepaliConverterConfig) (w : str) :
  convertWord config w = None
  <-> enableCommonWords config = true
      /\ (toLowerCase (trim w) = utf16 "constructor"
          \/ toLowerCase (trim w) = utf16 "__proto__").
Proof.
  split.
  - intros H. apply convertWord_not_text in H as [E I].
    split; [assumption | now apply inherited_lowered].
  - intros [E I]. apply convertWord_member. unfold inheritedName.
    rewrite E. destruct I as [-> | ->]; reflexivity.
Qed.

(** X21: [convertWord] returns text but for two words: it returns a
    member of [Object.prototype] exactly when whole-word exceptions are
    enabled and the trimmed, lower-cased word is [constructor] or
    [__proto__]. *)
Theorem X21_convertWord_not_text (config : NepaliConverterConfig) (w : str) :
  convertWord config w = None
  <-> enableCommonWords config = true
      /\ (toLowerCase (trim w) = utf16 "constructor"
          \/ toLowerCase (trim w) = utf16 "__proto__").
Proof. exact (convertWord_none config w). Qed.

(** A converted word is a translation of the clean word. *)
Lemma convertWord_translation
  (config : NepaliConverterConfig) (w o : str) :
  empty (trim w) = false -> convertWord config w = Some o ->
  translation (toLowerCase (trim w)) o.
Proof.
  intros B. rewrite convertWord_clean by assumption.
  pose proof (convertAdvanced_translates (toLowerCase (trim w))) as A.
  destruct (enableCommonWords config).
  - destruct (get commonWords (toLowerCase (trim w))) as [v|] eqn:G.
    + intros H. injection H as <-.
      rewrite <- (app_nil_r (toLowerCase (trim w))), <- (app_nil_r v).
      apply (tr_entry commonWords); [constructor | assumption | constructor].
    + destruct (inherited (toLowerCase (trim w))); [discriminate|].
      intros H. now injection H as <-.
  - intros H. now injection H as <-.
Qed.

Lemma convertWord_layout (config : NepaliConverterConfig) (w o : str) :
  empty (trim w) = false -> convertWord config w = Some o ->
  layout o = layout (trim w).
Proof.
  intros B H. rewrite <- (layout_lower (trim w)).
  now apply translation_layout, (convertWord_translation config w).
Qed.

Lemma convertWord_nonempty (config : NepaliConverterConfig) (w x : str) :
  empty (trim w) = false -> convertWord config w = Some x -> x <> [].
Proof.
  intros B H. apply (translation_nonempty (toLowerCase (trim w))).
  - now apply (convertWord_translation config w).
  - apply empty_false. now rewrite toLowerCase_empty.
Qed.

(** ** Layout and separators *)

Lemma points_app (a b : str) :
  isHigh (last a 0%N) && isLow (hd 0%N b) = false ->
  points (a ++ b) = points a ++ points b.
Proof.
  induction a as [| u | u l r IHr IHl] using str_pairs_ind; intros H.
  - reflexivity.
  - cbn [last app] in *. change (points [u]) with [Unit u]. cbn [app].
    destruct (isHigh u) eqn:Eu; [|now apply points_unit].
    apply points_lone. now destruct b.
  - cbn [app]. rewrite !points_cons2.
    destruct (isHigh u && isLow l).
    + cbn [app]. f_equal. apply IHr.
      destruct r as [|x r]; [|exact H].
      cbn [last]. apply andb_false_iff. left. reflexivity.
    + cbn [app]. f_equal. apply IHl. exact H.
Qed.

Lemma layout_app (a b : str) :
  isHigh (last a 0%N) && isLow (hd 0%N b) = false ->
  layout (a ++ b) = layout a ++ layout b.
Proof.
  intros H. unfold layout. now rewrite points_app, filter_app.
Qed.

Lemma separator_plain (c : N) :
  isSeparator c = true -> isHigh c = false /\ isLow c = false.
Proof. intros H. split; chars. Qed.

Lemma sepToken_inv (w : str) :
  isSepToken w = true -> exists c, w = [c] /\ isSeparator c = true.
Proof.
  destruct w as [|c [|d w]]; try discriminate. intros H. now exists c.
Qed.

(** The layout of joined tokens is the layout of each, joined: between
    two tokens there is always a separator, which is no surrogate. *)
Lemma layout_concat (f : str -> str) (tokens : list str) :
  wellFormed tokens = true ->
  (forall w, isSepToken w = true -> f w = w) ->
  layout (concat (map f tokens))
  = concat (map (fun w => layout (f w)) tokens).
Proof.
  intros W Hf. induction tokens as [|w rest IH]; [reflexivity|].
  cbn [wellFormed] in W. apply andb_true_iff in W as [Hw Hrest].
  cbn [map concat]. rewrite <- (IH Hrest). apply layout_app.
  apply orb_true_iff in Hw as [S|Wd].
  - rewrite (Hf w S). apply sepToken_inv in S as (c & -> & Hc).
    cbn [last]. destruct (separator_plain c Hc) as [-> _]. reflexivity.
  - apply andb_true_iff in Wd as [_ Next].
    destruct rest as [|w' rest]; [apply andb_false_r|].
    rewrite (map_cons f w' rest). cbn [concat].
    rewrite (Hf w' Next). apply sepToken_inv in Next as (c & -> & Hc).
    cbn [app hd]. destruct (separator_plain c Hc) as [_ ->].
    apply andb_false_r.
Qed.

Lemma units_of_point (s : str) (p : point) (u : N) :
  In p (points s) -> In u (units p) -> In u s.
Proof.
  intros Hp Hu. rewrite <- (fromPoints_points s).
  unfold fromPoints. apply in_flat_map. now exists p.
Qed.

Lemma point_of_unit (s : str) (c : N) :
  isHigh c = false -> isLow c = false -> In c s -> In (Unit c) (points s).
Proof.
  intros Hh Hl.
  induction s as [| u | u l r IHr IHl] using str_pairs_ind; intros I.
  - destruct I.
  - destruct I as [<-|[]]. now left.
  - rewrite points_cons2. destruct (isHigh u && isLow l) eqn:E.
    + apply andb_true_iff in E as [Eu El].
      destruct I as [<-|[<-|I]]; [congruence | congruence |].
      right. now apply IHr.
    + destruct I as [<-|I]; [now left|]. right. now apply IHl.
Qed.

Lemma separator_kept (c : N) :
  isSeparator c = true -> alphabetic (Unit c) = false.
Proof.
  intros H. unfold isSeparator in H. apply orb_true_iff in H as [H|H].
  - apply N.eqb_eq in H. subst c. vm_compute. reflexivity.
  - apply oneOf_In in H.
    repeat (destruct H as [<-|H]; [vm_compute; reflexivity|]).
    destruct H.
Qed.

Lemma noSeparator_spec (s : str) :
  noSeparator s = true <-> (forall c, In c s -> isSeparator c = false).
Proof.
  unfold noSeparator. rewrite forallb_forall. split; intros H c Hc.
  - now apply negb_true_iff, H.
  - now apply negb_true_iff, H.
Qed.

Lemma layout_noSeparator (w x : str) :
  layout x = layout w -> noSeparator w = true -> noSeparator x = true.
Proof.
  intros E Hw. apply noSeparator_spec. intros c Hc.
  destruct (isSeparator c) eqn:S; [|reflexivity]. exfalso.
  destruct (separator_plain c S) as [Hh Hl].
  assert (I : In (Unit c) (layout x)).
  { apply filter_In. split; [now apply point_of_unit|].
    now rewrite (separator_kept c S). }
  rewrite E in I. apply filter_In in I as [I _].
  apply (units_of_point w _ c) in I; [|now left].
  rewrite noSeparator_spec in Hw. specialize (Hw c I). congruence.
Qed.

Lemma trim_incl (s : str) (c : N) : In c (trim s) -> In c s.
Proof.
  intros H. destruct (trim_split s) as (l & r & E & _).
  rewrite E. apply in_or_app. right. apply in_or_app. now left.
Qed.

Lemma trim_noSeparator (s : str) :
  noSeparator s = true -> noSeparator (trim s) = true.
Proof.
  rewrite !noSeparator_spec. intros H c Hc. now apply H, trim_incl.
Qed.

(** A converted token is a token of the same kind with the layout of the
    stripped token, and converting it again changes nothing. *)
Lemma convertToken_kind (config : NepaliConverterConfig) (w : str) :
  inheritedName config w = false ->
  (isSepToken w = true -> convertToken config w = w)
  /\ (isWordToken w = true -> isWordToken (convertToken config w) = true)
  /\ convertToken config (convertToken config w) = convertToken config w
  /\ layout (convertToken config w) = layout (stripToken w).
Proof.
  intros Inh. destruct (hasLetter w) eqn:L.
  - destruct (convertWord_text config w Inh) as (o & H & Eo).
    assert (E : convertToken config w = o)
      by (unfold convertToken; now rewrite L).
    assert (S : stripToken w = trim w)
      by (unfold stripToken; now rewrite L).
    rewrite E, S.
    pose proof (letter_not_blank w L) as B.
    pose proof (convertWord_layout config w o B H) as Lay.
    split; [|split; [|split]].
    + intros Sp. exfalso. destruct w as [|c [|d w]]; try discriminate.
      cbn in Sp. rewrite hasLetter_letter in L. cbn in L.
      rewrite (separator_not_letter c Sp) in L. discriminate.
    + intros W. unfold isWordToken in *.
      apply andb_true_iff in W as [_ Ns].
      rewrite (layout_noSeparator (trim w) o Lay (trim_noSeparator w Ns)).
      rewrite andb_true_r. apply negb_true_iff, empty_false.
      exact (convertWord_nonempty config w o B H).
    + unfold convertToken. destruct (hasLetter o); [|reflexivity].
      unfold convertedText.
      now rewrite (convertWord_idempotent config w o H).
    + exact Lay.
  - assert (E : convertToken config w = w)
      by (unfold convertToken; now rewrite L).
    assert (S : stripToken w = w) by (unfold stripToken; now rewrite L).
    rewrite E, S, E. now repeat split.
Qed.

Lemma stripToken_separator (w : str) : isSepToken w = true -> stripToken w = w.
Proof.
  intros S. apply sepToken_inv in S as (c & -> & Hc).
  unfold stripToken. rewrite hasLetter_letter. cbn.
  now rewrite (separator_not_letter c Hc).
Qed.

Lemma convertText_layout (config : NepaliConverterConfig) (text : str) :
  forallb (fun w => negb (inheritedName config w)) (splitText text) = true ->
  layout (convertText config text) = layout (stripped text).
Proof.
  intros H. rewrite convertText_tokens. unfold stripped.
  pose proof (splitText_wellFormed text) as W.
  rewrite forallb_forall in H.
  assert (K : forall w, In w (splitText text) ->
                inheritedName config w = false)
    by (intros w Hw; now apply negb_true_iff, H).
  rewrite !layout_concat; try assumption.
  - f_equal. apply map_ext_in. intros w Hw.
    now destruct (convertToken_kind config w (K w Hw)) as (_ & _ & _ & E).
  - apply stripToken_separator.
  - intros w S. unfold convertToken.
    apply sepToken_inv in S as (c & -> & Hc).
    rewrite hasLetter_letter. cbn.
    now rewrite (separator_not_letter c Hc).
Qed.




Lemma wellFormed_In (tokens : list str) (w : str) :
  wellFormed tokens = true -> In w tokens ->
  isSepToken w = true \/ isWordToken w = true.
Proof.
  induction tokens as [|x tokens IH]; intros W I; [destruct I|].
  cbn [wellFormed] in W. apply andb_true_iff in W as [Hx Hrest].
  destruct I as [<-|I]; [|now apply IH].
  apply orb_true_iff in Hx as [S|Wd]; [now left|].
  apply andb_true_iff in Wd as [Wd _]. now right.
Qed.

Lemma space_separator (c : N) :
  isWhiteSpace c = true -> isSeparator c = false -> (c =? 0x20)%N = false.
Proof. intros W S. chars. Qed.

Lemma stripped_spaces_only (text : str) :
  forallb (fun c => negb (isWhiteSpace c) || (c =? 0x20)%N) text = true ->
  stripped text = text.
Proof.
  intros H. unfold stripped.
  rewrite concat_unchanged; [apply splitText_concat|].
  intros w Hw. unfold stripToken. destruct (hasLetter w) eqn:L; [|reflexivity].
  destruct (wellFormed_In _ w (splitText_wellFormed text) Hw) as [S|Wd].
  - exfalso. apply sepToken_inv in S as (c & -> & Hc).
    rewrite hasLetter_letter in L. cbn in L.
    rewrite (separator_not_letter c Hc) in L. discriminate.
  - unfold isWordToken in Wd. apply andb_true_iff in Wd as [Ne Ns].
    apply negb_true_iff, empty_false in Ne.
    rewrite noSeparator_spec in Ns. rewrite forallb_forall in H.
    assert (P : forall c, In c w -> isWhiteSpace c = false).
    { intros c Hc. destruct (isWhiteSpace c) eqn:Wc; [|reflexivity].
      assert (I : In c text).
      { rewrite <- (splitText_concat text). apply in_concat. now exists w. }
      specialize (H c I). rewrite Wc in H. cbn [negb orb] in H.
      rewrite (space_separator c Wc (Ns c Hc)) in H. discriminate. }
    apply trim_fixed; apply P.
    + destruct w; [congruence | now left].
    + now apply last_In.
Qed.

(** X22: on a text whose only white space is the space, the
    non-alphabetic content of [convertText] is that of the text, tokens
    that read an inherited member apart: nothing is trimmed, since a
    token never holds a space. *)
Theorem X22_layout_spaces_only (config : NepaliConverterConfig) (text : str) :
  forallb (fun w => negb (inheritedName config w)) (splitText text) = true ->
  forallb (fun c => negb (isWhiteSpace c) || (c =? 0x20)%N) text = true ->
  layout (convertText config text) = layout text.
Proof.
  intros H S. rewrite (convertText_layout config text H).
  now rewrite (stripped_spaces_only text S).
Qed.

Lemma X22_witness :
  layout (convertText initialConfig (utf16 "mero ghar: (2 kotha), 50% - ram!"))
  = layout (utf16 "mero ghar: (2 kotha), 50% - ram!").
Proof.
  apply (X22_layout_spaces_only initialConfig
           (utf16 "mero ghar: (2 kotha), 50% - ram!"));
    reflexivity.
Defined.

(** ** Converting a converted text *)

Lemma wellFormed_converted
  (config : NepaliConverterConfig) (tokens : list str) :
  (forall w, In w tokens -> inheritedName config w = false) ->
  wellFormed tokens = true ->
  wellFormed (map (convertToken config) tokens) = true.
Proof.
  induction tokens as [|w tokens IH]; intros K; [trivial|].
  cbn [wellFormed map]. intros H. apply andb_true_iff in H as [Hw Hrest].
  rewrite (IH (fun x Hx => K x (or_intror Hx)) Hrest), andb_true_r.
  destruct (convertToken_kind config w (K w (or_introl eq_refl)))
    as (Ks & Kw & _).
  apply orb_true_iff in Hw as [S|W].
  - rewrite (Ks S), S. reflexivity.
  - apply andb_true_iff in W as [W Next].
    rewrite (Kw W). cbn [andb]. apply orb_true_iff. right.
    destruct tokens as [|w' tokens]; [reflexivity|].
    destruct (convertToken_kind config w' (K w' (or_intror (or_introl eq_refl))))
      as (Ks' & _).
    cbn [map]. now rewrite (Ks' Next).
Qed.

Lemma convertText_idempotent (config : NepaliConverterConfig) (text : str) :
  forallb (fun w => negb (inheritedName config w)) (splitText text) = true ->
  convertText config (convertText config text) = convertText config text.
Proof.
  intros H. rewrite forallb_forall in H.
  assert (K : forall w, In w (splitText text) ->
                inheritedName config w = false)
    by (intros w Hw; now apply negb_true_iff, H).
  rewrite (convertText_tokens config text).
  rewrite convertText_tokens.
  rewrite (splitText_roundtrip _
             (wellFormed_converted config _ K (splitText_wellFormed text))).
  rewrite map_map. f_equal. apply map_ext_in. intros w Hw.
  now destruct (convertToken_kind config w (K w Hw)) as (_ & _ & E & _).
Qed.

(** X11: [convertText] is idempotent on every text none of whose tokens
    is a name every object inherits read with the exceptions enabled:
    converting the converted text gives the same text again. *)
Theorem X11_convertText_idempotent
  (config : NepaliConverterConfig) (text : str) :
  forallb (fun w => negb (inheritedName config w)) (splitText text) = true ->
  convertText config (convertText config text) = convertText config text.
Proof. exact (convertText_idempotent config text). Qed.

Lemma X11_witness :
  convertText initialConfig (utf16 "मेरो घअर, q7!")
  = convertText initialConfig (utf16 "mero ghar, q7!").
Proof.
  change (utf16 "मेरो घअर, q7!")
    with (convertText initialConfig (utf16 "mero ghar, q7!")) at 1.
  apply (X11_convertText_idempotent initialConfig (utf16 "mero ghar, q7!")).
  reflexivity.
Defined.

(** ** [handleSpaceKey]: the other paths *)

Lemma space_not_word (c : N) : isWhiteSpace c = true -> isWordChar c = false.
Proof. intros H. chars. Qed.

Lemma lastWordMatch_blank (ws : str) :
  forallb isWhiteSpace ws = true -> lastWordMatch ws = None.
Proof.
  induction ws as [|c ws IH]; [reflexivity|].
  intros H. cbn in H. apply andb_true_iff in H as [Hc Hws].
  cbn [lastWordMatch wordRun]. rewrite (space_not_word c Hc).
  cbn [matchGroup]. now apply IH.
Qed.

Lemma firstn_wordRun (s : str) (j : nat) :
  j <= wordRun s -> forallb isWordChar (firstn j s) = true.
Proof.
  revert j. induction s as [|c s IH]; intros j Hj.
  - now rewrite firstn_nil.
  - destruct j as [|j]; [reflexivity|]. cbn [wordRun] in Hj.
    destruct (isWordChar c) eqn:Hc; [|lia].
    cbn. rewrite Hc. apply IH. lia.
Qed.

(** With a hard character in the text, the pattern does not match at its
    head: the character is left for [\s*] whatever the group takes. *)
Lemma matchGroup_hard (s : str) (h : N) (j : nat) :
  In h s -> hard h = true -> j <= wordRun s -> matchGroup j s = None.
Proof.
  intros Hin Hh. induction j as [|j IH]; intros Hj; [reflexivity|].
  cbn [matchGroup].
  replace (spacesToEnd (skipn (S j) s)) with false; [apply IH; lia|].
  symmetry. apply not_true_iff_false. intros Sp.
  unfold spacesToEnd in Sp. rewrite forallb_forall in Sp.
  pose proof (firstn_wordRun s (S j) Hj) as W. rewrite forallb_forall in W.
  rewrite <- (firstn_skipn (S j) s) in Hin.
  unfold hard in Hh. apply andb_true_iff in Hh as [Hw Hs].
  apply negb_true_iff in Hw, Hs.
  apply in_app_or in Hin as [I|I].
  - specialize (W h I). congruence.
  - specialize (Sp h I). congruence.
Qed.

Lemma lastWordMatch_none (body ws : str) :
  hard (last body 0%N) = true -> forallb isWhiteSpace ws = true ->
  lastWordMatch (body ++ ws) = None.
Proof.
  intros Hh Hws. induction body as [|c body IH].
  - now apply lastWordMatch_blank.
  - assert (M : matchGroup (wordRun ((c :: body) ++ ws)) ((c :: body) ++ ws)
                = None).
    { apply (matchGroup_hard _ (last (c :: body) 0%N));
        [|assumption|apply Nat.le_refl].
      apply in_or_app. left. apply last_In. discriminate. }
    change (lastWordMatch ((c :: body) ++ ws))
      with (match matchGroup (wordRun ((c :: body) ++ ws))
                    ((c :: body) ++ ws) with
            | Some w => Some w
            | None => lastWordMatch (body ++ ws)
            end).
    rewrite M. apply IH.
    destruct body as [|d body]; [reflexivity | exact Hh].
Qed.

Lemma handleSpaceKey_no_word
  (config : NepaliConverterConfig) (text : str) (cursorPosition : Z) :
  autoConvertOnSpace config = true ->
  isWordChar (last (trimEnd (firstn (Z.to_nat cursorPosition) text)) 0%N)
  = false ->
  handleSpaceKey config text cursorPosition
  = (text ++ utf16 " ", Int (cursorPosition + 1)).
Proof.
  intros Hon Hlast. unfold handleSpaceKey. rewrite Hon. cbn [negb].
  rewrite substring_prefix.
  set (before := firstn (Z.to_nat cursorPosition) text) in *.
  destruct (trimEnd_split before) as (ws & E & W).
  rewrite E, lastWordMatch_none; [reflexivity| |assumption].
  unfold hard. now rewrite Hlast, trimEnd_last.
Qed.

(** X12: with the trigger enabled and no word before the cursor (the
    text before the cursor, trailing white space apart, is empty or ends
    with a character that is not a word character), [handleSpaceKey]
    appends one space at the end of the whole text, wherever the cursor
    is, and returns the cursor position plus one. *)
Theorem X12_handleSpaceKey_no_word
  (config : NepaliConverterConfig) (text : str) (cursorPosition : Z) :
  autoConvertOnSpace config = true ->
  isWordChar (last (trimEnd (firstn (Z.to_nat cursorPosition) text)) 0%N)
  = false ->
  handleSpaceKey config text cursorPosition
  = (text ++ utf16 " ", Int (cursorPosition + 1)).
Proof. exact (handleSpaceKey_no_word config text cursorPosition). Qed.

Lemma X12_witness :
  handleSpaceKey initialConfig (utf16 "ram, ho") 4
  = (utf16 "ram, ho ", Int 5).
Proof. apply X12_handleSpaceKey_no_word; reflexivity. Defined.

Lemma matchGroup_stops (before rest : str) (c : N) (k : nat) :
  isWhiteSpace c = false -> k <= length before ->
  matchGroup k (before ++ c :: rest) = None.
Proof.
  intros Hc. induction k as [|k IH]; intros Hk; [reflexivity|].
  cbn [matchGroup]. rewrite skipn_app.
  replace (S k - length before) with 0 by lia. rewrite skipn_O.
  unfold spacesToEnd. rewrite forallb_app. cbn [forallb].
  rewrite Hc. cbn [andb]. rewrite andb_false_r. apply IH. lia.
Qed.

Lemma wordRun_run (run ws : str) :
  forallb isWordChar run = true -> forallb isWhiteSpace ws = true ->
  wordRun (run ++ ws) = length run.
Proof.
  intros Hr Hw. induction run as [|c run IH].
  - destruct ws as [|w ws]; [reflexivity|]. cbn in *.
    apply andb_true_iff in Hw as [Hw _]. now rewrite (space_not_word w Hw).
  - cbn in *. apply andb_true_iff in Hr as [Hc Hr]. rewrite Hc.
    now rewrite IH.
Qed.

Lemma lastWordMatch_padded (before run ws : str) :
  run <> [] -> forallb isWordChar run = true ->
  forallb isWhiteSpace ws = true ->
  isWordChar (last before 0%N) = false ->
  lastWordMatch (before ++ run ++ ws) = Some run.
Proof.
  intros Hne Hrun Hws.
  assert (Here : matchGroup (wordRun (run ++ ws)) (run ++ ws) = Some run).
  { rewrite wordRun_run by assumption.
    destruct run as [|c run]; [congruence|].
    cbn [length matchGroup]. change (S (length run)) with (length (c :: run)).
    rewrite skipn_app, skipn_all, Nat.sub_diag, skipn_O, app_nil_l.
    unfold spacesToEnd. rewrite Hws.
    now rewrite firstn_app, firstn_all, Nat.sub_diag, firstn_O, app_nil_r. }
  induction before as [|c before IH]; intros Hlast.
  - rewrite app_nil_l.
    destruct (run ++ ws) as [|d r] eqn:E.
    + destruct run; [congruence | discriminate].
    + change (lastWordMatch (d :: r))
        with (match matchGroup (wordRun (d :: r)) (d :: r) with
              | Some w => Some w
              | None => lastWordMatch r
              end).
      now rewrite Here.
  - assert (M : matchGroup (wordRun ((c :: before) ++ run ++ ws))
                  ((c :: before) ++ run ++ ws) = None).
    { destruct run as [|x run]; [congruence|].
      cbn in Hrun. apply andb_true_iff in Hrun as [Hx _].
      change ((x :: run) ++ ws) with (x :: run ++ ws).
      apply matchGroup_stops; [now apply word_not_space|].
      apply Nat.lt_le_incl.
      apply wordRun_before; [discriminate | assumption]. }
    change (lastWordMatch ((c :: before) ++ run ++ ws))
      with (match matchGroup (wordRun ((c :: before) ++ run ++ ws))
                    ((c :: before) ++ run ++ ws) with
            | Some w => Some w
            | None => lastWordMatch (before ++ run ++ ws)
            end).
    rewrite M. apply IH.
    destruct before as [|d before]; [reflexivity | exact Hlast].
Qed.

Lemma startsWith_prefix (s w : str) :
  startsWith s w = true -> exists rest, s = w ++ rest.
Proof.
  revert s. induction w as [|y w IH]; intros s H.
  - now exists s.
  - destruct s as [|x s]; [discriminate|]. cbn in H.
    apply andb_true_iff in H as [Hx Hw]. apply N.eqb_eq in Hx. subst y.
    destruct (IH s Hw) as (rest & ->). now exists rest.
Qed.

Lemma wordCount_app (a b : str) : wordCount (a ++ b) = wordCount a + wordCount b.
Proof. unfold wordCount. now rewrite filter_app, length_app. Qed.

Lemma wordCount_run (run : str) :
  forallb isWordChar run = true -> wordCount run = length run.
Proof.
  unfold wordCount. induction run as [|c run IH]; [reflexivity|].
  cbn. intros H. apply andb_true_iff in H as [Hc Hr]. rewrite Hc.
  cbn. now rewrite IH.
Qed.

Lemma wordCount_blank (ws : str) :
  forallb isWhiteSpace ws = true -> wordCount ws = 0.
Proof.
  unfold wordCount. induction ws as [|c ws IH]; [reflexivity|].
  cbn. intros H. apply andb_true_iff in H as [Hc Hr].
  rewrite (space_not_word c Hc). now apply IH.
Qed.

(** The word does not occur again further right: an occurrence there
    would need more word characters than the text has. *)
Lemma no_later_occurrence (run ws : str) (k : nat) :
  run <> [] -> forallb isWordChar run = true ->
  forallb isWhiteSpace ws = true ->
  startsWith (skipn (S k) (run ++ ws)) run = false.
Proof.
  intros Hne Hrun Hws. apply not_true_iff_false. intros S.
  apply startsWith_prefix in S as (rest & E).
  pose proof (firstn_skipn (S k) (run ++ ws)) as F. rewrite E in F.
  apply (f_equal wordCount) in F.
  rewrite !wordCount_app, (wordCount_run run Hrun),
    (wordCount_blank ws Hws) in F.
  destruct run as [|c run]; [congruence|].
  cbn [app firstn] in F. unfold wordCount at 1 in F. cbn [filter] in F.
  cbn in Hrun. apply andb_true_iff in Hrun as [Hc _]. rewrite Hc in F.
  cbn [length] in F. lia.
Qed.

Lemma lastIndexOfFrom_padded (before run ws : str) (k : nat) :
  run <> [] -> forallb isWordChar run = true ->
  forallb isWhiteSpace ws = true ->
  lastIndexOfFrom (before ++ run ++ ws) run (length before + k)
  = Z.of_nat (length before).
Proof.
  intros Hne Hrun Hws. induction k as [|k IH].
  - rewrite Nat.add_0_r.
    assert (S : startsWith (skipn (length before) (before ++ run ++ ws)) run
                = true).
    { rewrite skipn_app, skipn_all, Nat.sub_diag, skipn_O, app_nil_l.
      apply startsWith_refl. }
    destruct (length before) as [|n]; cbn [lastIndexOfFrom]; now rewrite S.
  - replace (length before + S k) with (S (length before + k)) by lia.
    cbn [lastIndexOfFrom].
    replace (skipn (S (length before + k)) (before ++ run ++ ws))
      with (skipn (S k) (run ++ ws)).
    + rewrite no_later_occurrence by assumption. exact IH.
    + rewrite (skipn_app (S (length before + k)) before).
      rewrite (skipn_all2 before) by lia. rewrite app_nil_l.
      f_equal. lia.
Qed.

Lemma lastIndexOf_padded (before run ws : str) :
  run <> [] -> forallb isWordChar run = true ->
  forallb isWhiteSpace ws = true ->
  lastIndexOf (before ++ run ++ ws) run = Z.of_nat (length before).
Proof.
  intros Hne Hrun Hws. unfold lastIndexOf. rewrite !length_app.
  replace (length run <=? length before + (length run + length ws))
    with true by (symmetry; apply Nat.leb_le; lia).
  replace (length before + (length run + length ws) - length run)
    with (length before + length ws) by lia.
  now apply lastIndexOfFrom_padded.
Qed.

Lemma handleSpaceKey_word
  (config : NepaliConverterConfig) (text : str) (cursorPosition : Z)
  (before run ws : str) :
  autoConvertOnSpace config = true ->
  firstn (Z.to_nat cursorPosition) text = before ++ run ++ ws ->
  empty run = false ->
  forallb isWordChar run = true ->
  forallb isWhiteSpace ws = true ->
  isWordChar (last before 0%N) = false ->
  handleSpaceKey config text cursorPosition
  = (before ++ convertedText config run ++ utf16 " "
       ++ skipn (Z.to_nat cursorPosition) text,
     add (add (Int (Z.of_nat (length before))) (convertedLength config run))
         (Int 1)).
Proof.
  intros Hon Hbefore Hne Hrun Hws Hmax. unfold handleSpaceKey.
  apply empty_false in Hne.
  rewrite Hon. cbn [negb].
  rewrite substring_prefix, substring_suffix, Hbefore.
  rewrite (lastWordMatch_padded before run ws Hne Hrun Hws Hmax).
  rewrite lastIndexOf_padded by assumption.
  rewrite Nat2Z.id, substring_prefix.
  rewrite firstn_app, firstn_all, Nat.sub_diag, firstn_O, app_nil_r.
  reflexivity.
Qed.

(** X13: white space between the last word and the cursor is not kept:
    with the trigger enabled and, before the cursor, a maximal run of
    word characters followed by white space only, [handleSpaceKey]
    returns the text before the run, what [convertWord] returns for the
    run, one space and the text after the cursor.  When [convertWord]
    returns text, the cursor is right after that space.  When it returns
    a member of [Object.prototype] (the run is [constructor] or
    [__proto__], in any letter case, and the exceptions are enabled), the
    text of the member is spliced in and its [length] enters the
    cursor. *)
Theorem X13_handleSpaceKey_padded_word
  (config : NepaliConverterConfig) (text : str) (cursorPosition : Z)
  (before run ws : str) :
  autoConvertOnSpace config = true ->
  firstn (Z.to_nat cursorPosition) text = before ++ run ++ ws ->
  empty run = false ->
  forallb isWordChar run = true ->
  forallb isWhiteSpace ws = true ->
  isWordChar (last before 0%N) = false ->
  handleSpaceKey config text cursorPosition
  = match convertWord config run with
    | Some converted =>
        (before ++ converted ++ utf16 " "
           ++ skipn (Z.to_nat cursorPosition) text,
         Int (Z.of_nat (length before) + Z.of_nat (length converted) + 1))
    | None =>
        (before ++ memberText (toLowerCase (trim run)) ++ utf16 " "
           ++ skipn (Z.to_nat cursorPosition) text,
         add (add (Int (Z.of_nat (length before)))
                  (memberLength (toLowerCase (trim run))))
             (Int 1))
    end.
Proof.
  intros Hon Hbefore Hne Hrun Hws Hmax.
  rewrite (handleSpaceKey_word config text cursorPosition before run ws)
    by assumption.
  unfold convertedText, convertedLength.
  now destruct (convertWord config run).
Qed.

Lemma X13_witness :
  handleSpaceKey initialConfig (utf16 "ho, ram   x") 10
  = (utf16 "ho, राम x", Int 8)
  /\ handleSpaceKey initialConfig (utf16 "Constructor  ") 12
     = (utf16 "function Object() { [native code] }  ", Int 2).
Proof.
  split.
  - apply (X13_handleSpaceKey_padded_word initialConfig (utf16 "ho, ram   x")
             10 (utf16 "ho, ") (utf16 "ram") (utf16 "   "));
      reflexivity.
  - apply (X13_handleSpaceKey_padded_word initialConfig
             (utf16 "Constructor  ") 12 [] (utf16 "Constructor")
             (utf16 " "));
      reflexivity.
Defined.

Lemma member_lengths :
  forallb (fun k => match memberLength k with
                    | Int n => (0 <=? n)%Z
                               && (n <=? Z.of_nat (length (memberText k)))%Z
                    | NaN => eqb k (utf16 "__proto__")
                    end) objectPrototypeNames = true.
Proof. vm_compute. reflexivity. Qed.

Lemma member_length (k : str) :
  inherited k = true ->
  match memberLength k with
  | Int n => (0 <= n <= Z.of_nat (length (memberText k)))%Z
  | NaN => k = utf16 "__proto__"
  end.
Proof.
  unfold inherited. rewrite existsb_exists. intros (n & Hn & E).
  apply eqb_eq in E. subst n.
  pose proof member_lengths as A. rewrite forallb_forall in A.
  specialize (A k Hn). destruct (memberLength k) as [n|].
  - apply andb_true_iff in A as [A1 A2]. lia.
  - now apply eqb_eq.
Qed.

Lemma handleSpaceKey_in_range
  (config : NepaliConverterConfig) (text : str) (cursor : Z) :
  (0 <= cursor <= Z.of_nat (length text))%Z ->
  match snd (handleSpaceKey config text cursor) with
  | Int cursor' =>
      (0 <= cursor'
       <= Z.of_nat (length (fst (handleSpaceKey config text cursor))))%Z
  | NaN =>
      enableCommonWords config = true
      /\ exists w,
           lastWordMatch (firstn (Z.to_nat cursor) text) = Some w
           /\ toLowerCase (trim w) = utf16 "__proto__"
  end.
Proof.
  unfold handleSpaceKey. intros R.
  destruct (negb (autoConvertOnSpace config)); [exact R|].
  rewrite substring_prefix.
  destruct (lastWordMatch _) as [lastWord|] eqn:M; cbn [fst snd].
  - unfold convertedText, convertedLength.
    destruct (convertWord config lastWord) as [converted|] eqn:E.
    + cbn [add]. rewrite !length_app.
      change (length (utf16 " ")) with 1. lia.
    + apply convertWord_not_text in E as [E1 E2].
      pose proof (member_length _ E2) as L.
      destruct (memberLength (toLowerCase (trim lastWord))) as [n|]; cbn [add].
      * rewrite !length_app. change (length (utf16 " ")) with 1. lia.
      * split; [assumption|]. now exists lastWord.
  - rewrite length_app. change (length (utf16 " ")) with 1. lia.
Qed.

(** X14: [handleSpaceKey] keeps the cursor inside the text but for one
    word: for a cursor between [0] and the length of the text, the
    cursor it returns lies between [0] and the length of the text it
    returns, unless it is [NaN], which happens only when the exceptions
    are enabled and the word before the cursor is [__proto__], in any
    letter case. *)
Theorem X14_handleSpaceKey_cursor_in_range
  (config : NepaliConverterConfig) (text : str) (cursor : Z) :
  (0 <= cursor <= Z.of_nat (length text))%Z ->
  match snd (handleSpaceKey config text cursor) with
  | Int cursor' =>
      (0 <= cursor'
       <= Z.of_nat (length (fst (handleSpaceKey config text cursor))))%Z
  | NaN =>
      enableCommonWords config = true
      /\ exists w,
           lastWordMatch (firstn (Z.to_nat cursor) text) = Some w
           /\ toLowerCase (trim w) = utf16 "__proto__"
  end.
Proof. exact (handleSpaceKey_in_range config text cursor). Qed.

Lemma X14_witness :
  (0 <= 8 <= Z.of_nat (length (utf16 "ho, राम x")))%Z
  /\ (0 <= 2
      <= Z.of_nat (length (utf16 "function Object() { [native code] } ")))%Z.
Proof.
  split.
  - apply (X14_handleSpaceKey_cursor_in_range initialConfig
             (utf16 "ho, ram   x") 10).
    simpl. lia.
  - apply (X14_handleSpaceKey_cursor_in_range initialConfig
             (utf16 "constructor") 11).
    simpl. lia.
Defined.

(** ** Typing word by word *)

Lemma word_not_separator (c : N) : isWordChar c = true -> isSeparator c = false.
Proof. intros H. chars. Qed.

Lemma word_no_letter_plain (c : N) :
  isWordChar c = true -> letter c = false ->
  inAlphabet c = false /\ steady c = true.
Proof.
  intros W L. split; [|apply ascii_steady; chars].
  destruct (inAlphabet c) eqn:A; [|reflexivity]. exfalso.
  assert (D : (range "0" "9" c || (c =? code "_")%N) = true).
  { unfold isWordChar, letter in *.
    destruct (range "a" "z" c), (range "A" "Z" c); try discriminate.
    exact W. }
  assert (Hd : forallb (fun d => negb (inAlphabet d)) (utf16 "0123456789_")
               = true) by (vm_compute; reflexivity).
  rewrite forallb_forall in Hd.
  assert (I : In c (utf16 "0123456789_")).
  { apply orb_true_iff in D as [D|D].
    - apply range_spec in D. cbn in D. cbn.
      assert (c = 48 \/ c = 49 \/ c = 50 \/ c = 51 \/ c = 52 \/ c = 53
              \/ c = 54 \/ c = 55 \/ c = 56 \/ c = 57)%N by lia.
      intuition (subst; auto 12).
    - apply N.eqb_eq in D. subst c. cbn. auto 12. }
  specialize (Hd c I). rewrite A in Hd. discriminate.
Qed.

Lemma inAlphabet_singleKey (c : N) : inAlphabet c = false -> singleKey c = false.
Proof.
  intros A. destruct (singleKey c) eqn:S; [|reflexivity].
  apply singleKey_alphabet in S. congruence.
Qed.

(** On a run of word characters [convertText] gives the text of what
    [convertWord] returns, with or without a letter in the run. *)
Lemma convertText_run (config : NepaliConverterConfig) (w : str) :
  empty w = false -> forallb isWordChar w = true ->
  convertText config w = convertedText config w.
Proof.
  intros Hne Hw.
  assert (Ns : noSeparator w = true).
  { apply noSeparator_spec. intros c Hc. apply word_not_separator.
    rewrite forallb_forall in Hw. now apply Hw. }
  destruct (hasLetter w) eqn:L; [now apply convertText_word|].
  rewrite convertText_no_letter by assumption. symmetry.
  rewrite forallb_forall in Hw.
  assert (P : forall c, In c w -> inAlphabet c = false /\ steady c = true).
  { intros c Hc. apply word_no_letter_plain; [now apply Hw|].
    destruct (letter c) eqn:Lc; [|reflexivity]. exfalso.
    apply not_true_iff_false in L. apply L. apply existsb_exists.
    now exists c. }
  apply empty_false in Hne.
  unfold convertedText. rewrite convertWord_fixed; [reflexivity|assumption| | |].
  - apply forallb_forall. intros c Hc.
    apply negb_true_iff, inAlphabet_singleKey. now apply P.
  - apply trim_fixed; apply word_not_space, Hw.
    + destruct w; [congruence | now left].
    + now apply last_In.
  - apply toLowerCase_fixed. apply forallb_forall. intros c Hc. now apply P.
Qed.

Lemma typeWords_from
  (config : NepaliConverterConfig) (typed : str) (words : list str) :
  autoConvertOnSpace config = true ->
  Forall (fun w => empty w = false /\ forallb isWordChar w = true) words ->
  isWordChar (last typed 0%N) = false ->
  typeWords config typed words
  = typed ++ convertText config
               (concat (map (fun w => w ++ utf16 " ") words)).
Proof.
  intros Hon Hwords. revert typed.
  induction Hwords as [|w words [Hne Hw] _ IH]; intros typed Hlast.
  - cbn. now rewrite app_nil_r.
  - cbn [typeWords map concat].
    rewrite (handleSpaceKey_word config (typed ++ w) _ typed w []);
      try assumption; try reflexivity.
    2:{ rewrite Nat2Z.id, firstn_all. now rewrite app_nil_r. }
    cbn [fst]. rewrite Nat2Z.id, skipn_all.
    change ((w ++ utf16 " ") ++ concat (map (fun w0 => w0 ++ utf16 " ") words))
      with ((w ++ [32%N]) ++ concat (map (fun w0 => w0 ++ utf16 " ") words)).
    rewrite <- app_assoc. change ([32%N] ++ ?x) with (32%N :: x).
    rewrite (convertText_split config w _ 32%N eq_refl).
    rewrite (convertText_run config w Hne Hw).
    rewrite IH.
    + rewrite app_nil_r. rewrite <- !app_assoc. reflexivity.
    + rewrite app_assoc, app_nil_r.
      now rewrite last_app_nonempty by discriminate.
Qed.

(** X15: typing word by word gives what [convertText] gives for the whole
    line: starting from the empty text, typing each word (a non-empty
    run of word characters) and pressing the space key with the cursor at
    the end yields [convertText] of the words, each followed by a
    space. *)
Theorem X15_typing_is_convertText
  (config : NepaliConverterConfig) (words : list str) :
  autoConvertOnSpace config = true ->
  Forall (fun w => empty w = false /\ forallb isWordChar w = true) words ->
  typeWords config [] words
  = convertText config (concat (map (fun w => w ++ utf16 " ") words)).
Proof.
  intros Hon Hwords.
  exact (typeWords_from config [] words Hon Hwords eq_refl).
Qed.

Lemma X15_witness :
  typeWords initialConfig [] (map utf16 ["mero"; "naam"; "ram"; "ho"]%string)
  = convertText initialConfig (utf16 "mero naam ram ho ").
Proof.
  apply (X15_typing_is_convertText initialConfig
           (map utf16 ["mero"; "naam"; "ram"; "ho"]%string));
    [reflexivity | repeat constructor].
Defined.

(** ** Builder, converter and their configuration objects *)

Import Instances.

Lemma assign_same {A : Type} (l : list A) (r : nat) (x : A) :
  r < length l -> nth_error (assign l r x) r = Some x.
Proof.
  revert r. induction l as [|y l IH]; intros [|r] H; simpl in *;
    try lia; [reflexivity | apply IH; lia].
Qed.

Lemma assign_other {A : Type} (l : list A) (r r' : nat) (x : A) :
  r <> r' -> nth_error (assign l r x) r' = nth_error l r'.
Proof.
  revert r r'. induction l as [|y l IH]; intros [|r] [|r'] H; simpl;
    try reflexivity; try congruence.
  apply IH. congruence.
Qed.

Lemma nth_error_grown {A : Type} (l : list A) (r : nat) (x y : A) :
  nth_error l r = Some x -> nth_error (l ++ [y]) r = Some x.
Proof.
  intros H. rewrite nth_error_app1; [assumption|].
  apply nth_error_Some. congruence.
Qed.

Lemma nth_error_fresh {A : Type} (l : list A) (y : A) :
  nth_error (l ++ [y]) (length l) = Some y.
Proof. rewrite nth_error_app2, Nat.sub_diag by lia. reflexivity. Qed.

Lemma built_shares (s : store) (b : Builder.t) (c : NepaliConverterConfig)
  (set : bool -> NepaliConverterConfig -> NepaliConverterConfig)
  (enabled : bool) :
  nth_error (configs s) (Builder.config b) = Some c ->
  Converter.config
    (Builder.mutate set enabled (fst (Builder.build s b)) b)
    (snd (Builder.build s b))
  = Some (set enabled c).
Proof.
  intros H. unfold Builder.build, Builder.mutate, Converter.config.
  cbn [fst snd configs converters]. rewrite H.
  cbn [setConfig configs converters].
  rewrite nth_error_fresh. apply assign_same.
  apply nth_error_Some. congruence.
Qed.

(** X16: a converter shares the configuration object of the builder that
    built it: a setter called on the builder after [build] changes the
    configuration of the converter already built. *)
Theorem X16_builder_shares_config
  (s : store) (b : Builder.t) (c : NepaliConverterConfig) (enabled : bool) :
  nth_error (configs s) (Builder.config b) = Some c ->
  let s1 := fst (Builder.build s b) in
  let k := snd (Builder.build s b) in
  Converter.config s1 k = Some c
  /\ Converter.config (Builder.withAutoConvertOnSpace enabled s1 b) k
     = Some (withAutoConvertOnSpace enabled c)
  /\ Converter.config (Builder.withCaseSensitive enabled s1 b) k
     = Some (withCaseSensitive enabled c)
  /\ Converter.config (Builder.withPreservePunctuation enabled s1 b) k
     = Some (withPreservePunctuation enabled c)
  /\ Converter.config (Builder.withCommonWords enabled s1 b) k
     = Some (withCommonWords enabled c).
Proof.
  intros H s1 k. split.
  - unfold s1, k, Builder.build, Converter.config.
    cbn [fst snd configs converters]. now rewrite nth_error_fresh.
  - repeat split; now apply built_shares.
Qed.

Lemma X16_witness :
  let s0 := fst (Builder.new emptyStore) in
  let b := snd (Builder.new emptyStore) in
  let s1 := fst (Builder.build s0 b) in
  let k := snd (Builder.build s0 b) in
  Converter.config (Builder.withCommonWords false s1 b) k
  = Some (withCommonWords false initialConfig).
Proof.
  intros s0 b s1 k.
  apply (X16_builder_shares_config s0 b initialConfig false). reflexivity.
Defined.

Lemma updateConfig_own (s : store) (k : ref) (c : NepaliConverterConfig)
  (patch : PartialConfig) :
  Converter.config s k = Some c ->
  Converter.config (Converter.updateConfig s k patch) k
  = Some (spread c patch).
Proof.
  intros H. unfold Converter.updateConfig. rewrite H.
  unfold Converter.config in *. cbn [allocConfig configs converters].
  destruct (nth_error (converters s) k) as [r|] eqn:E; [|discriminate].
  rewrite assign_same by (apply nth_error_Some; congruence).
  apply nth_error_fresh.
Qed.

Lemma updateConfig_others (s : store) (k k' : ref)
  (c c' : NepaliConverterConfig) (patch : PartialConfig) :
  Converter.config s k = Some c -> Converter.config s k' = Some c' ->
  k' <> k ->
  Converter.config (Converter.updateConfig s k patch) k' = Some c'.
Proof.
  intros H H' Hk. unfold Converter.updateConfig. rewrite H.
  unfold Converter.config in *. cbn [allocConfig configs converters].
  rewrite assign_other by congruence.
  destruct (nth_error (converters s) k') as [r|]; [|discriminate].
  now apply nth_error_grown.
Qed.

Lemma updateConfig_detached (s : store) (k : ref) (b : Builder.t)
  (c cb : NepaliConverterConfig) (patch : PartialConfig)
  (set : bool -> NepaliConverterConfig -> NepaliConverterConfig)
  (enabled : bool) :
  Converter.config s k = Some c ->
  nth_error (configs s) (Builder.config b) = Some cb ->
  Converter.config
    (Builder.mutate set enabled (Converter.updateConfig s k patch) b) k
  = Some (spread c patch).
Proof.
  intros H Hb.
  unfold Converter.updateConfig. rewrite H.
  unfold Builder.mutate. cbn [allocConfig configs converters].
  rewrite (nth_error_grown _ _ cb _ Hb).
  unfold Converter.config in *. cbn [setConfig configs converters].
  destruct (nth_error (converters s) k) as [r0|] eqn:E0; [|discriminate].
  rewrite assign_same by (apply nth_error_Some; congruence).
  rewrite assign_other; [apply nth_error_fresh|].
  assert (Builder.config b < length (configs s))
    by (apply nth_error_Some; congruence).
  lia.
Qed.

(** X17: [updateConfig] gives the converter a configuration object of its
    own, holding the old values overridden by the fields of the patch:
    the configuration of every other converter stays what it was, and
    setters called on the builder afterwards no longer reach this
    converter. *)
Theorem X17_updateConfig_detaches
  (s : store) (k : ref) (b : Builder.t) (c cb : NepaliConverterConfig)
  (patch : PartialConfig) (enabled : bool) :
  Converter.config s k = Some c ->
  nth_error (configs s) (Builder.config b) = Some cb ->
  let s' := Converter.updateConfig s k patch in
  Converter.config s' k = Some (spread c patch)
  /\ (forall k' c', Converter.config s k' = Some c' -> k' <> k ->
                    Converter.config s' k' = Some c')
  /\ Converter.config (Builder.withAutoConvertOnSpace enabled s' b) k
     = Some (spread c patch)
  /\ Converter.config (Builder.withCaseSensitive enabled s' b) k
     = Some (spread c patch)
  /\ Converter.config (Builder.withPreservePunctuation enabled s' b) k
     = Some (spread c patch)
  /\ Converter.config (Builder.withCommonWords enabled s' b) k
     = Some (spread c patch).
Proof.
  intros H Hb s'. split; [now apply updateConfig_own|].
  split; [intros k' c' H' Hk; now apply (updateConfig_others s k k' c)|].
  repeat split; now apply (updateConfig_detached s k b c cb).
Qed.

Lemma X17_witness :
  let s0 := fst (Builder.new emptyStore) in
  let b := snd (Builder.new emptyStore) in
  let s1 := fst (Builder.build s0 b) in
  let k := snd (Builder.build s0 b) in
  let patch := {| autoConvertOnSpace_opt := None;
                  caseSensitive_opt := None;
                  preservePunctuation_opt := None;
                  enableCommonWords_opt := Some false |} in
  Converter.config
    (Builder.withCommonWords true (Converter.updateConfig s1 k patch) b) k
  = Some (withCommonWords false initialConfig).
Proof.
  intros s0 b s1 k patch.
  apply (X17_updateConfig_detaches s1 k b initialConfig initialConfig
           patch true); reflexivity.
Defined.

(** ** The helper functions of the tables *)

Lemma half_of_base :
  forallb (fun e => match get halfConsonants (fst e) with
                    | Some h => eqb h (snd e ++ HALANT)
                    | None => false
                    end) baseConsonants = true.
Proof. vm_compute. reflexivity. Qed.

Lemma base_of_half :
  forallb (fun e => match get baseConsonants (fst e) with
                    | Some b => eqb (snd e) (b ++ HALANT)
                    | None => false
                    end) halfConsonants = true.
Proof. vm_compute. reflexivity. Qed.

Lemma vowel_not_consonant :
  forallb (fun e => match get baseConsonants (fst e) with
                    | Some _ => false
                    | None => true
                    end) vowels = true.
Proof. vm_compute. reflexivity. Qed.

Lemma inherited_no_entry :
  forallb (fun k => match get vowels k, get baseConsonants k,
                          get halfConsonants k with
                    | None, None, None => true
                    | _, _, _ => false
                    end) objectPrototypeNames = true.
Proof. vm_compute. reflexivity. Qed.

Lemma half_iff_base (k b : str) :
  get baseConsonants k = Some b <->
  get halfConsonants k = Some (b ++ HALANT).
Proof.
  split; intros H.
  - pose proof (get_forallb _ _ _ _ half_of_base H) as E. cbn [fst snd] in E.
    destruct (get halfConsonants k) as [h|]; [|discriminate].
    apply eqb_eq in E. now subst.
  - pose proof (get_forallb _ _ _ _ base_of_half H) as E. cbn [fst snd] in E.
    destruct (get baseConsonants k) as [b'|]; [|discriminate].
    apply eqb_eq in E. apply app_inv_tail in E. now subst.
Qed.

(** X18: the helper functions of the tables agree with one another: a
    sequence is a consonant exactly when it has a base form, and exactly
    when it has a half form; a half form that is text is the base form
    followed by the halant; and a sequence is reported both a vowel and
    a consonant exactly when it is a name every object inherits. *)
Theorem X18_table_helpers (k : str) :
  (isConsonant k = true <-> getBaseConsonant k <> None)
  /\ (isConsonant k = true <-> getHalfConsonant k <> None)
  /\ (forall b, getBaseConsonant k = Some (Text b)
                <-> getHalfConsonant k = Some (Text (b ++ getHalant)))
  /\ isVowel k && isConsonant k = inherited k.
Proof.
  unfold isConsonant, isVowel, getBaseConsonant, getHalfConsonant, getHalant,
    has, read.
  assert (Inh : inherited k = true ->
                get vowels k = None /\ get baseConsonants k = None
                /\ get halfConsonants k = None).
  { unfold inherited. rewrite existsb_exists. intros (n & Hn & E).
    apply eqb_eq in E. subst n.
    pose proof inherited_no_entry as H. rewrite forallb_forall in H.
    specialize (H k Hn).
    destruct (get vowels k), (get baseConsonants k), (get halfConsonants k);
      try discriminate. now repeat split. }
  destruct (get baseConsonants k) as [b|] eqn:Eb.
  - pose proof (get_value_truthy _ _ _ et_base Eb) as Tb.
    pose proof (proj1 (half_iff_base k b) Eb) as Eh. rewrite Eh.
    assert (Ni : inherited k = false).
    { destruct (inherited k) eqn:I; [|reflexivity].
      destruct (Inh eq_refl) as (_ & B & _). congruence. }
    assert (Nv : get vowels k = None).
    { destruct (get vowels k) as [v|] eqn:Ev; [|reflexivity].
      pose proof (get_forallb _ _ _ _ vowel_not_consonant Ev) as E.
      cbn [fst] in E. now rewrite Eb in E. }
    rewrite Nv, Ni.
    destruct b as [|x b]; [discriminate|]. cbn [orNull app].
    repeat split; try discriminate; try reflexivity.
    + intros H. injection H as <-. reflexivity.
    + intros H. injection H as H.
      change (x :: b ++ HALANT) with ((x :: b) ++ HALANT) in H.
      apply app_inv_tail in H. now subst.
  - assert (Eh : get halfConsonants k = None).
    { destruct (get halfConsonants k) as [h|] eqn:E; [|reflexivity].
      pose proof (get_forallb _ _ _ _ base_of_half E) as F. cbn [fst] in F.
      now rewrite Eb in F. }
    rewrite Eh. destruct (inherited k) eqn:I.
    + destruct (Inh eq_refl) as (V & _ & _). rewrite V. cbn [orNull].
      repeat split; try discriminate; try reflexivity; intros; congruence.
    + cbn [orNull]. rewrite andb_false_r.
      repeat split; try discriminate; try congruence; intros H; congruence.
Qed.

(** ** Composition across a barrier *)

Lemma substring_shift (p s : str) (a b : nat) :
  substring (p ++ s) (length p + a) (length p + b) = substring s a b.
Proof.
  unfold substring. rewrite length_app.
  set (a' := Nat.min a (length s)). set (b' := Nat.min b (length s)).
  replace (Nat.min (length p + a) (length p + length s))
    with (length p + a') by (unfold a'; lia).
  replace (Nat.min (length p + b) (length p + length s))
    with (length p + b') by (unfold b'; lia).
  replace (Nat.min (length p + a') (length p + b'))
    with (length p + Nat.min a' b') by lia.
  replace (Nat.max (length p + a') (length p + b'))
    with (length p + Nat.max a' b') by lia.
  replace (length p + Nat.max a' b' - (length p + Nat.min a' b'))
    with (Nat.max a' b' - Nat.min a' b') by lia.
  f_equal. rewrite skipn_app.
  rewrite skipn_all2 by lia. rewrite app_nil_l. f_equal. lia.
Qed.

Lemma index_shift (p s : str) (i : nat) :
  index (p ++ s) (length p + i) = index s i.
Proof.
  unfold index. f_equal. rewrite skipn_app.
  rewrite skipn_all2 by lia. rewrite app_nil_l. f_equal. lia.
Qed.

Lemma singleCharStep_resolve (text : str) (i : nat) :
  singleCharStep text i
  = resolve (index text i)
      (consonantNext (if i + 1 <? length text
                      then Some (index text (i + 1)) else None))
      (matraOf (if i + 1 <? length text
                then Some (index text (i + 1)) else None))
      (matraOf (if i + 2 <? length text
                then Some (substring text (i + 1) (i + 3)) else None))
      i.
Proof. reflexivity. Qed.

Lemma resolve_shift (sc : str) (cn : bool) (m1 m2 : option str) (n i : nat) :
  resolve sc cn m1 m2 (n + i)
  = (fst (resolve sc cn m1 m2 i), n + snd (resolve sc cn m1 m2 i)).
Proof.
  unfold resolve.
  repeat match goal with
         | |- context [match ?x with _ => _ end] => destruct x
         end; cbn [fst snd]; f_equal; lia.
Qed.

(** An iteration reads the text from its position on only. *)
Lemma iteration_shift (p s : str) (i : nat) :
  iteration (p ++ s) (length p + i)
  = (fst (iteration s i), length p + snd (iteration s i)).
Proof.
  unfold iteration. rewrite length_app.
  assert (L : forall n, (length p + i + n <=? length p + length s)
                        = (i + n <=? length s)).
  { intros n. destruct (i + n <=? length s) eqn:E.
    - apply Nat.leb_le in E. apply Nat.leb_le. lia.
    - apply Nat.leb_gt in E. apply Nat.leb_gt. lia. }
  assert (S : forall n, substring (p ++ s) (length p + i) (length p + i + n)
                        = substring s i (i + n)).
  { intros n. rewrite <- Nat.add_assoc. apply substring_shift. }
  rewrite !L, !S.
  destruct (if i + 4 <=? length s
            then tableMatch (substring s i (i + 4)) else None);
    [cbn [fst snd]; f_equal; lia|].
  destruct (if i + 3 <=? length s
            then tableMatch (substring s i (i + 3)) else None);
    [cbn [fst snd]; f_equal; lia|].
  destruct (if i + 2 <=? length s
            then twoCharMatch (substring s i (i + 2)) else None);
    [cbn [fst snd]; f_equal; lia|].
  rewrite !singleCharStep_resolve, length_app.
  assert (B : forall n, (length p + i + n <? length p + length s)
                        = (i + n <? length s)).
  { intros n. destruct (i + n <? length s) eqn:E.
    - apply Nat.ltb_lt in E. apply Nat.ltb_lt. lia.
    - apply Nat.ltb_ge in E. apply Nat.ltb_ge. lia. }
  rewrite !B, index_shift.
  replace (length p + i + 1) with (length p + (i + 1)) by lia.
  replace (length p + i + 3) with (length p + (i + 3)) by lia.
  rewrite index_shift, substring_shift.
  apply resolve_shift.
Qed.

Lemma loop_result (fuel : nat) (text : str) (i : nat) (result : str) :
  loop fuel text i result = result ++ loop fuel text i [].
Proof.
  revert i result. induction fuel as [|fuel IH]; intros i result; simpl.
  - now rewrite app_nil_r.
  - destruct (i <? length text); [|now rewrite app_nil_r].
    destruct (iteration text i) as [out i'].
    rewrite IH, (IH i' out). now rewrite app_assoc.
Qed.

Lemma loop_shift (fuel : nat) (p s : str) (i : nat) :
  loop fuel (p ++ s) (length p + i) [] = loop fuel s i [].
Proof.
  revert i. induction fuel as [|fuel IH]; intros i; [reflexivity|].
  cbn [loop]. rewrite length_app.
  replace (length p + i <? length p + length s) with (i <? length s).
  - destruct (i <? length s); [|reflexivity].
    rewrite iteration_shift. destruct (iteration s i) as [out i'].
    cbn [fst snd]. rewrite loop_result, IH. symmetry. apply loop_result.
  - destruct (i <? length s) eqn:E; symmetry.
    + apply Nat.ltb_lt in E. apply Nat.ltb_lt. lia.
    + apply Nat.ltb_ge in E. apply Nat.ltb_ge. lia.
Qed.

Lemma convertAdvanced_loop (s : str) :
  convertAdvanced s = loop (length s) s 0 [].
Proof. unfold convertAdvanced. now destruct s. Qed.

(** [convertAdvanced] is the output of the first iteration followed by
    the conversion of what that iteration leaves. *)
Lemma convertAdvanced_unfold (s : str) :
  s <> [] ->
  convertAdvanced s
  = fst (iteration s 0) ++ convertAdvanced (skipn (snd (iteration s 0)) s).
Proof.
  intros Hne.
  assert (Hlen : 0 < length s) by (destruct s; [congruence | simpl; lia]).
  pose proof (iteration_bounds s 0 Hlen) as Hb.
  rewrite (convertAdvanced_loop s).
  destruct (length s) as [|m] eqn:Em; [lia|].
  cbn [loop]. rewrite Em.
  replace (0 <? S m) with true by reflexivity.
  destruct (iteration s 0) as [out n]. cbn [fst snd] in *.
  cbn [app]. rewrite loop_result. f_equal.
  rewrite convertAdvanced_loop.
  pose proof (loop_shift m (firstn n s) (skipn n s) 0) as Sh.
  rewrite firstn_skipn, length_firstn in Sh.
  replace (Nat.min n (length s) + 0) with n in Sh by lia.
  rewrite Sh. apply loop_fuel; rewrite length_skipn; lia.
Qed.

Lemma barrier_no_key (t : table) (k : str) (c : N) :
  engineTable t -> inAlphabet c = false -> In c k -> get t k = None.
Proof.
  intros Ht Hc Hin. destruct (get t k) as [v|] eqn:E; [|reflexivity].
  pose proof (get_key_alphabet t k v Ht E) as A.
  rewrite forallb_forall in A. specialize (A c Hin). congruence.
Qed.

Lemma barrier_tableMatch (k : str) (c : N) :
  inAlphabet c = false -> In c k -> tableMatch k = None.
Proof.
  intros Hc Hin. unfold tableMatch, orElse.
  now rewrite (barrier_no_key _ k c et_clusters Hc Hin),
              (barrier_no_key _ k c et_mapping Hc Hin).
Qed.

Lemma barrier_twoCharMatch (k : str) (c : N) :
  inAlphabet c = false -> In c k -> length k = 2 -> twoCharMatch k = None.
Proof.
  intros Hc Hin Hlen. unfold twoCharMatch.
  rewrite (barrier_no_key _ k c et_clusters Hc Hin),
          (barrier_no_key _ k c et_mapping Hc Hin).
  cbn [truthy].
  destruct k as [|u [|v [|w k]]]; try discriminate.
  assert (B : get baseConsonants [c] = None)
    by (apply (barrier_no_key _ _ c et_base Hc); now left).
  unfold index. cbn [skipn firstn].
  destruct Hin as [->|[->|[]]]; rewrite B; cbn [truthy];
    [reflexivity|].
  now destruct (truthy (get baseConsonants [u])).
Qed.

Lemma barrier_matraOf (k : str) (c : N) :
  inAlphabet c = false -> In c k -> matraOf (Some k) = None.
Proof.
  intros Hc Hin. cbn [matraOf].
  now rewrite (barrier_no_key _ k c et_matras Hc Hin).
Qed.

Lemma firstn_before (a rest : str) (n : nat) :
  n <= length a -> firstn n (a ++ rest) = firstn n a.
Proof.
  intros H. rewrite firstn_app.
  replace (n - length a) with 0 by lia. now rewrite app_nil_r.
Qed.

Lemma firstn_reaches (a rest : str) (c : N) (n : nat) :
  length a < n -> In c (firstn n (a ++ c :: rest)).
Proof.
  intros H. rewrite firstn_app. apply in_or_app. right.
  destruct (n - length a) as [|m] eqn:E; [lia|]. now left.
Qed.

Section Barrier.

Variables (a b : str) (c : N).
Hypothesis Hne : a <> [].
Hypothesis Hc : inAlphabet c = false.
Hypothesis Hcons : isConsonantChar [c] = false.

Lemma barrier_rung (n : nat) (F : str -> option str) :
  (forall k, In c k -> length k = n -> F k = None) ->
  (if 0 + n <=? length (a ++ c :: b)
   then F (substring (a ++ c :: b) 0 (0 + n)) else None)
  = (if 0 + n <=? length a then F (substring a 0 (0 + n)) else None).
Proof.
  intros HF. cbn [Nat.add].
  destruct (n <=? length a) eqn:E.
  - apply Nat.leb_le in E.
    replace (n <=? length (a ++ c :: b)) with true
      by (symmetry; apply Nat.leb_le; rewrite length_app; lia).
    now rewrite !substring_prefix, firstn_before.
  - apply Nat.leb_gt in E.
    destruct (n <=? length (a ++ c :: b)) eqn:E'; [|reflexivity].
    apply Nat.leb_le in E'. apply HF.
    + rewrite substring_prefix. now apply firstn_reaches.
    + now apply (substring_length _ 0 n).
Qed.

Lemma barrier_index0 : index (a ++ c :: b) 0 = index a 0.
Proof.
  unfold index. rewrite !skipn_O. apply firstn_before.
  destruct a; [congruence | simpl; lia].
Qed.

Lemma barrier_next :
  let nextJoined := if 0 + 1 <? length (a ++ c :: b)
                   then Some (index (a ++ c :: b) (0 + 1)) else None in
  let nextA := if 0 + 1 <? length a then Some (index a (0 + 1)) else None in
  consonantNext nextJoined = consonantNext nextA
  /\ matraOf nextJoined = matraOf nextA.
Proof.
  cbn zeta. cbn [Nat.add].
  replace (1 <? length (a ++ c :: b)) with true.
  2:{ symmetry. apply Nat.ltb_lt. rewrite length_app.
      destruct a; [congruence | simpl; lia]. }
  destruct (1 <? length a) eqn:E.
  - apply Nat.ltb_lt in E.
    replace (index (a ++ c :: b) 1) with (index a 1); [now split|].
    unfold index. rewrite skipn_app.
    replace (1 - length a) with 0 by lia. rewrite skipn_O.
    rewrite firstn_before; [reflexivity|]. rewrite length_skipn. lia.
  - apply Nat.ltb_ge in E.
    destruct a as [|x [|y r]]; [congruence| |simpl in E; lia].
    cbn [app]. unfold index. cbn [skipn firstn].
    split.
    + cbn [consonantNext]. now rewrite Hcons.
    + cbn [matraOf].
      rewrite (barrier_no_key _ [c] c et_matras Hc); [reflexivity | now left].
Qed.

Lemma barrier_nextTwo :
  matraOf (if 0 + 2 <? length (a ++ c :: b)
           then Some (substring (a ++ c :: b) (0 + 1) (0 + 3)) else None)
  = matraOf (if 0 + 2 <? length a
             then Some (substring a (0 + 1) (0 + 3)) else None).
Proof.
  cbn [Nat.add].
  destruct (2 <? length a) eqn:E.
  - apply Nat.ltb_lt in E.
    replace (2 <? length (a ++ c :: b)) with true
      by (symmetry; apply Nat.ltb_lt; rewrite length_app; lia).
    rewrite !(substring_from _ 1 2) by (rewrite ?length_app; lia).
    rewrite skipn_app. replace (1 - length a) with 0 by lia.
    rewrite skipn_O, firstn_before; [reflexivity|].
    rewrite length_skipn. lia.
  - apply Nat.ltb_ge in E.
    destruct (2 <? length (a ++ c :: b)) eqn:E'; [|reflexivity].
    apply Nat.ltb_lt in E'. change (matraOf None) with (@None str).
    apply (barrier_matraOf _ c Hc).
    rewrite (substring_from _ 1 2) by lia.
    rewrite skipn_app.
    replace (1 - length a) with 0
      by (destruct a; [congruence | simpl; lia]).
    rewrite skipn_O. apply firstn_reaches.
    rewrite length_skipn. lia.
Qed.

(** Before a barrier an iteration does what it does at the end of the
    text. *)
Lemma barrier_iteration : iteration (a ++ c :: b) 0 = iteration a 0.
Proof.
  unfold iteration.
  rewrite (barrier_rung 4 tableMatch)
    by (intros k Hk _; now apply (barrier_tableMatch k c)).
  rewrite (barrier_rung 3 tableMatch)
    by (intros k Hk _; now apply (barrier_tableMatch k c)).
  rewrite (barrier_rung 2 twoCharMatch)
    by (intros k Hk Hl; now apply (barrier_twoCharMatch k c)).
  rewrite !singleCharStep_resolve, barrier_index0.
  destruct barrier_next as [N1 N2]. rewrite N1, N2, barrier_nextTwo.
  reflexivity.
Qed.

End Barrier.

Lemma barrier_head (b : str) (c : N) :
  inAlphabet c = false -> iteration (c :: b) 0 = ([c], 1).
Proof.
  intros Hc. unfold iteration.
  assert (R : forall n, n <> 0 -> 0 + n <= length (c :: b) ->
                In c (substring (c :: b) 0 (0 + n))).
  { intros n Hn L. rewrite substring_prefix. cbn [Nat.add].
    destruct n; [congruence | now left]. }
  assert (H4 : (if 0 + 4 <=? length (c :: b)
                then tableMatch (substring (c :: b) 0 (0 + 4)) else None)
               = None).
  { destruct (0 + 4 <=? length (c :: b)) eqn:E; [|reflexivity].
    apply Nat.leb_le in E. apply (barrier_tableMatch _ c Hc).
    now apply R. }
  assert (H3 : (if 0 + 3 <=? length (c :: b)
                then tableMatch (substring (c :: b) 0 (0 + 3)) else None)
               = None).
  { destruct (0 + 3 <=? length (c :: b)) eqn:E; [|reflexivity].
    apply Nat.leb_le in E. apply (barrier_tableMatch _ c Hc).
    now apply R. }
  assert (H2 : (if 0 + 2 <=? length (c :: b)
                then twoCharMatch (substring (c :: b) 0 (0 + 2)) else None)
               = None).
  { destruct (0 + 2 <=? length (c :: b)) eqn:E; [|reflexivity].
    apply Nat.leb_le in E. apply (barrier_twoCharMatch _ c Hc).
    - now apply R.
    - now apply (substring_length _ 0 2). }
  rewrite H4, H3, H2. unfold singleCharStep, index. cbn [skipn firstn].
  rewrite (barrier_no_key _ [c] c et_vowels Hc) by now left.
  rewrite (barrier_no_key _ [c] c et_base Hc) by now left.
  reflexivity.
Qed.

Lemma convertAdvanced_barrier (a b : str) (c : N) :
  barrier c = true ->
  convertAdvanced (a ++ c :: b)
  = convertAdvanced a ++ c :: convertAdvanced b.
Proof.
  intros B. unfold barrier in B. apply andb_true_iff in B as [Hc Hcons].
  apply negb_true_iff in Hc, Hcons.
  remember (length a) as n eqn:En. revert a En.
  induction n as [n IH] using lt_wf_ind. intros a En.
  destruct a as [|x a].
  - cbn [app]. rewrite convertAdvanced_unfold by discriminate.
    rewrite (barrier_head b c Hc). reflexivity.
  - set (w := x :: a) in *.
    assert (Hw : w <> []) by discriminate.
    assert (Hlen : 0 < length w) by (simpl; lia).
    pose proof (iteration_bounds w 0 Hlen) as Hb.
    rewrite (convertAdvanced_unfold (w ++ c :: b))
      by (destruct w; discriminate).
    rewrite (barrier_iteration w b c Hw Hc Hcons).
    rewrite (convertAdvanced_unfold w Hw).
    destruct (iteration w 0) as [out m]. cbn [fst snd] in *.
    rewrite skipn_app. replace (m - length w) with 0 by lia.
    rewrite skipn_O.
    rewrite (IH (length (skipn m w))); [now rewrite <- app_assoc| |reflexivity].
    rewrite length_skipn. lia.
Qed.

(** X19: a character that no key holds and that is no consonant letter
    (a digit, a hyphen, a line feed, a glyph, ...) is a barrier for the
    composition: the parts before and after it are converted
    independently and the character itself is copied. *)
Theorem X19_convertAdvanced_barrier (a b : str) (c : N) :
  barrier c = true ->
  convertAdvanced (a ++ c :: b)
  = convertAdvanced a ++ c :: convertAdvanced b.
Proof. exact (convertAdvanced_barrier a b c). Qed.

Lemma X19_witness :
  convertAdvanced (utf16 "kshetra-7ghar")
  = convertAdvanced (utf16 "kshetra")
    ++ code "-" :: convertAdvanced (utf16 "7ghar").
Proof.
  apply (X19_convertAdvanced_barrier (utf16 "kshetra") (utf16 "7ghar")
           (code "-")).
  reflexivity.
Defined.
